(** * grid-poi-profiler: tile coverage, bounded collector and profile aggregation

    A shallow embedding of [backend/config.py], [backend/grid.py],
    [backend/collector.py] and [backend/profiler.py].

    Python [float]s are read as real numbers ([R]); [math.sin], [math.cos],
    [math.asin], [math.sqrt], [math.exp] and [math.log] are the functions of
    the same name of the real-number library.  Python [dict]s whose iteration
    order is observable are insertion-ordered association lists; the merged
    POI set of the collector, which is only ever read by key, is a [gmap]. *)

From Stdlib Require Import Reals Lra Lia ZArith List Zfloor Sorted.
From Stdlib Require Import String Ascii DecimalString DecimalNat.
From stdpp Require Import gmap strings.

Import ListNotations.
Local Open Scope string_scope.

(* ===================================================================== *)
(** ** Python dictionaries with observable insertion order *)
(* ===================================================================== *)

Module pydict.

Definition dict (V : Type) := list (string * V).

(** [d.get(k)] *)
Fixpoint get {V} (d : dict V) (k : string) : option V :=
  match d with
  | [] => None
  | (k', v) :: d' => if String.eqb k' k then Some v else get d' k
  end.

(** [k in d] *)
Definition mem {V} (d : dict V) (k : string) : bool :=
  match get d k with Some _ => true | None => false end.

(** [d[k] = v]: an existing key keeps its position, a new key goes last. *)
Fixpoint setitem {V} (d : dict V) (k : string) (v : V) : dict V :=
  match d with
  | [] => [(k, v)]
  | (k', v') :: d' =>
      if String.eqb k' k then (k', v) :: d' else (k', v') :: setitem d' k v
  end.

Definition keys {V} (d : dict V) : list string := map fst d.
Definition values {V} (d : dict V) : list V := map snd d.

(** [d.update(e)] *)
Definition update {V} (d e : dict V) : dict V :=
  fold_left (fun acc kv => setitem acc (fst kv) (snd kv)) e d.

(** [{k: v for k in ks}] *)
Definition from_keys {V} (ks : list string) (v : V) : dict V :=
  fold_left (fun acc k => setitem acc k v) ks [].

(** [defaultdict(...)]: [d[k] += x] with a default for a missing key. *)
Definition add_to {V} (plus : V -> V -> V) (zero : V)
    (d : dict V) (k : string) (x : V) : dict V :=
  setitem d k (plus (match get d k with Some v => v | None => zero end) x).

End pydict.

(* ===================================================================== *)
(** ** config.py *)
(* ===================================================================== *)

Module config.
Local Open Scope R_scope.

Definition BBOX_SOUTH : R := 2835 / 100.
Definition BBOX_NORTH : R := 2853 / 100.
Definition BBOX_WEST  : R := 7682 / 100.
Definition BBOX_EAST  : R := 7715 / 100.

(** [GRID_SPACING_M = 200] *)
Definition GRID_SPACING_M : R := 200.

Definition SIGMA_M : R := 200.
Definition MAX_INFLUENCE_M : R := 1000.

Definition AGE_BUCKETS : list string :=
  ["0-12"; "13-17"; "18-24"; "25-34"; "35-50"; "50+"]%string.

Definition TYPE_TO_AGE_WEIGHTS : pydict.dict (pydict.dict R) :=
  [ ("school", [("0-12", 70/100); ("13-17", 30/100)]);
    ("university", [("18-24", 80/100); ("25-34", 20/100)]);
    ("shopping_mall", [("25-34", 30/100); ("35-50", 40/100); ("18-24", 20/100); ("13-17", 10/100)]);
    ("store", [("25-34", 40/100); ("35-50", 30/100); ("18-24", 20/100); ("50+", 10/100)]);
    ("restaurant", [("25-34", 35/100); ("18-24", 25/100); ("35-50", 25/100); ("13-17", 10/100); ("50+", 5/100)]);
    ("hospital", [("35-50", 25/100); ("50+", 30/100); ("25-34", 20/100); ("0-12", 10/100); ("13-17", 5/100); ("18-24", 10/100)]);
    ("transit_station", [("18-24", 30/100); ("25-34", 40/100); ("35-50", 20/100); ("13-17", 10/100)]);
    ("park", [("0-12", 20/100); ("25-34", 25/100); ("35-50", 30/100); ("50+", 15/100); ("13-17", 10/100)]);
    ("gym", [("18-24", 35/100); ("25-34", 40/100); ("35-50", 20/100); ("13-17", 5/100)]);
    ("movie_theater", [("13-17", 15/100); ("18-24", 35/100); ("25-34", 30/100); ("35-50", 15/100); ("0-12", 5/100)]);
    ("bar", [("18-24", 30/100); ("25-34", 45/100); ("35-50", 20/100); ("50+", 5/100)]);
    ("night_club", [("18-24", 45/100); ("25-34", 40/100); ("35-50", 10/100); ("13-17", 5/100)]);
    ("place_of_worship", [("35-50", 30/100); ("50+", 35/100); ("25-34", 15/100); ("0-12", 10/100); ("13-17", 5/100); ("18-24", 5/100)]);
    ("lodging", [("25-34", 35/100); ("35-50", 35/100); ("18-24", 15/100); ("50+", 15/100)]);
    ("corporate_office", [("25-34", 45/100); ("35-50", 35/100); ("18-24", 15/100); ("50+", 5/100)]);
    ("coworking_space", [("18-24", 25/100); ("25-34", 50/100); ("35-50", 20/100); ("13-17", 5/100)]);
    ("it_park", [("25-34", 50/100); ("35-50", 30/100); ("18-24", 15/100); ("50+", 5/100)]);
    ("residential", [("0-12", 15/100); ("13-17", 10/100); ("25-34", 30/100); ("35-50", 30/100); ("50+", 15/100)])
  ]%string.

Definition INTEREST_CATEGORIES : list string :=
  ["education"; "shopping"; "food"; "health"; "transit"; "entertainment";
   "business"; "lifestyle"]%string.

Definition TYPE_TO_INTEREST_WEIGHTS : pydict.dict (pydict.dict R) :=
  [ ("school", [("education", 1)]);
    ("university", [("education", 9/10); ("food", 1/10)]);
    ("shopping_mall", [("shopping", 8/10); ("entertainment", 2/10)]);
    ("store", [("shopping", 9/10); ("food", 1/10)]);
    ("restaurant", [("food", 1)]);
    ("hospital", [("health", 1)]);
    ("transit_station", [("transit", 1)]);
    ("park", [("lifestyle", 7/10); ("health", 3/10)]);
    ("gym", [("lifestyle", 5/10); ("health", 5/10)]);
    ("movie_theater", [("entertainment", 1)]);
    ("bar", [("entertainment", 7/10); ("food", 3/10)]);
    ("night_club", [("entertainment", 1)]);
    ("place_of_worship", [("lifestyle", 1)]);
    ("lodging", [("business", 5/10); ("lifestyle", 5/10)]);
    ("corporate_office", [("business", 1)]);
    ("coworking_space", [("business", 9/10); ("lifestyle", 1/10)]);
    ("it_park", [("business", 1)]);
    ("residential", [("lifestyle", 1)])
  ]%string.

Definition TYPE_TO_LANDUSE : pydict.dict string :=
  [ ("school", "education"); ("university", "education");
    ("shopping_mall", "commercial"); ("store", "commercial");
    ("restaurant", "commercial"); ("hospital", "health");
    ("transit_station", "transit"); ("park", "recreation");
    ("gym", "recreation"); ("movie_theater", "entertainment");
    ("bar", "entertainment"); ("night_club", "entertainment");
    ("place_of_worship", "residential"); ("lodging", "hospitality");
    ("corporate_office", "office"); ("coworking_space", "office");
    ("it_park", "office"); ("residential", "residential")
  ]%string.

Definition TYPE_IMPORTANCE : pydict.dict R :=
  [ ("hospital", 15/10); ("university", 13/10); ("school", 12/10);
    ("shopping_mall", 14/10); ("store", 8/10); ("restaurant", 7/10);
    ("transit_station", 1); ("park", 9/10); ("gym", 8/10);
    ("movie_theater", 1); ("bar", 7/10); ("night_club", 8/10);
    ("place_of_worship", 9/10); ("lodging", 1);
    ("corporate_office", 16/10); ("coworking_space", 14/10);
    ("it_park", 17/10); ("residential", 13/10)
  ]%string.

Definition COLLECTOR_CONCURRENCY : nat := 10.
Definition COLLECTOR_RETRY_MAX : nat := 3.

(** Type-based searches (passed as [type=]). *)
Definition POI_TYPES : list string :=
  [ "hospital"; "school"; "university"; "shopping_mall"; "store";
    "restaurant"; "transit_station"; "park"; "gym"; "movie_theater";
    "bar"; "night_club"; "place_of_worship"; "lodging" ].

(** Keyword-based searches (passed as [keyword=], no type filter). *)
Definition POI_KEYWORDS : list string :=
  [ "corporate office"; "coworking space"; "IT park";
    "residential apartment"; "housing society" ].

End config.

(* ===================================================================== *)
(** ** grid.py *)
(* ===================================================================== *)

Module grid.
Local Open Scope R_scope.

(** Earth radius in meters (WGS84); the source calls it [R]. *)
Definition R_earth : R := 6378137.

Record GridPoint := mk_GridPoint {
  id : string;
  i : nat;
  j : nat;
  lat : R;
  lon : R
}.

(** [math.radians] *)
Definition radians (deg : R) : R := deg * (PI / 180).

Definition offset_point (lat lon dx dy : R) : R * R :=
  let new_lat := lat + (dy / R_earth) * (180 / PI) in
  let new_lon := lon + (dx / (R_earth * cos (radians lat))) * (180 / PI) in
  (new_lat, new_lon).

Definition haversine (lat1 lon1 lat2 lon2 : R) : R :=
  let phi1 := radians lat1 in
  let phi2 := radians lat2 in
  let dphi := radians (lat2 - lat1) in
  let dlam := radians (lon2 - lon1) in
  let a := sin (dphi / 2) ^ 2 + cos phi1 * cos phi2 * sin (dlam / 2) ^ 2 in
  2 * R_earth * asin (sqrt a).

(** [int(x)] on a float: truncation toward zero. *)
Definition py_int (x : R) : Z :=
  if Rle_dec 0 x then Zfloor x else Zceil x.

(** [str(n)] for a non-negative [int]. *)
Definition str_of_nat (n : nat) : string :=
  NilEmpty.string_of_uint (Nat.to_uint n).

(** [f"g_{i}_{j}"] *)
Definition point_id (i j : nat) : string :=
  ("g_" ++ str_of_nat i ++ "_" ++ str_of_nat j)%string.

(** The point built in the inner loop of [generate_grid]. *)
Definition grid_point_at (origin_lat origin_lon spacing_m : R) (i j : nat)
    : GridPoint :=
  let dx := INR i * spacing_m in
  let dy := INR j * spacing_m in
  let p := offset_point origin_lat origin_lon dx dy in
  {| id := point_id i j; i := i; j := j; lat := fst p; lon := snd p |}.

(** [generate_grid]: rows [j] south to north, inside a row columns [i]
    west to east; [range] of a non-positive size is empty. *)
Definition generate_grid (origin_lat origin_lon : R) (size_x size_y : Z)
    (spacing_m : R) : list GridPoint :=
  flat_map
    (fun j => map (fun i => grid_point_at origin_lat origin_lon spacing_m i j)
                (seq 0 (Z.to_nat size_x)))
    (seq 0 (Z.to_nat size_y)).

(** [generate_grid_from_bbox]; [None] stands for the [ZeroDivisionError]
    of a zero spacing. *)
Definition generate_grid_from_bbox (south north west east spacing_m : R)
    : option (list GridPoint) :=
  if Req_dec_T spacing_m 0 then None
  else
    let width_m := haversine south west south east in
    let height_m := haversine south west north west in
    let size_x := (py_int (width_m / spacing_m) + 1)%Z in
    let size_y := (py_int (height_m / spacing_m) + 1)%Z in
    Some (generate_grid south west size_x size_y spacing_m).

End grid.

(* ===================================================================== *)
(** ** Rows of the [pois] table and elements of a lookup response *)
(* ===================================================================== *)

Module POI.

(** A POI row, as built by [_parse_place] and read back by the profiler.
    [types] is the tag list itself (the source stores its JSON text and
    decodes it again on the read path); [user_ratings_total] is a count. *)
Record t := mk {
  place_id : string;
  name : string;
  lat : R;
  lon : R;
  types : list string;
  rating : option R;
  user_ratings_total : option N;
  raw_json : string;
  last_updated : string
}.

End POI.

Module place.

(** One element of the [results] array of a Nearby Search response; every
    field may be absent from the JSON object.  [json] is [json.dumps] of
    the whole element. *)
Record t := mk {
  place_id : option string;
  name : option string;
  lat : option R;
  lng : option R;
  types : option (list string);
  rating : option R;
  user_ratings_total : option N;
  json : string
}.

End place.

(** Truthiness of a Python [str]. *)
Definition truthy (s : string) : bool :=
  match s with EmptyString => false | _ => true end.

(** [s in l] for a list of strings. *)
Definition inb (s : string) (l : list string) : bool :=
  existsb (String.eqb s) l.

(* ===================================================================== *)
(** ** collector.py *)
(* ===================================================================== *)

Module collector.

(** *** Tile centers *)

(** The inner [while x <= x_max] loop; [None] when the fuel runs out. *)
Fixpoint row_loop (fuel : nat) (spacing x_max y x : R)
    (centers : list (R * R)) : option (list (R * R)) :=
  if Rle_dec x x_max then
    match fuel with
    | O => None
    | S fuel' =>
        row_loop fuel' spacing x_max y (x + spacing)
          (centers ++ [grid.offset_point config.BBOX_SOUTH config.BBOX_WEST x y])
    end
  else Some centers.

(** The outer [while y <= y_max] loop. *)
Fixpoint col_loop (fuel : nat) (spacing x_min x_max y_max y : R)
    (centers : list (R * R)) : option (list (R * R)) :=
  if Rle_dec y y_max then
    match fuel with
    | O => None
    | S fuel' =>
        match row_loop fuel spacing x_max y x_min centers with
        | None => None
        | Some centers' =>
            col_loop fuel' spacing x_min x_max y_max (y + spacing) centers'
        end
    end
  else Some centers.

Definition compute_tile_centers (fuel : nat) : option (list (R * R)) :=
  let tile_radius := config.MAX_INFLUENCE_M in
  let spacing := (tile_radius * sqrt 2 * (9 / 10))%R in
  let width_m := grid.haversine config.BBOX_SOUTH config.BBOX_WEST
                   config.BBOX_SOUTH config.BBOX_EAST in
  let height_m := grid.haversine config.BBOX_SOUTH config.BBOX_WEST
                    config.BBOX_NORTH config.BBOX_WEST in
  let buffer := tile_radius in
  let x_min := (- buffer)%R in
  let x_max := (width_m + buffer)%R in
  let y_min := (- buffer)%R in
  let y_max := (height_m + buffer)%R in
  col_loop fuel spacing x_min x_max y_max y_min [].

(** *** Parsing *)

Definition KEYWORD_TO_TYPE : pydict.dict string :=
  [ ("corporate office", "corporate_office");
    ("coworking space", "coworking_space");
    ("IT park", "it_park");
    ("residential apartment", "residential");
    ("housing society", "residential");
    ("hotel", "hotel") ].

(** [_parse_place(result, inject_type)]; [now] is the clock reading
    [datetime.now(timezone.utc).isoformat()]. *)
Definition _parse_place (now : string) (result : place.t)
    (inject_type : option string) : POI.t :=
  let types0 := default [] (place.types result) in
  let types1 :=
    match inject_type with
    | Some t => if truthy t && negb (inb t types0) then t :: types0 else types0
    | None => types0
    end in
  {| POI.place_id := default "" (place.place_id result);
     POI.name := default "" (place.name result);
     POI.lat := default 0%R (place.lat result);
     POI.lon := default 0%R (place.lng result);
     POI.types := types1;
     POI.rating := place.rating result;
     POI.user_ratings_total := place.user_ratings_total result;
     POI.raw_json := place.json result;
     POI.last_updated := now |}.

(** *** One work unit *)

(** What one [client.get] can do: answer with an HTTP status code and
    (read only when the code is 200) a JSON body carrying [status] and
    [results], or raise. *)
Inductive response :=
| HttpResponse (status_code : Z) (status : string) (results : list place.t)
| TimeoutException
| OtherException.

(** The external service: the response to the [n]-th lookup of a unit. *)
Definition service := nat -> response.

Inductive outcome :=
| Returned (pois : list POI.t)
| Raised.

(** Loop state of [_fetch_one_tile]: the [retries] counter, the number of
    lookups issued so far and the [asyncio.sleep] durations, oldest
    first, in seconds. *)
Record fetch_state := mk_fetch_state {
  retries : nat;
  attempts : nat;
  sleeps : list nat
}.

Definition initial_state : fetch_state :=
  {| retries := 0; attempts := 0; sleeps := [] |}.

(** One iteration of the body of the [while] loop: either the function
    leaves the loop with an outcome ([inl]), or it goes round again
    ([inr]). *)
Definition loop_body (now : string) (inject_type : option string)
    (svc : service) (st : fetch_state) : outcome * fetch_state + fetch_state :=
  let st1 := {| retries := retries st; attempts := S (attempts st);
                sleeps := sleeps st |} in
  match svc (attempts st) with
  | HttpResponse status_code status results =>
      if (status_code =? 200)%Z then
        if String.eqb status "OK" then
          inl (Returned (map (fun p => _parse_place now p inject_type) results), st1)
        else if String.eqb status "ZERO_RESULTS" then
          inl (Returned [], st1)
        else if String.eqb status "OVER_QUERY_LIMIT" then
          let wait := (2 ^ retries st)%nat in
          inr {| retries := S (retries st); attempts := S (attempts st);
                 sleeps := sleeps st ++ [wait] |}
        else if String.eqb status "REQUEST_DENIED" then
          inl (Returned [], st1)
        else
          inl (Returned [], st1)
      else inl (Returned [], st1)
  | TimeoutException =>
      inr {| retries := S (retries st); attempts := S (attempts st);
             sleeps := sleeps st ++ [1%nat] |}
  | OtherException => inl (Raised, st1)
  end.

(** The [while retries <= config.COLLECTOR_RETRY_MAX] loop, with fuel
    for the number of iterations; [None] when the fuel runs out. *)
Fixpoint fetch_loop (fuel : nat) (now : string) (inject_type : option string)
    (svc : service) (st : fetch_state) : option (outcome * fetch_state) :=
  if (retries st <=? config.COLLECTOR_RETRY_MAX)%nat then
    match fuel with
    | O => None
    | S fuel' =>
        match loop_body now inject_type svc st with
        | inl finished => Some finished
        | inr st' => fetch_loop fuel' now inject_type svc st'
        end
    end
  else Some (Returned [], st).

(** [KEYWORD_TO_TYPE.get(keyword) if keyword else None] *)
Definition inject_type_of (keyword : option string) : option string :=
  match keyword with
  | Some kw => if truthy kw then pydict.get KEYWORD_TO_TYPE kw else None
  | None => None
  end.

(** [_fetch_one_tile]: only [keyword] reaches the result (through
    [inject_type]); position, radius and type filter go into the request,
    whose answer is the service's. *)
Definition _fetch_one_tile (fuel : nat) (now : string) (svc : service)
    (keyword : option string) : option (outcome * fetch_state) :=
  fetch_loop fuel now (inject_type_of keyword) svc initial_state.

(** Seconds slept in total. *)
Definition total_backoff (st : fetch_state) : nat :=
  fold_right Nat.add 0%nat (sleeps st).

(** *** Merging *)

(** The merge loop of [collect_pois] over the results of one
    [asyncio.gather]: [all_pois[poi["place_id"]] = poi] for every record
    with a non-empty id. *)
Definition merge_poi (all_pois : gmap string POI.t) (p : POI.t)
    : gmap string POI.t :=
  if truthy (POI.place_id p) then <[POI.place_id p := p]> all_pois
  else all_pois.

Definition merge_results (all_pois : gmap string POI.t)
    (results : list (list POI.t)) : gmap string POI.t :=
  fold_left (fun acc batch => fold_left merge_poi batch acc) results all_pois.

(** [all_pois] after all tile batches of a run, starting from [{}]. *)
Definition collect_merge (rounds : list (list (list POI.t)))
    : gmap string POI.t :=
  fold_left merge_results rounds ∅.

(** *** The collection run *)

Definition BATCH_SIZE : nat := 50.

(** The [poi_type] and [keyword] arguments of the units created for one
    tile, in creation order: the type searches, then the keyword
    searches. *)
Definition search_units : list (option string * option string) :=
  (map (fun poi_type => (Some poi_type, None)) config.POI_TYPES
   ++ map (fun kw => (None, Some kw)) config.POI_KEYWORDS)%list.

(** The outside world: the service that answers the lookups of the unit
    for a tile center, a type filter and a keyword. *)
Definition world : Type := R * R -> option string -> option string -> service.

Definition task : Type := (R * R) * (option string * option string).

(** The [tasks] list built for one batch of tile centers. *)
Definition batch_tasks (batch_centers : list (R * R)) : list task :=
  flat_map (fun c => map (fun u => (c, u)) search_units) batch_centers.

Definition run_task (fuel : nat) (now : string) (w : world) (t : task)
    : option (outcome * fetch_state) :=
  _fetch_one_tile fuel now (w (fst t) (fst (snd t)) (snd (snd t))) (snd (snd t)).

(** [await asyncio.gather] over the tasks: the results in task order, or
    the exception of a unit that raised. *)
Inductive gathered :=
| Results (results : list (list POI.t))
| Exception
| OutOfFuel.

Fixpoint gather (runs : list (option (outcome * fetch_state))) : gathered :=
  match runs with
  | [] => Results []
  | None :: _ => OutOfFuel
  | Some (Raised, _) :: rest =>
      match gather rest with
      | OutOfFuel => OutOfFuel
      | _ => Exception
      end
  | Some (Returned pois, _) :: rest =>
      match gather rest with
      | Results results => Results (pois :: results)
      | other => other
      end
  end.

(** [range(0, stop, step)] *)
Definition py_range_step (stop step : nat) : list nat :=
  map (fun k => (k * step)%nat) (seq 0 ((stop + step - 1) / step)).

(** [l[a:b]] for [0 <= a] and [0 <= b] *)
Definition py_slice {A} (l : list A) (a b : nat) : list A :=
  firstn (b - a) (skipn a l).

(** State of the batch loop: the merged POIs, the counter [calls_done]
    and the sets of rows handed to [db.upsert_pois], oldest first. *)
Record collect_state := mk_collect_state {
  all_pois : gmap string POI.t;
  calls_done : nat;
  upserts : list (gmap string POI.t)
}.

Definition initial_collect_state : collect_state :=
  {| all_pois := ∅; calls_done := 0; upserts := [] |}.

(** How a run ends: it returns [len(all_pois)], or an exception of a
    unit leaves it with the batches merged and saved so far. *)
Inductive collected :=
| Completed (count : nat) (st : collect_state)
| Failed (st : collect_state)
| Starved.

(** The [for batch_start in range(0, total_tiles, BATCH_SIZE)] loop. *)
Fixpoint collect_loop (fuel : nat) (now : string) (w : world)
    (tile_centers : list (R * R)) (starts : list nat) (st : collect_state)
    : collected :=
  match starts with
  | [] => Completed (size (all_pois st)) st
  | batch_start :: starts' =>
      let batch_end := Nat.min (batch_start + BATCH_SIZE) (length tile_centers) in
      let batch_centers := py_slice tile_centers batch_start batch_end in
      let tasks := batch_tasks batch_centers in
      match gather (map (run_task fuel now w) tasks) with
      | Results results =>
          let all1 := merge_results (all_pois st) results in
          collect_loop fuel now w tile_centers starts'
            {| all_pois := all1;
               calls_done := calls_done st + length tasks;
               upserts := match size all1 with
                          | O => upserts st
                          | _ => (upserts st ++ [all1])%list
                          end |}
      | Exception => Failed st
      | OutOfFuel => Starved
      end
  end.

(** [collect_pois] once the tile centers are known. *)
Definition collect_tiles (fuel : nat) (now : string) (w : world)
    (tile_centers : list (R * R)) : collected :=
  collect_loop fuel now w tile_centers
    (py_range_step (length tile_centers) BATCH_SIZE) initial_collect_state.

Definition collect_pois (fuel : nat) (now : string) (w : world) : collected :=
  match compute_tile_centers fuel with
  | None => Starved
  | Some tile_centers => collect_tiles fuel now w tile_centers
  end.

End collector.

(* ===================================================================== *)
(** ** Python's [round(x, ndigits)] on a real number *)
(* ===================================================================== *)

(** Nearest integer, ties to the even one. *)
Definition round_half_even (x : R) : Z :=
  let f := Zfloor x in
  let r := (x - IZR f)%R in
  if Rlt_dec r (1 / 2) then f
  else if Rlt_dec (1 / 2) r then (f + 1)%Z
  else if Z.even f then f else (f + 1)%Z.

Definition py_round (x : R) (ndigits : nat) : R :=
  (IZR (round_half_even (x * 10 ^ ndigits)) / 10 ^ ndigits)%R.

(* ===================================================================== *)
(** ** profiler.py *)
(* ===================================================================== *)

Module profiler.
Local Open Scope R_scope.

Definition _DEG_PER_M_LAT : R := 1 / 111320.
Definition _DEG_PER_M_LON : R :=
  1 / (111320 * cos (grid.radians (2844 / 100))).
Definition _LAT_MARGIN : R := config.MAX_INFLUENCE_M * _DEG_PER_M_LAT * (11 / 10).
Definition _LON_MARGIN : R := config.MAX_INFLUENCE_M * _DEG_PER_M_LON * (11 / 10).

Definition _gaussian_decay (d sigma : R) : R :=
  exp (- (d * d) / (2 * sigma * sigma)).

Definition _popularity_factor (user_ratings_total : option N) : R :=
  match user_ratings_total with
  | None => 1
  | Some 0%N => 1
  | Some c => 1 + ln (1 + IZR (Z.of_N c))
  end.

(** The first type that is a key of [config.TYPE_IMPORTANCE]. *)
Definition _primary_type (types : list string) : option string :=
  find (fun t => pydict.mem config.TYPE_IMPORTANCE t) types.

Record nearest_entry := mk_nearest_entry {
  ne_place_id : string;
  ne_name : string;
  ne_type : string;
  ne_distance_m : R
}.

Record poi_summary_t := mk_poi_summary {
  nearest : list nearest_entry;
  counts : pydict.dict nat
}.

Record audience_t := mk_audience {
  age_profile : pydict.dict R;
  interests : pydict.dict R;
  footfall_proxy : R;
  confidence : R
}.

Record profile := mk_profile {
  grid_point_id : string;
  p_lat : R;
  p_lon : R;
  poi_summary : poi_summary_t;
  geographic_attributes : list string;
  audience : audience_t;
  sigma_m : R;
  max_influence_m : R
}.

(** [nearby_pois.sort(key=lambda x: x[1])]: a stable ascending sort. *)
Fixpoint insert_by_distance (x : POI.t * R) (l : list (POI.t * R))
    : list (POI.t * R) :=
  match l with
  | [] => [x]
  | y :: l' =>
      if Rle_dec (snd x) (snd y) then x :: l
      else y :: insert_by_distance x l'
  end.

Definition sort_by_distance (l : list (POI.t * R)) : list (POI.t * R) :=
  fold_right insert_by_distance [] l.

(** [_primary_type(types) or (types[0] if types else "unknown")] *)
Definition display_type (types : list string) : string :=
  let fallback := match types with t :: _ => t | [] => "unknown"%string end in
  match _primary_type types with
  | Some t => if truthy t then t else fallback
  | None => fallback
  end.

Definition nearest_of (x : POI.t * R) : nearest_entry :=
  {| ne_place_id := POI.place_id (fst x);
     ne_name := POI.name (fst x);
     ne_type := display_type (POI.types (fst x));
     ne_distance_m := py_round (snd x) 1 |}.

(** [ptype = _primary_type(...)] followed by [if ptype:] / [if not ptype:] *)
Definition weighting_type (types : list string) : option string :=
  match _primary_type types with
  | Some t => if truthy t then Some t else None
  | None => None
  end.

Definition count_step (counts : pydict.dict nat) (x : POI.t * R)
    : pydict.dict nat :=
  match weighting_type (POI.types (fst x)) with
  | Some ptype => pydict.add_to Nat.add 0%nat counts ptype 1%nat
  | None => counts
  end.

(** The accumulators of the weighting loop. *)
Record scores := mk_scores {
  age_scores : pydict.dict R;
  interest_scores : pydict.dict R;
  footfall_total : R;
  total_influence : R;
  landuse_scores : pydict.dict R
}.

Definition empty_scores : scores :=
  {| age_scores := []; interest_scores := []; footfall_total := 0;
     total_influence := 0; landuse_scores := [] |}.

(** [for k, w in table.items(): acc[k] += base_weight * w] *)
Definition fan_out (base_weight : R) (table : pydict.dict R)
    (acc : pydict.dict R) : pydict.dict R :=
  fold_left (fun a kw => pydict.add_to Rplus 0 a (fst kw) (base_weight * snd kw))
    table acc.

Definition score_step (s : scores) (x : POI.t * R) : scores :=
  match weighting_type (POI.types (fst x)) with
  | None => s
  | Some ptype =>
      let decay := _gaussian_decay (snd x) config.SIGMA_M in
      let importance := default 1 (pydict.get config.TYPE_IMPORTANCE ptype) in
      let pop := _popularity_factor (POI.user_ratings_total (fst x)) in
      let base_weight := importance * decay * pop in
      {| total_influence := total_influence s + base_weight;
         footfall_total := footfall_total s + pop * decay;
         age_scores :=
           fan_out base_weight
             (default [] (pydict.get config.TYPE_TO_AGE_WEIGHTS ptype))
             (age_scores s);
         interest_scores :=
           fan_out base_weight
             (default [] (pydict.get config.TYPE_TO_INTEREST_WEIGHTS ptype))
             (interest_scores s);
         landuse_scores :=
           pydict.add_to Rplus 0 (landuse_scores s)
             (default "other"%string (pydict.get config.TYPE_TO_LANDUSE ptype))
             base_weight |}
  end.

(** [sum(scores.values())] *)
Definition sum_values (d : pydict.dict R) : R :=
  fold_left Rplus (pydict.values d) 0.

Definition normalize (d : pydict.dict R) : pydict.dict R :=
  let total := sum_values d in
  if Req_dec_T total 0 then map (fun kv => (fst kv, 0)) d
  else map (fun kv => (fst kv, py_round (snd kv / total) 2)) d.

(** [sorted(landuse_scores, key=landuse_scores.get, reverse=True)]: a
    stable sort of the keys by descending score. *)
Fixpoint insert_by_score (x : string * R) (l : list (string * R))
    : list (string * R) :=
  match l with
  | [] => [x]
  | y :: l' =>
      if Rle_dec (snd y) (snd x) then x :: l
      else y :: insert_by_score x l'
  end.

Definition sorted_desc (d : pydict.dict R) : list string :=
  map fst (fold_right insert_by_score [] d).

Definition compute_profile (grid_point : grid.GridPoint)
    (nearby_pois : list (POI.t * R)) : profile :=
  let sorted := sort_by_distance nearby_pois in
  let nearest_list := map nearest_of (firstn 10 sorted) in
  let counts := fold_left count_step sorted [] in
  let s := fold_left score_step sorted empty_scores in
  let age_profile :=
    pydict.update (pydict.from_keys config.AGE_BUCKETS 0)
      (normalize (age_scores s)) in
  let interests :=
    pydict.update (pydict.from_keys config.INTEREST_CATEGORIES 0)
      (normalize (interest_scores s)) in
  let footfall_proxy :=
    if Rlt_dec 0 (footfall_total s)
    then py_round (Rmin 1 (footfall_total s / 20)) 2 else 0 in
  let confidence :=
    if Rlt_dec 0 (total_influence s)
    then py_round (Rmin 1 (total_influence s / 15)) 2 else 0 in
  let geo_attrs :=
    match landuse_scores s with
    | [] => []
    | _ => firstn 3 (sorted_desc (landuse_scores s))
    end in
  {| grid_point_id := grid.id grid_point;
     p_lat := grid.lat grid_point;
     p_lon := grid.lon grid_point;
     poi_summary := {| nearest := nearest_list; counts := counts |};
     geographic_attributes := geo_attrs;
     audience := {| age_profile := age_profile; interests := interests;
                    footfall_proxy := footfall_proxy;
                    confidence := confidence |};
     sigma_m := config.SIGMA_M;
     max_influence_m := config.MAX_INFLUENCE_M |}.

(** The candidate loop of [compute_all_profiles] for one grid point:
    coarse bounding-box test, then the haversine test. *)
Definition candidate_step (gp_lat gp_lon : R)
    (candidates : list (POI.t * R)) (p : POI.t) : list (POI.t * R) :=
  if Rle_dec (Rabs (POI.lat p - gp_lat)) _LAT_MARGIN then
    if Rle_dec (Rabs (POI.lon p - gp_lon)) _LON_MARGIN then
      let d := grid.haversine gp_lat gp_lon (POI.lat p) (POI.lon p) in
      if Rle_dec d config.MAX_INFLUENCE_M then candidates ++ [(p, d)]
      else candidates
    else candidates
  else candidates.

Definition candidates_for (gp : grid.GridPoint) (all_pois : list POI.t)
    : list (POI.t * R) :=
  fold_left (candidate_step (grid.lat gp) (grid.lon gp)) all_pois [].

(** The profiles [compute_all_profiles] hands to the database, in grid
    order. *)
Definition compute_all_profiles (grid_points : list grid.GridPoint)
    (all_pois : list POI.t) : list profile :=
  map (fun gp => compute_profile gp (candidates_for gp all_pois)) grid_points.

(** *** The batched writes of [compute_all_profiles] *)

(** The tuple appended to [batch] for one grid point, which
    [_flush_batch] passes to [db.upsert_profile]. *)
Record profile_row := mk_profile_row {
  row_grid_point_id : string;
  row_geo_attrs : list string;
  row_audience : audience_t;
  row_poi_summary : poi_summary_t
}.

Definition BATCH_SIZE : nat := 500.

Definition batch_row (gp : grid.GridPoint) (all_pois : list POI.t)
    : profile_row :=
  let profile := compute_profile gp (candidates_for gp all_pois) in
  {| row_grid_point_id := grid.id gp;
     row_geo_attrs := geographic_attributes profile;
     row_audience := audience profile;
     row_poi_summary := poi_summary profile |}.

(** Loop state: [count], the pending [batch], and the batches already
    handed to [_flush_batch], oldest first. *)
Record run_state := mk_run_state {
  count : nat;
  batch : list profile_row;
  flushed : list (list profile_row)
}.

(** One iteration of [for idx, gp in enumerate(grid_points)]. *)
Definition profile_loop_step (all_pois : list POI.t) (st : run_state)
    (gp : grid.GridPoint) : run_state :=
  let batch1 := (batch st ++ [batch_row gp all_pois])%list in
  if (BATCH_SIZE <=? length batch1)%nat then
    {| count := S (count st); batch := [];
       flushed := (flushed st ++ [batch1])%list |}
  else
    {| count := S (count st); batch := batch1; flushed := flushed st |}.

(** [compute_all_profiles] with its effects: the returned count and the
    batches written, in order. *)
Definition compute_all_profiles_run (grid_points : list grid.GridPoint)
    (all_pois : list POI.t) : nat * list (list profile_row) :=
  match grid_points with
  | [] => (0%nat, [])
  | _ =>
      let st := fold_left (profile_loop_step all_pois) grid_points
                  {| count := 0; batch := []; flushed := [] |} in
      let written :=
        match batch st with
        | [] => flushed st
        | _ => (flushed st ++ [batch st])%list
        end in
      (count st, written)
  end.

End profiler.

(* ===================================================================== *)
(** ** Statements about the retry loop, as predicates on responses *)
(* ===================================================================== *)

Module fetch_spec.
Import collector.

(** A rate-limited answer. *)
Definition rate_limited (r : response) : Prop :=
  exists results, r = HttpResponse 200 "OVER_QUERY_LIMIT" results.

(** An answer after which the loop goes round again. *)
Definition retryable (r : response) : Prop :=
  rate_limited r \/ r = TimeoutException.

(** A permanently denied answer, an unrecognized status, or an HTTP
    status code other than 200. *)
Definition terminal_failure (r : response) : Prop :=
  exists status_code status results,
    r = HttpResponse status_code status results /\
    (status_code <> 200%Z \/
     (status <> "OK" /\ status <> "ZERO_RESULTS" /\ status <> "OVER_QUERY_LIMIT")).

(** [2^0 + 2^1 + ... + 2^(k-1)] *)
Definition backoff_sum (k : nat) : nat :=
  fold_right Nat.add 0%nat (map (Nat.pow 2) (seq 0 k)).

End fetch_spec.

(** The record that arrived last under [id] among the arrivals [l]; none
    for the empty id. *)
Definition last_arrival (id : string) (l : list POI.t) : option POI.t :=
  if truthy id then last (filter (λ p, POI.place_id p = id) l) else None.

(* ===================================================================== *)
(** ** Statements about the POI summary *)
(* ===================================================================== *)

Module summary_spec.
Import profiler.

(** [counts.get(t, 0)] *)
Definition count_in (counts : pydict.dict nat) (t : string) : nat :=
  default 0%nat (pydict.get counts t).

(** The number of POIs of [pois] whose category, as resolved by
    [resolve], is [t]. *)
Definition tally (resolve : list string -> option string)
    (pois : list (POI.t * R)) (t : string) : nat :=
  length (filter (λ x, resolve (POI.types (fst x)) = Some t) pois).

(** The resolved primary category the summary displays: the first tag
    of the importance table, else the first tag; a POI without any tag
    has none. *)
Definition displayed_category (types : list string) : option string :=
  match types with
  | [] => None
  | _ => Some (display_type types)
  end.

(** Ascending by distance. *)
Definition by_distance (x y : POI.t * R) : Prop := (snd x <= snd y)%R.

End summary_spec.

(* ===================================================================== *)
(** ** Statements about the distributions *)
(* ===================================================================== *)

Module distribution_spec.

(** Every bucket of every row of a weight table lies in [universe]. *)
Definition rows_within (universe : list string)
    (table : pydict.dict (pydict.dict R)) : bool :=
  forallb (fun row => forallb (fun k => inb k universe) (pydict.keys (snd row)))
    table.

(** Every value of the distribution is exactly 0.0. *)
Definition all_zero (d : pydict.dict R) : Prop :=
  Forall (fun v => v = 0%R) (pydict.values d).

(** The values add up to 1.0, up to half a hundredth (the error of
    rounding to two decimals) for each bucket. *)
Definition sums_to_one (d : pydict.dict R) : Prop :=
  (Rabs (profiler.sum_values d - 1) <= INR (length d) * (1 / 200))%R.

(** The loop invariant of the weighting loop about its two score
    dictionaries: no key twice, no key outside the bucket universe. *)
Definition scores_within (s : profiler.scores) : Prop :=
  NoDup (pydict.keys (profiler.age_scores s)) /\
  (forall k, In k (pydict.keys (profiler.age_scores s)) -> In k config.AGE_BUCKETS) /\
  NoDup (pydict.keys (profiler.interest_scores s)) /\
  (forall k, In k (pydict.keys (profiler.interest_scores s)) ->
             In k config.INTEREST_CATEGORIES).

End distribution_spec.

(* ===================================================================== *)
(** ** Statements about coverage and the spatial filter *)
(* ===================================================================== *)

Module geo_spec.
Local Open Scope R_scope.

(** The quantity [a] under the square root of [haversine]. *)
Definition hav (lat1 lon1 lat2 lon2 : R) : R :=
  sin (grid.radians (lat2 - lat1) / 2) ^ 2
  + cos (grid.radians lat1) * cos (grid.radians lat2)
    * sin (grid.radians (lon2 - lon1) / 2) ^ 2.

(** A point of the configured bounding box. *)
Definition in_bbox (lat lon : R) : Prop :=
  config.BBOX_SOUTH <= lat <= config.BBOX_NORTH /\
  config.BBOX_WEST <= lon <= config.BBOX_EAST.

(** Geographic coordinates in degrees. *)
Definition valid_coordinates (lat lon : R) : Prop :=
  -90 <= lat <= 90 /\ -180 <= lon <= 180.

(** Some tile center lies within the tile radius of the point. *)
Definition covered (centers : list (R * R)) (lat lon : R) : Prop :=
  exists c, In c centers /\
    grid.haversine lat lon (fst c) (snd c) <= config.MAX_INFLUENCE_M.

(** The POIs within the influence radius of a grid point, each with its
    haversine distance, in the order of the POI list: what the two-stage
    filter is meant to select. *)
Definition within_radius_step (gp_lat gp_lon : R)
    (selected : list (POI.t * R)) (p : POI.t) : list (POI.t * R) :=
  let d := grid.haversine gp_lat gp_lon (POI.lat p) (POI.lon p) in
  if Rle_dec d config.MAX_INFLUENCE_M then selected ++ [(p, d)] else selected.

Definition within_radius (gp : grid.GridPoint) (all_pois : list POI.t)
    : list (POI.t * R) :=
  fold_left (within_radius_step (grid.lat gp) (grid.lon gp)) all_pois [].

(** The coarse test of the candidate loop. *)
Definition coarse_pass (gp_lat gp_lon : R) (p : POI.t) : Prop :=
  Rabs (POI.lat p - gp_lat) <= profiler._LAT_MARGIN /\
  Rabs (POI.lon p - gp_lon) <= profiler._LON_MARGIN.

End geo_spec.

(* ===================================================================== *)
(** ** Statements about the scalar scores and the land-use ranking *)
(* ===================================================================== *)

Module score_spec.

(** A POI that takes part in the weighting: one of its tags is a key of
    the importance table. *)
Definition weighted (x : POI.t * R) : Prop :=
  profiler._primary_type (POI.types (fst x)) <> None.

(** The land-use tag a POI contributes to, if it is weighted. *)
Definition landuse_of (x : POI.t * R) : option string :=
  match profiler._primary_type (POI.types (fst x)) with
  | Some t => Some (default "other" (pydict.get config.TYPE_TO_LANDUSE t))
  | None => None
  end.

(** The weight a weighted POI at distance [snd x] enters the sums with:
    [importance * decay * pop]. *)
Definition base_weight_of (x : POI.t * R) : R :=
  match profiler._primary_type (POI.types (fst x)) with
  | Some t =>
      (default 1 (pydict.get config.TYPE_IMPORTANCE t)
       * profiler._gaussian_decay (snd x) config.SIGMA_M
       * profiler._popularity_factor (POI.user_ratings_total (fst x)))%R
  | None => 0%R
  end.

(** The raw (pre-normalization) score of a land-use tag: the sum of the
    weights of the POIs that contribute to it. *)
Definition raw_landuse_score (pois : list (POI.t * R)) (g : string) : R :=
  fold_right
    (fun x acc => if decide (landuse_of x = Some g)
                  then (base_weight_of x + acc)%R else acc)
    0%R pois.

(** [x] is a whole number of hundredths. *)
Definition two_decimals (x : R) : Prop :=
  exists z : Z, x = (IZR z / 100)%R.

(** What a weighted POI adds to [footfall_total]: [pop * decay]. *)
Definition footfall_weight_of (x : POI.t * R) : R :=
  match profiler._primary_type (POI.types (fst x)) with
  | Some t =>
      (profiler._popularity_factor (POI.user_ratings_total (fst x))
       * profiler._gaussian_decay (snd x) config.SIGMA_M)%R
  | None => 0%R
  end.

(** The sum of a weight over a POI list. *)
Definition sum_of (f : POI.t * R -> R) (pois : list (POI.t * R)) : R :=
  fold_right (fun x acc => (f x + acc)%R) 0%R pois.




End score_spec.

(* ===================================================================== *)
(** ** main.py *)
(* ===================================================================== *)

Module main.
Local Open Scope R_scope.

(** One step of [min(iterable, key=key)]: the running minimum is replaced
    only by an item with a strictly smaller key. *)
Definition min_step {A} (key : A -> R) (best item : A) : A :=
  if Rlt_dec (key item) (key best) then item else best.

(** [min(first :: rest, key=key)] *)
Definition py_min_by {A} (key : A -> R) (first : A) (rest : list A) : A :=
  fold_left (min_step key) rest first.

(** The body of a successful [/profile] answer. *)
Record nearest_response := mk_nearest_response {
  r_grid_point_id : string;
  r_lat : R;
  r_lon : R;
  r_poi_summary : profiler.poi_summary_t;
  r_geographic_attributes : list string;
  r_audience : profiler.audience_t;
  r_sigma_m : R;
  r_max_influence_m : R
}.

Inductive http_result :=
| Ok (body : nearest_response)
| HTTPException (status_code : nat).

(** [get_nearest_profile]; [grid_points] is what [db.get_all_grid_points]
    returns and [get_profile] is [db.get_profile]. *)
Definition get_nearest_profile (grid_points : list grid.GridPoint)
    (get_profile : string -> option profiler.profile_row) (lat lon : R)
    : http_result :=
  match grid_points with
  | [] => HTTPException 400
  | first :: rest =>
      let nearest :=
        py_min_by (fun gp => grid.haversine lat lon (grid.lat gp) (grid.lon gp))
          first rest in
      match get_profile (grid.id nearest) with
      | None => HTTPException 404
      | Some profile =>
          Ok {| r_grid_point_id := grid.id nearest;
                r_lat := grid.lat nearest;
                r_lon := grid.lon nearest;
                r_poi_summary := profiler.row_poi_summary profile;
                r_geographic_attributes := profiler.row_geo_attrs profile;
                r_audience := profiler.row_audience profile;
                r_sigma_m := config.SIGMA_M;
                r_max_influence_m := config.MAX_INFLUENCE_M |}
      end
  end.

End main.

(* ===================================================================== *)
(** ** Specification vocabulary for a whole run of the retry loop *)
(* ===================================================================== *)

Module retry_spec.
Import collector fetch_spec.

(** A sleep of [w] seconds after lookup number [i] is explained by the
    answer to that lookup: rate-limited and [w = 2^i], or timed out and
    [w = 1]. *)
Definition sleep_explained (svc : service) (i w : nat) : Prop :=
  (rate_limited (svc i) /\ w = (2 ^ i)%nat) \/
  (svc i = TimeoutException /\ w = 1%nat).

(** The outcome [o] is explained by the answer [r] that ended the loop:
    the unit raises exactly when the lookup raised something other than
    a timeout, and hands back the parsed results of an [OK] answer and
    nothing otherwise. *)
Definition outcome_explained (now : string) (inject_type : option string)
    (r : response) (o : outcome) : Prop :=
  (o = Raised <-> r = OtherException) /\
  (forall results, r = HttpResponse 200 "OK" results ->
     o = Returned (map (fun p => _parse_place now p inject_type) results)) /\
  (forall pois, o = Returned pois -> pois <> [] ->
     exists results, r = HttpResponse 200 "OK" results).

End retry_spec.

(*@@DEFS-END@@*)

Local Close Scope string_scope.

(* ===================================================================== *)
(** ** The retry loop of [_fetch_one_tile] *)
(* ===================================================================== *)

Section FetchLoop.
Import collector fetch_spec.

Variable now : string.
Variable inject_type : option string.
Variable svc : service.

Let body := loop_body now inject_type svc.
Let loop fuel := fetch_loop fuel now inject_type svc.

Lemma loop_body_retryable st :
  retryable (svc (attempts st)) ->
  exists wait,
    body st = inr {| retries := S (retries st); attempts := S (attempts st);
                     sleeps := sleeps st ++ [wait] |}.
Proof.
  unfold body, loop_body. intros [[results ->] | ->]; simpl; eauto.
Qed.

Lemma loop_body_rate_limited st :
  rate_limited (svc (attempts st)) ->
  body st = inr {| retries := S (retries st); attempts := S (attempts st);
                   sleeps := sleeps st ++ [2 ^ retries st] |}.
Proof.
  unfold body, loop_body. intros [results ->]. reflexivity.
Qed.

Lemma loop_body_terminal st :
  terminal_failure (svc (attempts st)) ->
  body st = inl (Returned [], {| retries := retries st;
                                 attempts := S (attempts st);
                                 sleeps := sleeps st |}).
Proof.
  unfold body, loop_body.
  intros (code & status & results & -> & Hbad).
  destruct (Z.eqb_spec code 200) as [->|Hcode]; [|reflexivity].
  destruct Hbad as [Hbad | (Hok & Hzero & Hlimit)]; [congruence|].
  apply String.eqb_neq in Hok, Hzero, Hlimit.
  rewrite Hok, Hzero, Hlimit.
  destruct (String.eqb status "REQUEST_DENIED"); reflexivity.
Qed.

(** Every iteration issues exactly one lookup and never lowers
    [retries]; an iteration that goes round again raises it by one. *)
Lemma loop_body_inr st st' :
  body st = inr st' ->
  retries st' = S (retries st) /\ attempts st' = S (attempts st).
Proof.
  unfold body, loop_body.
  destruct (svc (attempts st)) as [code status results| |];
    repeat (match goal with |- context [if ?b then _ else _] => destruct b end);
    intros [= <-]; auto.
Qed.

Lemma loop_body_inl st o st' :
  body st = inl (o, st') ->
  retries st' = retries st /\ attempts st' = S (attempts st) /\
  sleeps st' = sleeps st.
Proof.
  unfold body, loop_body.
  destruct (svc (attempts st)) as [code status results| |];
    repeat (match goal with |- context [if ?b then _ else _] => destruct b end);
    intros [= <- <-]; auto.
Qed.

(** Termination with a bound: with fuel for the iterations that are left
    in the budget the loop returns, having issued no more lookups than
    that. *)
Lemma fetch_loop_terminates fuel st :
  S config.COLLECTOR_RETRY_MAX - retries st <= fuel ->
  exists o st',
    loop fuel st = Some (o, st') /\
    attempts st' - attempts st <= S config.COLLECTOR_RETRY_MAX - retries st /\
    retries st' <= Nat.max (retries st) (S config.COLLECTOR_RETRY_MAX).
Proof.
  unfold loop. revert st.
  induction fuel as [|fuel IH]; intros st Hfuel; simpl;
    destruct (Nat.leb_spec (retries st) config.COLLECTOR_RETRY_MAX) as [Hle|Hgt].
  - lia.
  - exists (Returned []), st. split; [reflexivity|lia].
  - destruct (loop_body now inject_type svc st) as [[o st']|st'] eqn:Hbody.
    + apply loop_body_inl in Hbody as (Hr & Ha & _).
      exists o, st'. split; [reflexivity|lia].
    + apply loop_body_inr in Hbody as (Hr & Ha).
      destruct (IH st') as (o & st'' & Hrun & Hatt & Hret); [lia|].
      exists o, st''. split; [exact Hrun|lia].
  - exists (Returned []), st. split; [reflexivity|lia].
Qed.

(** More fuel does not change a result. *)
Lemma fetch_loop_fuel_mono fuel fuel' st res :
  fuel <= fuel' -> loop fuel st = Some res -> loop fuel' st = Some res.
Proof.
  unfold loop. revert fuel' st.
  induction fuel as [|fuel IH]; intros fuel' st Hle; simpl.
  - destruct fuel'; simpl;
      destruct (retries st <=? config.COLLECTOR_RETRY_MAX); congruence.
  - destruct fuel' as [|fuel']; [lia|]. simpl.
    destruct (retries st <=? config.COLLECTOR_RETRY_MAX); [|congruence].
    destruct (loop_body now inject_type svc st); [congruence|].
    apply IH. lia.
Qed.

(** [k] retryable answers in a row, inside the budget, take the loop
    from [st] to a state [k] retries and [k] lookups further on. *)
Lemma fetch_loop_skip_retryable k : forall fuel st,
  retries st + k <= S config.COLLECTOR_RETRY_MAX ->
  (forall i, i < k -> retryable (svc (attempts st + i))) ->
  exists waits,
    length waits = k /\
    loop (k + fuel) st =
      loop fuel {| retries := retries st + k; attempts := attempts st + k;
                   sleeps := sleeps st ++ waits |} /\
    ((forall i, i < k -> rate_limited (svc (attempts st + i))) ->
     waits = map (Nat.pow 2) (seq (retries st) k)).
Proof.
  unfold loop.
  induction k as [|k IH]; intros fuel st Hbudget Hsvc.
  - exists []. rewrite !Nat.add_0_r, app_nil_r. destruct st; auto.
  - simpl.
    destruct (Nat.leb_spec (retries st) config.COLLECTOR_RETRY_MAX); [|lia].
    pose proof (Hsvc 0 ltac:(lia)) as H0. rewrite Nat.add_0_r in H0.
    destruct (loop_body_retryable st H0) as [wait Hbody].
    unfold body in Hbody. rewrite Hbody.
    set (st1 := {| retries := S (retries st); attempts := S (attempts st);
                   sleeps := sleeps st ++ [wait] |}).
    destruct (IH fuel st1) as (waits & Hlen & Hrun & Hpow).
    { simpl. lia. }
    { intros i Hi. simpl. replace (S (attempts st + i)) with (attempts st + S i) by lia.
      apply Hsvc. lia. }
    exists (wait :: waits). split; [simpl; lia|]. split.
    + rewrite Hrun. simpl. f_equal. f_equal; try lia.
      rewrite <- app_assoc. reflexivity.
    + intros Hrl. simpl. f_equal.
      * pose proof (Hrl 0 ltac:(lia)) as Hr0. rewrite Nat.add_0_r in Hr0.
        pose proof (loop_body_rate_limited st Hr0) as Hb2.
        unfold body in Hb2. rewrite Hbody in Hb2. injection Hb2 as Hb2.
        apply app_inj_tail in Hb2. tauto.
      * apply Hpow. intros i Hi. simpl.
        replace (S (attempts st + i)) with (attempts st + S i) by lia.
        apply Hrl. lia.
Qed.

End FetchLoop.

Section FetchOneTile.
Import collector fetch_spec.

Lemma backoff_sum_closed k : backoff_sum k = 2 ^ k - 1.
Proof.
  unfold backoff_sum.
  assert (H : forall n a, fold_right Nat.add 0 (map (Nat.pow 2) (seq a n))
                          = 2 ^ a * (2 ^ n - 1)).
  { induction n as [|n IH]; intros a; simpl seq; simpl map; simpl fold_right.
    - simpl. lia.
    - rewrite IH. rewrite !Nat.pow_succ_r'.
      pose proof (Nat.pow_nonzero 2 n ltac:(lia)).
      pose proof (Nat.pow_nonzero 2 a ltac:(lia)). nia. }
  rewrite H. simpl. lia.
Qed.

(** C6: a unit that is rate-limited [k] times in a row, [k] within the
    retry budget [COLLECTOR_RETRY_MAX], and then answered [OK], returns the
    parsed results of that answer; it has slept [2^i] seconds after the
    [i]-th rate-limited attempt, [2^0 + ... + 2^(k-1)] seconds in all, and
    each of the [k] retries has been counted in [retries]. *)
Theorem fetch_rate_limited_then_ok
    (now : string) (svc : service) (keyword : option string)
    (k fuel : nat) (results : list place.t) :
  k <= config.COLLECTOR_RETRY_MAX ->
  (forall i, i < k -> rate_limited (svc i)) ->
  svc k = HttpResponse 200 "OK" results ->
  S k <= fuel ->
  exists st,
    _fetch_one_tile fuel now svc keyword =
      Some (Returned (map (fun p => _parse_place now p (inject_type_of keyword))
                        results), st) /\
    sleeps st = map (Nat.pow 2) (seq 0 k) /\
    total_backoff st = backoff_sum k /\
    total_backoff st = 2 ^ k - 1 /\
    retries st = k /\
    attempts st = S k.
Proof.
  intros Hk Hlimited Hok Hfuel.
  unfold _fetch_one_tile.
  destruct (fetch_loop_skip_retryable now (inject_type_of keyword) svc k 1
              initial_state) as (waits & Hlen & Hrun & Hpow).
  { simpl. lia. }
  { intros i Hi. left. apply Hlimited, Hi. }
  specialize (Hpow Hlimited). simpl in Hpow, Hrun. subst waits.
  set (st := {| retries := k; attempts := S k;
                sleeps := map (Nat.pow 2) (seq 0 k) |}).
  exists st.
  assert (Hsum : total_backoff st = backoff_sum k) by reflexivity.
  split; [|repeat split; auto; rewrite Hsum; apply backoff_sum_closed].
  apply fetch_loop_fuel_mono with (fuel := k + 1); [lia|].
  rewrite Hrun. simpl.
  destruct (Nat.leb_spec k config.COLLECTOR_RETRY_MAX); [|lia].
  unfold loop_body. simpl. rewrite Hok. reflexivity.
Qed.

(** Witness for C6: two rate-limited answers, then [OK] with no results. *)
Lemma fetch_rate_limited_then_ok_witness :
  exists st,
    _fetch_one_tile 3 "t"
      (fun n => if n <? 2 then HttpResponse 200 "OVER_QUERY_LIMIT" []
                else HttpResponse 200 "OK" []) None
    = Some (Returned [], st) /\ total_backoff st = 3.
Proof.
  destruct (fetch_rate_limited_then_ok "t"
              (fun n => if n <? 2 then HttpResponse 200 "OVER_QUERY_LIMIT" []
                        else HttpResponse 200 "OK" []) None 2 3 [])
    as (st & Hrun & _ & _ & Hsum & _).
  - unfold config.COLLECTOR_RETRY_MAX. lia.
  - intros i Hi. exists []. destruct (Nat.ltb_spec i 2); [reflexivity|lia].
  - reflexivity.
  - lia.
  - exists st. split; [exact Hrun|exact Hsum].
Defined.

(** C7: a unit whose lookups fail terminally returns the empty list and
    does not raise.  After [k] retried attempts (rate-limited or timed
    out), a permanently denied answer, an unrecognized status or a
    non-200 HTTP answer ends the unit at once: [k + 1] lookups were
    issued and no further sleep was taken.  When the retried attempts use
    up the whole budget the unit returns the empty list as well. *)
Theorem fetch_terminal_failure_returns_empty
    (now : string) (svc : service) (keyword : option string) (k fuel : nat) :
  (forall i, i < k -> retryable (svc i)) ->
  S config.COLLECTOR_RETRY_MAX <= fuel ->
  (k <= config.COLLECTOR_RETRY_MAX -> terminal_failure (svc k) ->
   exists st,
     _fetch_one_tile fuel now svc keyword = Some (Returned [], st) /\
     attempts st = S k /\ length (sleeps st) = k) /\
  (k = S config.COLLECTOR_RETRY_MAX ->
   exists st,
     _fetch_one_tile fuel now svc keyword = Some (Returned [], st) /\
     attempts st = k).
Proof.
  intros Hretry Hfuel. unfold _fetch_one_tile. split.
  - intros Hk Hterm.
    destruct (fetch_loop_skip_retryable now (inject_type_of keyword) svc k 1
                initial_state) as (waits & Hlen & Hrun & _);
      [simpl; lia | exact Hretry |].
    simpl in Hrun.
    exists {| retries := k; attempts := S k; sleeps := waits |}.
    split; [|auto].
    apply fetch_loop_fuel_mono with (fuel := k + 1); [lia|].
    rewrite Hrun. simpl.
    destruct (Nat.leb_spec k config.COLLECTOR_RETRY_MAX); [|lia].
    rewrite (loop_body_terminal now (inject_type_of keyword) svc
               {| retries := k; attempts := k; sleeps := waits |} Hterm).
    reflexivity.
  - intros ->.
    destruct (fetch_loop_skip_retryable now (inject_type_of keyword) svc
                (S config.COLLECTOR_RETRY_MAX) 0 initial_state)
      as (waits & Hlen & Hrun & _); [simpl; lia | exact Hretry |].
    exists {| retries := S config.COLLECTOR_RETRY_MAX;
              attempts := S config.COLLECTOR_RETRY_MAX; sleeps := waits |}.
    split; [|reflexivity].
    apply fetch_loop_fuel_mono with (fuel := S config.COLLECTOR_RETRY_MAX + 0);
      [lia|].
    rewrite Hrun. reflexivity.
Qed.

(** Witness for C7: one timeout, then [REQUEST_DENIED]. *)
Lemma fetch_terminal_failure_returns_empty_witness :
  exists st,
    _fetch_one_tile 4 "t"
      (fun n => if n <? 1 then TimeoutException
                else HttpResponse 200 "REQUEST_DENIED" []) None
    = Some (Returned [], st) /\ attempts st = 2.
Proof.
  destruct (fetch_terminal_failure_returns_empty "t"
              (fun n => if n <? 1 then TimeoutException
                        else HttpResponse 200 "REQUEST_DENIED" []) None 1 4)
    as [Hdenied _].
  - intros i Hi. right. destruct (Nat.ltb_spec i 1); [reflexivity|lia].
  - unfold config.COLLECTOR_RETRY_MAX. lia.
  - destruct Hdenied as (st & Hrun & Hatt & _).
    + unfold config.COLLECTOR_RETRY_MAX. lia.
    + exists 200%Z, "REQUEST_DENIED"%string, []. split; [reflexivity|].
      right. repeat split; discriminate.
    + exists st. split; [exact Hrun|exact Hatt].
Defined.

(** C8, as stated, fails: with [COLLECTOR_RETRY_MAX = 3] a unit whose
    lookups all time out issues four lookups, one more than the
    constant. *)
Lemma fetch_attempts_exceed_retry_max :
  exists st,
    _fetch_one_tile 4 "t" (fun _ => TimeoutException) None
      = Some (Returned [], st) /\
    attempts st = 4 /\
    ~ attempts st <= config.COLLECTOR_RETRY_MAX.
Proof.
  eexists. split; [reflexivity|]. simpl. unfold config.COLLECTOR_RETRY_MAX.
  split; lia.
Qed.

(** C8, amended: for every service the retry loop terminates (any fuel of
    at least [COLLECTOR_RETRY_MAX + 1] iterations gives a result, and the
    same one), and the unit issues at most [COLLECTOR_RETRY_MAX + 1]
    lookups: the first one and at most [COLLECTOR_RETRY_MAX] retries. *)
Theorem fetch_terminates_within_budget
    (now : string) (svc : service) (keyword : option string) (fuel : nat) :
  S config.COLLECTOR_RETRY_MAX <= fuel ->
  exists o st,
    _fetch_one_tile fuel now svc keyword = Some (o, st) /\
    _fetch_one_tile (S config.COLLECTOR_RETRY_MAX) now svc keyword = Some (o, st) /\
    attempts st <= S config.COLLECTOR_RETRY_MAX /\
    retries st <= S config.COLLECTOR_RETRY_MAX.
Proof.
  intros Hfuel. unfold _fetch_one_tile.
  destruct (fetch_loop_terminates now (inject_type_of keyword) svc
              (S config.COLLECTOR_RETRY_MAX) initial_state)
    as (o & st & Hrun & Hatt & Hret); [simpl; lia|].
  exists o, st. simpl in Hatt, Hret.
  split; [|split; [exact Hrun | lia]].
  eapply fetch_loop_fuel_mono; [|exact Hrun]. exact Hfuel.
Qed.

Lemma fetch_terminates_within_budget_witness :
  exists o st,
    _fetch_one_tile 7 "t" (fun _ => TimeoutException) None = Some (o, st) /\
    attempts st <= 4.
Proof.
  destruct (fetch_terminates_within_budget "t" (fun _ => TimeoutException)
              None 7) as (o & st & Hrun & _ & Hatt & _).
  - unfold config.COLLECTOR_RETRY_MAX. lia.
  - exists o, st. split; [exact Hrun|exact Hatt].
Defined.

End FetchOneTile.

(* ===================================================================== *)
(** ** The merge of [collect_pois] *)
(* ===================================================================== *)

Section Merge.
Import collector.

Lemma merge_results_concat (results : list (list POI.t)) (m : gmap string POI.t) :
  merge_results m results = fold_left merge_poi (concat results) m.
Proof.
  unfold merge_results. revert m.
  induction results as [|batch results IH]; intros m; simpl; [reflexivity|].
  rewrite fold_left_app. apply IH.
Qed.

Lemma collect_merge_concat (rounds : list (list (list POI.t))) :
  collect_merge rounds = fold_left merge_poi (concat (concat rounds)) ∅.
Proof.
  unfold collect_merge. generalize (∅ : gmap string POI.t).
  induction rounds as [|results rounds IH]; intros m; simpl; [reflexivity|].
  rewrite IH, merge_results_concat, concat_app, fold_left_app. reflexivity.
Qed.

Lemma truthy_nonempty (s : string) : truthy s = true <-> s <> EmptyString.
Proof. destruct s; simpl; split; congruence. Qed.

Lemma fold_merge_lookup (l : list POI.t) (m : gmap string POI.t) (id : string) :
  fold_left merge_poi l m !! id =
    match last_arrival id l with
    | Some p => Some p
    | None => m !! id
    end.
Proof.
  unfold last_arrival.
  induction l as [|p l IH] using rev_ind.
  - simpl. destruct (truthy id); reflexivity.
  - rewrite fold_left_app, filter_app. simpl. unfold merge_poi at 1.
    rewrite filter_cons, filter_nil.
    destruct (truthy (POI.place_id p)) eqn:Hp.
    + rewrite lookup_insert. destruct (decide (POI.place_id p = id)) as [Heq|Hne].
      * rewrite <- Heq, Hp, last_snoc. reflexivity.
      * rewrite app_nil_r. exact IH.
    + destruct (decide (POI.place_id p = id)) as [Heq|Hne].
      * rewrite <- Heq, Hp in *. exact IH.
      * rewrite app_nil_r. exact IH.
Qed.

Lemma fold_merge_dom (l : list POI.t) (m : gmap string POI.t) :
  dom (fold_left merge_poi l m) =
    dom m ∪ list_to_set (filter (λ s, truthy s = true) (POI.place_id <$> l)).
Proof.
  revert m. induction l as [|p l IH]; intros m; simpl.
  - set_solver.
  - rewrite IH. unfold merge_poi. rewrite filter_cons.
    destruct (truthy (POI.place_id p)) eqn:Hp.
    + rewrite decide_True by reflexivity. rewrite dom_insert_L. set_solver.
    + rewrite decide_False by congruence. reflexivity.
Qed.

(** C10: folding any sequence of fetched batches into the merged set
    gives a map that holds, under every non-empty [place_id] that
    arrived, the whole record that arrived last with that id, and nothing
    under the empty id or under an id that never arrived; hence one entry
    per distinct non-empty id, however often it arrived.  A parsed
    result whose [place_id] is missing or empty leaves the map as it is. *)
Theorem collect_merge_last_writer_wins (rounds : list (list (list POI.t))) :
  let arrivals := concat (concat rounds) in
  (forall id, collect_merge rounds !! id =
                if truthy id
                then last (filter (λ p, POI.place_id p = id) arrivals)
                else None) /\
  dom (collect_merge rounds) =
    list_to_set (filter (λ s, truthy s = true) (POI.place_id <$> arrivals)) /\
  size (collect_merge rounds) =
    length (remove_dups (filter (λ s, truthy s = true)
                           (POI.place_id <$> arrivals))) /\
  collect_merge rounds !! EmptyString = None /\
  (forall now result inject_type all_pois,
      default EmptyString (place.place_id result) = EmptyString ->
      merge_poi all_pois (_parse_place now result inject_type) = all_pois).
Proof.
  intros arrivals. rewrite collect_merge_concat. fold arrivals.
  assert (Hlookup : forall id, fold_left merge_poi arrivals ∅ !! id =
                               last_arrival id arrivals).
  { intros id. rewrite fold_merge_lookup, lookup_empty.
    destruct (last_arrival id arrivals); reflexivity. }
  assert (Hdom : dom (fold_left merge_poi arrivals ∅) =
                 list_to_set (filter (λ s, truthy s = true)
                                (POI.place_id <$> arrivals))).
  { rewrite fold_merge_dom, dom_empty_L. set_solver. }
  repeat split.
  - exact Hlookup.
  - exact Hdom.
  - rewrite <- size_dom, Hdom.
    set (ids := filter (λ s, truthy s = true) (POI.place_id <$> arrivals)).
    assert (Hset : (list_to_set ids : gset string) = list_to_set (remove_dups ids)).
    { apply set_eq. intros x. rewrite !elem_of_list_to_set, elem_of_remove_dups.
      reflexivity. }
    rewrite Hset. apply size_list_to_set, NoDup_remove_dups.
  - rewrite Hlookup. reflexivity.
  - intros now result inject_type all_pois Hid.
    unfold merge_poi, _parse_place. cbn [POI.place_id]. rewrite Hid. reflexivity.
Qed.

End Merge.

(* ===================================================================== *)
(** ** [compute_profile] on the empty list *)
(* ===================================================================== *)

Section EmptyProfile.
Import profiler.
Local Open Scope R_scope.

Lemma normalize_nil : normalize [] = [].
Proof. unfold normalize. destruct (Req_dec_T _ _); reflexivity. Qed.

(** C5: for every grid point, the profile of the empty POI list has
    confidence 0, footfall proxy 0, every age bucket and every interest
    category present with value 0.0, no geographic attribute and no
    nearest POI. *)
Theorem compute_profile_empty (gp : grid.GridPoint) :
  let p := compute_profile gp [] in
  confidence (audience p) = 0 /\
  footfall_proxy (audience p) = 0 /\
  age_profile (audience p) = map (fun b => (b, 0)) config.AGE_BUCKETS /\
  interests (audience p) = map (fun c => (c, 0)) config.INTEREST_CATEGORIES /\
  geographic_attributes p = [] /\
  nearest (poi_summary p) = [] /\
  counts (poi_summary p) = [].
Proof.
  unfold compute_profile. simpl.
  rewrite normalize_nil.
  destruct (Rlt_dec 0 0) as [H|_]; [lra|].
  repeat split; reflexivity.
Qed.

End EmptyProfile.

(* ===================================================================== *)
(** ** Rounding *)
(* ===================================================================== *)

Section Rounding.
Local Open Scope R_scope.

Lemma Rabs_le_bounds (a b : R) : Rabs a <= b -> - b <= a <= b.
Proof. unfold Rabs. destruct (Rcase_abs a); lra. Qed.

Lemma round_half_even_bounds (x : R) :
  (Zfloor x <= round_half_even x <= Zfloor x + 1)%Z.
Proof.
  unfold round_half_even.
  destruct (Rlt_dec _ _); [lia|].
  destruct (Rlt_dec _ _); [lia|].
  destruct (Z.even _); lia.
Qed.

(** The rounded value is within one half of the argument. *)
Lemma round_half_even_error (x : R) :
  Rabs (IZR (round_half_even x) - x) <= 1 / 2.
Proof.
  pose proof (Zfloor_bound x) as [Hlo Hhi].
  unfold round_half_even.
  destruct (Rlt_dec (x - IZR (Zfloor x)) (1 / 2)) as [Hlt|Hge].
  { apply Rabs_le. lra. }
  destruct (Rlt_dec (1 / 2) (x - IZR (Zfloor x))) as [Hgt|Hle].
  { rewrite plus_IZR. apply Rabs_le. lra. }
  destruct (Z.even (Zfloor x)); [|rewrite plus_IZR]; apply Rabs_le; lra.
Qed.

Lemma round_half_even_mono (x y : R) :
  x <= y -> (round_half_even x <= round_half_even y)%Z.
Proof.
  intros Hxy.
  pose proof (Zfloor_le x y Hxy) as Hfl.
  destruct (Z.eq_dec (Zfloor x) (Zfloor y)) as [Heq|Hne].
  - unfold round_half_even. rewrite Heq.
    destruct (Rlt_dec (x - IZR (Zfloor y)) (1 / 2));
      destruct (Rlt_dec (y - IZR (Zfloor y)) (1 / 2)); try lia; try lra;
      destruct (Rlt_dec (1 / 2) (x - IZR (Zfloor y)));
      destruct (Rlt_dec (1 / 2) (y - IZR (Zfloor y))); try lia; try lra;
      destruct (Z.even (Zfloor y)); lia.
  - pose proof (round_half_even_bounds x). pose proof (round_half_even_bounds y).
    lia.
Qed.

Lemma round_half_even_IZR (z : Z) : round_half_even (IZR z) = z.
Proof.
  unfold round_half_even. rewrite ZfloorZ.
  destruct (Rlt_dec _ _) as [_|H]; [reflexivity|lra].
Qed.

Lemma pow10_pos (n : nat) : 0 < 10 ^ n.
Proof. apply pow_lt. lra. Qed.

Lemma py_round_mono (x y : R) (n : nat) :
  x <= y -> py_round x n <= py_round y n.
Proof.
  intros Hxy. unfold py_round. pose proof (pow10_pos n) as Hp.
  apply Rmult_le_compat_r; [left; apply Rinv_0_lt_compat, Hp|].
  apply IZR_le, round_half_even_mono. nra.
Qed.

Lemma py_round_error (x : R) (n : nat) :
  Rabs (py_round x n - x) <= (1 / 2) / 10 ^ n.
Proof.
  unfold py_round. pose proof (pow10_pos n) as Hp.
  pose proof (round_half_even_error (x * 10 ^ n)) as Herr.
  replace (IZR (round_half_even (x * 10 ^ n)) / 10 ^ n - x)
    with ((IZR (round_half_even (x * 10 ^ n)) - x * 10 ^ n) / 10 ^ n)
    by (field; lra).
  unfold Rdiv at 1. rewrite Rabs_mult.
  rewrite (Rabs_pos_eq (/ 10 ^ n)) by (left; apply Rinv_0_lt_compat, Hp).
  apply Rmult_le_compat_r; [left; apply Rinv_0_lt_compat, Hp | exact Herr].
Qed.

Lemma py_round_IZR (z : Z) (n : nat) : py_round (IZR z) n = IZR z.
Proof.
  unfold py_round. pose proof (pow10_pos n) as Hp.
  rewrite (pow_IZR 10 n), <- mult_IZR, round_half_even_IZR, mult_IZR.
  rewrite <- pow_IZR. field. lra.
Qed.

(** A value below half a unit of the last place rounds to zero. *)
Lemma py_round_small (x : R) (n : nat) :
  0 <= x -> x * 10 ^ n < 1 / 2 -> py_round x n = 0.
Proof.
  intros H0 Hsmall. unfold py_round. pose proof (pow10_pos n) as Hp.
  assert (Hfl : Zfloor (x * 10 ^ n) = 0%Z).
  { apply Zfloor_eq. simpl. nra. }
  unfold round_half_even. rewrite Hfl.
  destruct (Rlt_dec _ _) as [_|H]; [|simpl in H; lra].
  unfold Rdiv. simpl. lra.
Qed.

End Rounding.

(* ===================================================================== *)
(** ** Association-list dictionaries *)
(* ===================================================================== *)

Section PyDict.
Context {V : Type}.
Implicit Types (d : pydict.dict V) (k : string) (v : V).

Lemma get_setitem_eq d k v : pydict.get (pydict.setitem d k v) k = Some v.
Proof.
  induction d as [|[k' v'] d IH]; simpl.
  - rewrite String.eqb_refl. reflexivity.
  - destruct (String.eqb k' k) eqn:E; simpl; rewrite E; auto.
Qed.

Lemma get_setitem_ne d k k' v :
  k <> k' -> pydict.get (pydict.setitem d k v) k' = pydict.get d k'.
Proof.
  intros Hne. induction d as [|[k0 v0] d IH]; simpl.
  - apply String.eqb_neq in Hne. rewrite Hne. reflexivity.
  - destruct (String.eqb k0 k) eqn:E; simpl.
    + apply String.eqb_eq in E. subst k0.
      apply String.eqb_neq in Hne. rewrite Hne. reflexivity.
    + rewrite IH. reflexivity.
Qed.

Lemma get_None_keys d k : pydict.get d k = None <-> ~ In k (pydict.keys d).
Proof.
  induction d as [|[k' v'] d IH]; simpl; [tauto|].
  destruct (String.eqb_spec k' k) as [->|Hne].
  - split; [discriminate | tauto].
  - rewrite IH. tauto.
Qed.

Lemma keys_setitem_in d k v :
  In k (pydict.keys d) -> pydict.keys (pydict.setitem d k v) = pydict.keys d.
Proof.
  induction d as [|[k' v'] d IH]; simpl; [tauto|].
  destruct (String.eqb_spec k' k) as [->|Hne]; [reflexivity|].
  intros [Heq|Hin]; [congruence|]. simpl. f_equal. apply IH, Hin.
Qed.

Lemma keys_setitem_notin d k v :
  ~ In k (pydict.keys d) ->
  pydict.keys (pydict.setitem d k v) = pydict.keys d ++ [k].
Proof.
  induction d as [|[k' v'] d IH]; simpl; [reflexivity|].
  destruct (String.eqb_spec k' k) as [->|Hne]; [tauto|].
  intros Hnin. simpl. f_equal. apply IH. tauto.
Qed.

Lemma keys_setitem_incl d k v x :
  In x (pydict.keys (pydict.setitem d k v)) <-> In x (pydict.keys d) \/ x = k.
Proof.
  destruct (in_dec string_dec k (pydict.keys d)) as [Hin|Hnin].
  - rewrite keys_setitem_in by exact Hin. split; [tauto|].
    intros [H| ->]; assumption.
  - rewrite keys_setitem_notin by exact Hnin. rewrite in_app_iff. simpl.
    split; intros [H|H]; auto; destruct H; auto; contradiction.
Qed.

Lemma keys_setitem_NoDup d k v :
  NoDup (pydict.keys d) -> NoDup (pydict.keys (pydict.setitem d k v)).
Proof.
  intros Hnd.
  destruct (in_dec string_dec k (pydict.keys d)) as [Hin|Hnin].
  - rewrite keys_setitem_in by exact Hin. exact Hnd.
  - rewrite keys_setitem_notin by exact Hnin.
    apply (proj2 (NoDup_app _ _)); repeat split.
    + exact Hnd.
    + intros x Hx Hx'. apply list_elem_of_In in Hx.
      apply list_elem_of_In in Hx'. simpl in Hx'.
      destruct Hx' as [<-|[]]. contradiction.
    + apply NoDup_singleton.
Qed.

End PyDict.

(* ===================================================================== *)
(** ** The POI summary of [compute_profile] *)
(* ===================================================================== *)

Section Summary.
Import profiler summary_spec.
Local Open Scope R_scope.

Lemma insert_by_distance_perm x l : insert_by_distance x l ≡ₚ x :: l.
Proof.
  induction l as [|y l IH]; simpl; [reflexivity|].
  destruct (Rle_dec (snd x) (snd y)); [reflexivity|].
  rewrite IH. apply Permutation_swap.
Qed.

Lemma sort_by_distance_perm l : sort_by_distance l ≡ₚ l.
Proof.
  induction l as [|x l IH]; simpl; [reflexivity|].
  rewrite insert_by_distance_perm, IH. reflexivity.
Qed.

Lemma insert_by_distance_sorted x l :
  StronglySorted by_distance l -> StronglySorted by_distance (insert_by_distance x l).
Proof.
  induction 1 as [|y l Hsorted IH Hall]; simpl.
  - repeat constructor.
  - destruct (Rle_dec (snd x) (snd y)) as [Hle|Hgt].
    + constructor; [constructor; assumption|].
      constructor; [exact Hle|].
      eapply Forall_impl; [exact Hall|]. unfold by_distance. intros z Hz. lra.
    + constructor; [exact IH|].
      rewrite insert_by_distance_perm. constructor; [|exact Hall].
      unfold by_distance. lra.
Qed.

Lemma sort_by_distance_sorted l : StronglySorted by_distance (sort_by_distance l).
Proof.
  induction l as [|x l IH]; simpl; [constructor|].
  apply insert_by_distance_sorted, IH.
Qed.

Lemma in_firstn_incl {A} n (l : list A) x : In x (firstn n l) -> In x l.
Proof.
  intros H. rewrite <- (firstn_skipn n l). apply in_or_app. left. exact H.
Qed.

Lemma in_skipn_incl {A} n (l : list A) x : In x (skipn n l) -> In x l.
Proof.
  intros H. rewrite <- (firstn_skipn n l). apply in_or_app. right. exact H.
Qed.

(** In a sorted list nothing in a prefix is farther than anything
    behind it. *)
Lemma sorted_prefix_closest n l :
  StronglySorted by_distance l ->
  forall x y, In x (firstn n l) -> In y (skipn n l) -> by_distance x y.
Proof.
  intros Hsorted. revert n.
  induction Hsorted as [|z l Hsorted IH Hall]; intros n x y Hx Hy.
  - rewrite firstn_nil in Hx. destruct Hx.
  - destruct n as [|n]; simpl in Hx, Hy; [destruct Hx|].
    destruct Hx as [<-|Hx].
    + rewrite Forall_forall in Hall. apply Hall.
      apply list_elem_of_In. eapply in_skipn_incl. exact Hy.
    + eapply IH; eassumption.
Qed.

Lemma sorted_firstn n l :
  StronglySorted by_distance l -> StronglySorted by_distance (firstn n l).
Proof.
  intros Hsorted. revert n.
  induction Hsorted as [|z l Hsorted IH Hall]; intros [|n]; simpl;
    try constructor; [apply IH|].
  rewrite Forall_forall in *. intros x Hx. apply Hall.
  apply list_elem_of_In. apply list_elem_of_In in Hx.
  eapply in_firstn_incl. exact Hx.
Qed.

Lemma nearest_sorted l :
  StronglySorted by_distance l ->
  StronglySorted (fun a b => ne_distance_m a <= ne_distance_m b)
    (map nearest_of l).
Proof.
  induction 1 as [|z l Hsorted IH Hall]; simpl; constructor; [exact IH|].
  rewrite Forall_forall in Hall. apply Forall_forall. intros e He.
  apply list_elem_of_In, in_map_iff in He. destruct He as (x & <- & Hx).
  simpl. apply py_round_mono. apply Hall, list_elem_of_In, Hx.
Qed.

(** The member of the importance table a POI is weighted under is never
    the empty string, so the truthiness tests on it always pass. *)
Lemma _primary_type_truthy types t :
  _primary_type types = Some t -> truthy t = true.
Proof.
  unfold _primary_type. intros Hfind.
  apply find_some in Hfind as [_ Hmem].
  unfold pydict.mem in Hmem.
  destruct t; [|reflexivity]. discriminate Hmem.
Qed.

Lemma weighting_type_primary types : weighting_type types = _primary_type types.
Proof.
  unfold weighting_type. destruct (_primary_type types) as [t|] eqn:E; [|reflexivity].
  rewrite (_primary_type_truthy _ _ E). reflexivity.
Qed.

Lemma count_step_get counts x t :
  count_in (count_step counts x) t =
    (count_in counts t + tally weighting_type [x] t)%nat.
Proof.
  unfold count_step, tally, count_in. rewrite filter_cons, filter_nil.
  destruct (weighting_type (POI.types (fst x))) as [ptype|] eqn:E.
  - unfold pydict.add_to.
    destruct (string_dec ptype t) as [->|Hne].
    + rewrite get_setitem_eq, decide_True by reflexivity.
      destruct (pydict.get counts t); simpl; lia.
    + rewrite get_setitem_ne, decide_False by congruence. simpl. lia.
  - rewrite decide_False by discriminate. simpl. lia.
Qed.

Lemma tally_app resolve l1 l2 t :
  tally resolve (l1 ++ l2) t = (tally resolve l1 t + tally resolve l2 t)%nat.
Proof. unfold tally. rewrite filter_app, length_app. reflexivity. Qed.

Lemma fold_count_step l : forall counts t,
  count_in (fold_left count_step l counts) t =
    (count_in counts t + tally weighting_type l t)%nat.
Proof.
  induction l as [|x l IH]; intros counts t; simpl.
  - unfold tally. simpl. lia.
  - rewrite IH, count_step_get.
    change (x :: l) with ([x] ++ l). rewrite tally_app. lia.
Qed.

Lemma tally_perm resolve l1 l2 t :
  l1 ≡ₚ l2 -> tally resolve l1 t = tally resolve l2 t.
Proof. intros Hp. unfold tally. rewrite Hp. reflexivity. Qed.

(** A key is in [counts] only with a positive count. *)
Lemma fold_count_step_keys l : forall counts,
  (forall t, In t (pydict.keys counts) -> (0 < count_in counts t)%nat) ->
  forall t, In t (pydict.keys (fold_left count_step l counts)) ->
            (0 < count_in (fold_left count_step l counts) t)%nat.
Proof.
  induction l as [|x l IH]; intros counts Hpos; simpl; [exact Hpos|].
  apply IH. intros t Hin.
  rewrite count_step_get. unfold count_step in Hin.
  destruct (weighting_type (POI.types (fst x))) as [ptype|] eqn:E.
  - unfold pydict.add_to in Hin. apply keys_setitem_incl in Hin.
    destruct Hin as [Hin| ->].
    + specialize (Hpos t Hin). lia.
    + unfold tally. rewrite filter_cons, filter_nil, decide_True by exact E.
      simpl. lia.
  - specialize (Hpos t Hin). lia.
Qed.

End Summary.

Section SummaryClaims.
Import profiler summary_spec.
Local Open Scope R_scope.

(** C4, as stated, fails for the counts: a POI five meters away whose
    only tag, ["cafe"], is not in the importance table is listed in
    [nearest] under the category ["cafe"], yet [counts] stays empty, so
    the tally by displayed category is 1 where [counts] has 0. *)
Lemma counts_omit_untabled_category :
  let gp := grid.mk_GridPoint "g_0_0" 0 0 (28408 / 1000) (77041 / 1000) in
  let cafe := POI.mk "p1" "Cafe" (28408 / 1000) (77041 / 1000) ["cafe"%string]
                None None "" "" in
  let pois := [(cafe, 5)] in
  let s := poi_summary (compute_profile gp pois) in
  map ne_type (nearest s) = ["cafe"%string] /\
  tally displayed_category pois "cafe" = 1%nat /\
  counts s = [] /\
  count_in (counts s) "cafe" <> tally displayed_category pois "cafe".
Proof.
  simpl. repeat split; try reflexivity. discriminate.
Qed.

(** C4, amended: [nearest] has at most 10 entries (as many as there are
    POIs, up to 10), ascending by distance, and they are the closest
    POIs: the input splits into the listed POIs and the rest, none of
    the rest closer than a listed one.  [counts] ranges over the whole
    input, not only the listed POIs: under each category it holds the
    number of POIs whose first tag of the importance table is that
    category, and it has exactly the categories with a positive number;
    a POI with no tag of the importance table is not counted. *)
Theorem compute_profile_summary (gp : grid.GridPoint) (pois : list (POI.t * R)) :
  let s := poi_summary (compute_profile gp pois) in
  length (nearest s) = Nat.min 10 (length pois) /\
  (length (nearest s) <= 10)%nat /\
  StronglySorted (fun a b => ne_distance_m a <= ne_distance_m b) (nearest s) /\
  (exists near far,
      pois ≡ₚ near ++ far /\
      nearest s = map nearest_of near /\
      StronglySorted by_distance near /\
      forall x y, In x near -> In y far -> by_distance x y) /\
  (forall t, count_in (counts s) t = tally _primary_type pois t) /\
  (forall t, In t (pydict.keys (counts s)) <-> (0 < tally _primary_type pois t)%nat).
Proof.
  unfold compute_profile. simpl.
  set (sorted := sort_by_distance pois).
  pose proof (sort_by_distance_perm pois) as Hperm. fold sorted in Hperm.
  pose proof (sort_by_distance_sorted pois) as Hsorted. fold sorted in Hsorted.
  assert (Hlen : length (map nearest_of (firstn 10 sorted)) = Nat.min 10 (length pois)).
  { rewrite length_map, length_firstn, (Permutation_length Hperm). reflexivity. }
  assert (Htally : forall t, tally weighting_type sorted t = tally _primary_type pois t).
  { intros t. rewrite (tally_perm _ _ _ t Hperm). unfold tally.
    f_equal. apply list_filter_iff. intros x. rewrite weighting_type_primary.
    reflexivity. }
  assert (Hcount : forall t, count_in (fold_left count_step sorted []) t
                             = tally _primary_type pois t).
  { intros t. rewrite fold_count_step, Htally. reflexivity. }
  repeat split.
  - exact Hlen.
  - rewrite Hlen. lia.
  - apply nearest_sorted, sorted_firstn, Hsorted.
  - exists (firstn 10 sorted), (skipn 10 sorted). repeat split.
    + rewrite firstn_skipn. symmetry. exact Hperm.
    + apply sorted_firstn, Hsorted.
    + intros x y. apply sorted_prefix_closest, Hsorted.
  - exact Hcount.
  - intros Hin. rewrite <- Hcount.
    apply fold_count_step_keys; [intros t' []|exact Hin].
  - intros Hpos. rewrite <- Hcount in Hpos.
    destruct (in_dec string_dec t (pydict.keys (fold_left count_step sorted [])))
      as [Hin|Hnin]; [exact Hin|].
    apply get_None_keys in Hnin. unfold count_in in Hpos.
    rewrite Hnin in Hpos. simpl in Hpos. lia.
Qed.

End SummaryClaims.

(* ===================================================================== *)
(** ** Normalized distributions of [compute_profile] *)
(* ===================================================================== *)

Section Distributions.
Import profiler.
Local Open Scope R_scope.

Lemma fold_left_Rplus l a : fold_left Rplus l a = a + fold_left Rplus l 0.
Proof.
  revert a. induction l as [|x l IH]; intros a; simpl; [lra|].
  rewrite (IH (a + x)), (IH (0 + x)). lra.
Qed.

Lemma sum_values_cons k v d : sum_values ((k, v) :: d) = v + sum_values d.
Proof. unfold sum_values. simpl. rewrite fold_left_Rplus. lra. Qed.

Lemma sum_values_setitem d k v :
  pydict.get d k = Some 0 ->
  sum_values (pydict.setitem d k v) = sum_values d + v.
Proof.
  induction d as [|[k' v'] d IH]; simpl; [discriminate|].
  destruct (String.eqb k' k).
  - intros [= ->]. rewrite !sum_values_cons. lra.
  - intros Hget. rewrite !sum_values_cons, IH by exact Hget. lra.
Qed.

(** [d.update(e)] when every key of [e] is a key of [d] still at 0. *)
Lemma sum_values_update (e : pydict.dict R) : forall d,
  NoDup (pydict.keys e) ->
  (forall k, In k (pydict.keys e) -> pydict.get d k = Some 0) ->
  sum_values (pydict.update d e) = sum_values d + sum_values e.
Proof.
  unfold pydict.update.
  induction e as [|[k v] e IH]; intros d Hnd Hzero; simpl.
  - unfold sum_values at 3. simpl. lra.
  - simpl in Hnd. apply NoDup_cons in Hnd as [Hk Hnd].
    rewrite IH; [| exact Hnd |].
    + rewrite sum_values_setitem by (apply Hzero; simpl; auto).
      rewrite sum_values_cons. lra.
    + intros k' Hk'. rewrite get_setitem_ne.
      * apply Hzero. simpl. auto.
      * intros ->. apply Hk, list_elem_of_In, Hk'.
Qed.

Lemma keys_update (e : pydict.dict R) : forall d : pydict.dict R,
  (forall k, In k (pydict.keys e) -> In k (pydict.keys d)) ->
  pydict.keys (pydict.update d e) = pydict.keys d.
Proof.
  unfold pydict.update.
  induction e as [|[k v] e IH]; intros d Hsub; simpl; [reflexivity|].
  assert (Hk : In k (pydict.keys d)) by (apply Hsub; simpl; auto).
  rewrite IH.
  - apply keys_setitem_in, Hk.
  - intros k' Hk'. rewrite keys_setitem_in by exact Hk.
    apply Hsub. simpl. auto.
Qed.

Lemma values_setitem (P : R -> Prop) d k v :
  Forall P (pydict.values d) -> P v -> Forall P (pydict.values (pydict.setitem d k v)).
Proof.
  intros Hd Hv. induction d as [|[k' v'] d IH]; simpl.
  - repeat constructor. exact Hv.
  - simpl in Hd. apply Forall_cons in Hd as [Hv' Hd].
    destruct (String.eqb k' k); simpl; constructor; auto.
Qed.

Lemma values_update (P : R -> Prop) (e : pydict.dict R) : forall d,
  Forall P (pydict.values d) -> Forall P (pydict.values e) ->
  Forall P (pydict.values (pydict.update d e)).
Proof.
  unfold pydict.update.
  induction e as [|[k v] e IH]; intros d Hd He; simpl; [exact Hd|].
  simpl in He. apply Forall_cons in He as [Hv He].
  apply IH; [|exact He]. apply values_setitem; assumption.
Qed.

Lemma keys_normalize d : pydict.keys (normalize d) = pydict.keys d.
Proof.
  unfold normalize, pydict.keys.
  destruct (Req_dec_T _ _); rewrite map_map; reflexivity.
Qed.

(** Dividing by the total gives shares that add up to one; rounding
    each share to two decimals moves the sum by at most half a hundredth
    per share. *)
Lemma sum_rounded_shares total d :
  total <> 0 ->
  Rabs (sum_values (map (fun kv => (fst kv, py_round (snd kv / total) 2)) d)
        - sum_values d / total) <= INR (length d) * (1 / 200).
Proof.
  intros Htotal. induction d as [|[k v] d IH].
  - unfold sum_values. simpl. unfold Rdiv. rewrite Rmult_0_l, Rminus_0_r, Rabs_R0. lra.
  - simpl map. rewrite !sum_values_cons.
    change (length ((k, v) :: d)) with (S (length d)). rewrite S_INR.
    pose proof (py_round_error (v / total) 2) as Herr. simpl fst; simpl snd.
    replace (1 / 2 / 10 ^ 2) with (1 / 200) in Herr by (simpl; lra).
    apply Rabs_le_bounds in Herr. apply Rabs_le_bounds in IH. apply Rabs_le.
    unfold Rdiv in *. rewrite Rmult_plus_distr_r. lra.
Qed.

Lemma normalize_sum d :
  sum_values d <> 0 ->
  Rabs (sum_values (normalize d) - 1) <= INR (length d) * (1 / 200).
Proof.
  intros Htotal. unfold normalize.
  destruct (Req_dec_T (sum_values d) 0) as [H0|_]; [contradiction|].
  pose proof (sum_rounded_shares (sum_values d) d Htotal) as H.
  replace (sum_values d / sum_values d) with 1 in H by (field; exact Htotal).
  exact H.
Qed.

Lemma normalize_zero d :
  sum_values d = 0 -> Forall (fun v => v = 0) (pydict.values (normalize d)).
Proof.
  intros Htotal. unfold normalize.
  destruct (Req_dec_T (sum_values d) 0) as [_|H]; [|contradiction].
  unfold pydict.values. rewrite map_map. simpl.
  apply Forall_forall. intros v Hv.
  apply list_elem_of_In, in_map_iff in Hv as (x & <- & _). reflexivity.
Qed.

End Distributions.

Section ScoreLoop.
Import profiler.
Local Open Scope R_scope.

Lemma get_Some_In {V} (d : pydict.dict V) k v :
  pydict.get d k = Some v -> In (k, v) d.
Proof.
  induction d as [|[k' v'] d IH]; simpl; [discriminate|].
  destruct (String.eqb_spec k' k) as [->|_].
  - intros [= ->]. auto.
  - auto.
Qed.

Lemma get_zeros ks k :
  In k ks -> pydict.get (map (fun b => (b, 0)) ks) k = Some 0.
Proof.
  induction ks as [|k' ks IH]; simpl; [tauto|].
  destruct (String.eqb_spec k' k); [reflexivity|].
  intros [H|H]; [contradiction|auto].
Qed.

(** Keys a fan-out can touch: those of the accumulator and of the table. *)
Lemma fan_out_keys bw table : forall acc k,
  In k (pydict.keys (fan_out bw table acc)) ->
  In k (pydict.keys acc) \/ In k (pydict.keys table).
Proof.
  unfold fan_out.
  induction table as [|[k' w] table IH]; intros acc k Hin; simpl in *; [auto|].
  apply IH in Hin as [Hin|Hin]; [|auto].
  unfold pydict.add_to in Hin. apply keys_setitem_incl in Hin.
  destruct Hin as [Hin| ->]; auto.
Qed.

Lemma fan_out_NoDup bw table : forall acc,
  NoDup (pydict.keys acc) -> NoDup (pydict.keys (fan_out bw table acc)).
Proof.
  unfold fan_out.
  induction table as [|[k' w] table IH]; intros acc Hnd; simpl; [exact Hnd|].
  apply IH. unfold pydict.add_to. apply keys_setitem_NoDup, Hnd.
Qed.

Import distribution_spec.

Lemma inb_In s l : inb s l = true <-> In s l.
Proof.
  unfold inb. rewrite existsb_exists. split.
  - intros (x & Hx & Heq). apply String.eqb_eq in Heq. subst. exact Hx.
  - intros H. exists s. split; [exact H|apply String.eqb_refl].
Qed.

Lemma rows_within_get universe table ptype k :
  rows_within universe table = true ->
  In k (pydict.keys (default [] (pydict.get table ptype))) -> In k universe.
Proof.
  unfold rows_within. rewrite forallb_forall. intros Hrows Hk.
  destruct (pydict.get table ptype) as [row|] eqn:Hget; [|destruct Hk].
  apply get_Some_In in Hget. specialize (Hrows _ Hget). simpl in *.
  rewrite forallb_forall in Hrows. apply inb_In, Hrows, Hk.
Qed.

Lemma age_rows_within :
  rows_within config.AGE_BUCKETS config.TYPE_TO_AGE_WEIGHTS = true.
Proof. reflexivity. Qed.

Lemma interest_rows_within :
  rows_within config.INTEREST_CATEGORIES config.TYPE_TO_INTEREST_WEIGHTS = true.
Proof. reflexivity. Qed.

Lemma score_step_within s x : scores_within s -> scores_within (score_step s x).
Proof.
  intros (Hnd1 & Hin1 & Hnd2 & Hin2). unfold score_step.
  destruct (weighting_type (POI.types (fst x))) as [ptype|];
    [|repeat split; assumption].
  unfold scores_within. cbn [age_scores interest_scores]. repeat split.
  - apply fan_out_NoDup, Hnd1.
  - intros k Hk. apply fan_out_keys in Hk as [Hk|Hk]; [auto|].
    eapply rows_within_get; [exact age_rows_within|exact Hk].
  - apply fan_out_NoDup, Hnd2.
  - intros k Hk. apply fan_out_keys in Hk as [Hk|Hk]; [auto|].
    eapply rows_within_get; [exact interest_rows_within|exact Hk].
Qed.

Lemma score_loop_within l : forall s,
  scores_within s -> scores_within (fold_left score_step l s).
Proof.
  induction l as [|x l IH]; intros s Hs; simpl; [exact Hs|].
  apply IH, score_step_within, Hs.
Qed.

Lemma empty_scores_within : scores_within empty_scores.
Proof.
  unfold scores_within, empty_scores. simpl.
  repeat split; try apply NoDup_nil_2; intros k [].
Qed.

(** A distribution of [compute_profile]: the zero map over the universe,
    updated with the normalized scores. *)
Lemma distribution_ok universe (d : pydict.dict R) :
  pydict.from_keys universe 0 = map (fun b => (b, 0)) universe ->
  NoDup (pydict.keys d) ->
  (forall k, In k (pydict.keys d) -> In k universe) ->
  let dist := pydict.update (pydict.from_keys universe 0) (normalize d) in
  pydict.keys dist = universe /\
  (Rabs (sum_values dist - 1) <= INR (length universe) * (1 / 200) \/
   all_zero dist).
Proof.
  intros Hzeros Hnd Hsub dist. subst dist. rewrite Hzeros.
  assert (Hkz : pydict.keys (map (fun b => (b, 0)) universe) = universe).
  { unfold pydict.keys. rewrite map_map. simpl. apply map_id. }
  assert (Hlen : (length d <= length universe)%nat).
  { rewrite <- (length_map fst d). apply submseteq_length, NoDup_submseteq.
    - exact Hnd.
    - intros k Hk. apply list_elem_of_In, Hsub, list_elem_of_In, Hk. }
  split.
  - rewrite keys_update; [exact Hkz|].
    intros k Hk. rewrite keys_normalize in Hk. rewrite Hkz. auto.
  - destruct (Req_dec_T (sum_values d) 0) as [Hz|Hnz].
    + right. apply values_update; [|apply normalize_zero, Hz].
      unfold pydict.values. rewrite map_map. simpl.
      apply Forall_forall. intros v Hv.
      apply list_elem_of_In, in_map_iff in Hv as (b & <- & _). reflexivity.
    + left. rewrite sum_values_update.
      * assert (Hzsum : sum_values (map (fun b => (b, 0)) universe) = 0).
        { clear. induction universe as [|b u IH]; [reflexivity|].
          simpl map. rewrite sum_values_cons, IH. lra. }
        rewrite Hzsum, Rplus_0_l.
        pose proof (normalize_sum d Hnz) as Hsum.
        apply le_INR in Hlen. apply Rabs_le_bounds in Hsum.
        apply Rabs_le. nra.
      * rewrite keys_normalize. exact Hnd.
      * intros k Hk. rewrite keys_normalize in Hk. apply get_zeros, Hsub, Hk.
Qed.

(** C3: for every grid point and every POI list, the keys of
    [age_profile] are exactly [AGE_BUCKETS] and those of [interests]
    exactly [INTEREST_CATEGORIES] (in that order, none missing, none
    added), and each of the two maps either has every value equal to 0.0
    or sums to 1.0 up to the rounding of its entries to two decimals
    (half a hundredth for each bucket of the universe). *)
Theorem compute_profile_distributions
    (gp : grid.GridPoint) (pois : list (POI.t * R)) :
  let a := audience (compute_profile gp pois) in
  pydict.keys (age_profile a) = config.AGE_BUCKETS /\
  pydict.keys (interests a) = config.INTEREST_CATEGORIES /\
  (Rabs (sum_values (age_profile a) - 1) <= 6 * (1 / 200) \/
   all_zero (age_profile a)) /\
  (Rabs (sum_values (interests a) - 1) <= 8 * (1 / 200) \/
   all_zero (interests a)).
Proof.
  unfold compute_profile. cbn [audience age_profile interests].
  pose proof (score_loop_within (sort_by_distance pois) empty_scores
                empty_scores_within) as (Hnd1 & Hin1 & Hnd2 & Hin2).
  set (s := fold_left score_step (sort_by_distance pois) empty_scores) in *.
  destruct (distribution_ok config.AGE_BUCKETS (age_scores s) eq_refl Hnd1 Hin1)
    as [Hk1 Hs1].
  destruct (distribution_ok config.INTEREST_CATEGORIES (interest_scores s)
              eq_refl Hnd2 Hin2) as [Hk2 Hs2].
  repeat split; try assumption.
  - destruct Hs1 as [Hs1|Hs1]; [left|right; exact Hs1].
    simpl in Hs1. replace (1 + 1 + 1 + 1 + 1 + 1) with 6 in Hs1 by lra. exact Hs1.
  - destruct Hs2 as [Hs2|Hs2]; [left|right; exact Hs2].
    simpl in Hs2. replace (1 + 1 + 1 + 1 + 1 + 1 + 1 + 1) with 8 in Hs2 by lra.
    exact Hs2.
Qed.

End ScoreLoop.

(* ===================================================================== *)
(** ** Distance and confidence *)
(* ===================================================================== *)

Section Confidence.
Import profiler.
Local Open Scope R_scope.

Lemma exp_double x : exp (2 * x) = exp x * exp x.
Proof. replace (2 * x) with (x + x) by lra. apply exp_plus. Qed.

Lemma exp_8_lower : 1840 <= exp 8.
Proof.
  pose proof (exp_ineq1_le (1 / 8)) as H1.
  pose proof (exp_double (1 / 8)) as E2. replace (2 * (1 / 8)) with (1 / 4) in E2 by lra.
  pose proof (exp_double (1 / 4)) as E3. replace (2 * (1 / 4)) with (1 / 2) in E3 by lra.
  pose proof (exp_double (1 / 2)) as E4. replace (2 * (1 / 2)) with 1 in E4 by lra.
  pose proof (exp_double 1) as E5. replace (2 * 1) with 2 in E5 by lra.
  pose proof (exp_double 2) as E6. replace (2 * 2) with 4 in E6 by lra.
  pose proof (exp_double 4) as E7. replace (2 * 4) with 8 in E7 by lra.
  assert (H2 : 81 / 64 <= exp (1 / 4)) by nra.
  assert (H3 : 16 / 10 <= exp (1 / 2)) by nra.
  assert (H4 : 256 / 100 <= exp 1) by nra.
  assert (H5 : 655 / 100 <= exp 2) by nra.
  assert (H6 : 429 / 10 <= exp 4) by nra.
  nra.
Qed.

Lemma exp_8_upper : exp 8 <= 6561.
Proof.
  pose proof exp_le_3 as H1. pose proof (exp_pos 1) as P1.
  pose proof (exp_double 1) as E2. replace (2 * 1) with 2 in E2 by lra.
  pose proof (exp_double 2) as E4. replace (2 * 2) with 4 in E4 by lra.
  pose proof (exp_double 4) as E8. replace (2 * 4) with 8 in E8 by lra.
  assert (H2 : 0 < exp 2 <= 9) by nra.
  assert (H4 : 0 < exp 4 <= 81) by nra.
  nra.
Qed.

Lemma exp_le x y : x <= y -> exp x <= exp y.
Proof.
  intros [Hlt| ->]; [left; apply exp_increasing, Hlt|lra].
Qed.

Lemma ln_le x y : 0 < x -> x <= y -> ln x <= ln y.
Proof.
  intros Hx [Hlt| ->]; [left; apply ln_increasing; assumption|lra].
Qed.

Lemma ln_2_bounds : 1 / 2 <= ln 2 <= 1.
Proof.
  split.
  - destruct (Rle_dec (1 / 2) (ln 2)) as [H|H]; [exact H|].
    apply Rnot_le_lt, exp_increasing in H. rewrite exp_ln in H by lra.
    pose proof (exp_double (1 / 2)) as E. replace (2 * (1 / 2)) with 1 in E by lra.
    pose proof exp_le_3. nra.
  - destruct (Rle_dec (ln 2) 1) as [H|H]; [exact H|].
    apply Rnot_le_lt, exp_increasing in H. rewrite exp_ln in H by lra.
    pose proof (exp_ineq1_le 1). lra.
Qed.

Lemma _popularity_factor_Some c :
  c <> 0%N -> _popularity_factor (Some c) = 1 + ln (1 + IZR (Z.of_N c)).
Proof. destruct c; [congruence|reflexivity]. Qed.

Lemma _popularity_factor_ge_1 u : 1 <= _popularity_factor u.
Proof.
  destruct u as [[|c]|]; simpl; try lra.
  assert (H : 0 <= ln (1 + IZR (Z.pos c))).
  { rewrite <- ln_1. apply ln_le; [lra|].
    pose proof (IZR_le 0 (Z.pos c) ltac:(lia)). lra. }
  lra.
Qed.

(** A count that fits 64 bits has a popularity factor of at most 65. *)
Lemma _popularity_factor_64 u :
  match u with Some c => (c < 2 ^ 64)%N | None => True end ->
  _popularity_factor u <= 65.
Proof.
  destruct u as [[|c]|]; simpl; try lra. intros Hc.
  assert (Hle : 1 + IZR (Z.pos c) <= 2 ^ 64).
  { replace 1 with (IZR 1) by reflexivity. rewrite <- plus_IZR.
    rewrite (pow_IZR 2 64). apply IZR_le.
    change (Z.of_nat 64) with 64%Z. lia. }
  assert (Hln : ln (1 + IZR (Z.pos c)) <= ln (2 ^ 64)).
  { apply ln_le; [|exact Hle]. pose proof (IZR_le 0 (Z.pos c) ltac:(lia)). lra. }
  rewrite ln_pow in Hln by lra.
  pose proof ln_2_bounds. replace (INR 64) with 64 in Hln by (simpl; lra).
  lra.
Qed.

Lemma importance_bounds t v :
  pydict.get config.TYPE_IMPORTANCE t = Some v -> 7 / 10 <= v <= 17 / 10.
Proof.
  intros Hget. apply get_Some_In in Hget. unfold config.TYPE_IMPORTANCE in Hget.
  simpl in Hget.
  repeat (destruct Hget as [[= _ <-]|Hget]; [lra|]). destruct Hget.
Qed.

Lemma _primary_type_importance types t :
  _primary_type types = Some t ->
  exists v, pydict.get config.TYPE_IMPORTANCE t = Some v /\ 7 / 10 <= v <= 17 / 10.
Proof.
  unfold _primary_type. intros Hfind. apply find_some in Hfind as [_ Hmem].
  unfold pydict.mem in Hmem.
  destruct (pydict.get config.TYPE_IMPORTANCE t) as [v|] eqn:Hget; [|discriminate].
  exists v. split; [reflexivity|]. eapply importance_bounds, Hget.
Qed.

(** The confidence of a profile computed from one weighted POI. *)
Lemma confidence_single gp p d t v :
  _primary_type (POI.types p) = Some t ->
  pydict.get config.TYPE_IMPORTANCE t = Some v ->
  0 < v ->
  confidence (audience (compute_profile gp [(p, d)])) =
    py_round
      (Rmin 1 (v * _gaussian_decay d config.SIGMA_M
                 * _popularity_factor (POI.user_ratings_total p) / 15)) 2.
Proof.
  intros Hprim Hget Hv. unfold compute_profile. cbn [audience confidence].
  change (sort_by_distance [(p, d)]) with [(p, d)]. cbn [fold_left].
  unfold score_step. cbn [fst snd].
  rewrite weighting_type_primary, Hprim, Hget.
  change (default 1 (Some v)) with v. cbn [total_influence empty_scores].
  set (w := v * _gaussian_decay d config.SIGMA_M
            * _popularity_factor (POI.user_ratings_total p)).
  assert (Hw : 0 < w).
  { unfold w, _gaussian_decay.
    pose proof (_popularity_factor_ge_1 (POI.user_ratings_total p)).
    pose proof (exp_pos (- (d * d) / (2 * config.SIGMA_M * config.SIGMA_M))).
    apply Rmult_lt_0_compat; [apply Rmult_lt_0_compat|]; lra. }
  destruct (Rlt_dec 0 (0 + w)) as [_|H]; [|lra].
  replace (0 + w) with w by lra. reflexivity.
Qed.

Lemma decay_50 : _gaussian_decay 50 config.SIGMA_M = exp (- (1 / 32)).
Proof.
  unfold _gaussian_decay, config.SIGMA_M. f_equal. lra.
Qed.

Lemma decay_800 : _gaussian_decay 800 config.SIGMA_M = / exp 8.
Proof.
  unfold _gaussian_decay, config.SIGMA_M. rewrite <- exp_Ropp. f_equal. lra.
Qed.

End Confidence.

Section ConfidenceClaims.
Import profiler.
Local Open Scope R_scope.

(** A count of at least [2^(a*b)] has a logarithm of at least
    [a * b * ln 2]. *)
Lemma ln_count_lower (a b : nat) (c : N) :
  (2 ^ (N.of_nat a * N.of_nat b) <= c)%N ->
  INR b * (INR a * ln 2) <= ln (1 + IZR (Z.of_N c)).
Proof.
  intros Hc.
  assert (Hz : ((2 ^ Z.of_nat a) ^ Z.of_nat b <= Z.of_N c)%Z).
  { rewrite <- Z.pow_mul_r by lia.
    apply N2Z.inj_le in Hc. rewrite N2Z.inj_pow, N2Z.inj_mul in Hc.
    rewrite !nat_N_Z in Hc. exact Hc. }
  apply IZR_le in Hz. rewrite <- !pow_IZR in Hz.
  assert (Hp : 0 < 2 ^ a) by (apply pow_lt; lra).
  assert (Hpp : 0 < (2 ^ a) ^ b) by (apply pow_lt; exact Hp).
  rewrite <- (ln_pow 2) by lra. rewrite <- ln_pow by exact Hp.
  apply ln_le; [exact Hpp|lra].
Qed.

Lemma ln_big_count : 100000 <= ln (1 + IZR (Z.of_N (2 ^ 200000)%N)).
Proof.
  pose proof (ln_count_lower 500 400 (2 ^ 200000)%N) as H.
  assert (Hle : (2 ^ (N.of_nat 500 * N.of_nat 400) <= 2 ^ 200000)%N).
  { apply N.pow_le_mono_r; [discriminate|]. vm_compute. discriminate. }
  specialize (H Hle). rewrite !INR_IZR_INZ in H.
  change (Z.of_nat 400) with 400%Z in H. change (Z.of_nat 500) with 500%Z in H.
  pose proof ln_2_bounds. lra.
Qed.

(** C9, as stated, fails once the confidence saturates: for an
    ["it_park"] POI with [2^200000] reviews both the 50 m and the 800 m
    profile have confidence 1.0. *)
Lemma confidence_saturates_at_both_distances :
  let gp := grid.mk_GridPoint "g_0_0" 0 0 (28408 / 1000) (77041 / 1000) in
  let p := POI.mk "p1" "IT Park" (28408 / 1000) (77041 / 1000)
             ["it_park"%string] None (Some (2 ^ 200000)%N) "" "" in
  _primary_type (POI.types p) = Some "it_park"%string /\
  confidence (audience (compute_profile gp [(p, 50)])) = 1 /\
  confidence (audience (compute_profile gp [(p, 800)])) = 1 /\
  ~ confidence (audience (compute_profile gp [(p, 800)]))
    < confidence (audience (compute_profile gp [(p, 50)])).
Proof.
  intros gp p.
  assert (Hprim : _primary_type (POI.types p) = Some "it_park"%string)
    by reflexivity.
  assert (Hget : pydict.get config.TYPE_IMPORTANCE "it_park" = Some (17 / 10))
    by reflexivity.
  assert (Hpop : 100001 <= _popularity_factor (POI.user_ratings_total p)).
  { unfold p. cbn [POI.user_ratings_total].
    rewrite _popularity_factor_Some by (apply N.pow_nonzero; discriminate).
    pose proof ln_big_count. lra. }
  assert (Hsat : forall d,
             / exp 8 <= _gaussian_decay d config.SIGMA_M ->
             confidence (audience (compute_profile gp [(p, d)])) = 1).
  { intros d Hd.
    rewrite (confidence_single gp p d _ _ Hprim Hget) by lra.
    rewrite Rmin_left; [apply (py_round_IZR 1 2)|].
    pose proof exp_8_upper as Hup. pose proof (exp_pos 8) as Hpos.
    assert (Hinv : / 6561 <= / exp 8) by (apply Rinv_le_contravar; lra).
    set (pop := _popularity_factor (POI.user_ratings_total p)) in *.
    set (dec := _gaussian_decay d config.SIGMA_M) in *.
    assert (Hdec : / 6561 <= dec) by lra.
    assert (H1 : 100001 / 6561 <= dec * pop) by nra.
    nra. }
  assert (Hnear : confidence (audience (compute_profile gp [(p, 50)])) = 1).
  { apply Hsat. rewrite decay_50, <- exp_Ropp. apply exp_le. lra. }
  assert (Hfar : confidence (audience (compute_profile gp [(p, 800)])) = 1).
  { apply Hsat. rewrite decay_800. lra. }
  repeat split; try assumption. rewrite Hnear, Hfar. lra.
Qed.

(** C9, amended: for every grid point and every single POI whose
    primary category is in the importance table, the confidence with the
    POI at 50 m is at least the confidence with the same POI at 800 m; it
    is strictly greater unless both are saturated at 1.0, and so strictly
    greater whenever the POI's review count is absent or below [2^64]. *)
Theorem closer_poi_higher_confidence
    (gp : grid.GridPoint) (p : POI.t) (t : string) :
  _primary_type (POI.types p) = Some t ->
  let near := confidence (audience (compute_profile gp [(p, 50)])) in
  let far := confidence (audience (compute_profile gp [(p, 800)])) in
  far <= near /\
  (far < near \/ (near = 1 /\ far = 1)) /\
  (match POI.user_ratings_total p with
   | Some c => (c < 2 ^ 64)%N
   | None => True
   end -> far < near).
Proof.
  intros Hprim near far. subst near far.
  destruct (_primary_type_importance _ _ Hprim) as (v & Hget & Hv).
  rewrite !(confidence_single gp p _ _ _ Hprim Hget) by lra.
  rewrite decay_50, decay_800.
  set (pop := _popularity_factor (POI.user_ratings_total p)).
  pose proof (_popularity_factor_ge_1 (POI.user_ratings_total p)) as Hpop1.
  fold pop in Hpop1.
  pose proof exp_8_lower as H8. pose proof (exp_pos 8) as Hpos8.
  pose proof (exp_ineq1_le (- (1 / 32))) as H50.
  assert (Hinv : / exp 8 <= / 1840) by (apply Rinv_le_contravar; lra).
  assert (Hinv0 : 0 < / exp 8) by (apply Rinv_0_lt_compat; lra).
  set (x := v * exp (- (1 / 32)) * pop / 15).
  set (y := v * / exp 8 * pop / 15).
  assert (Hvp : 1 * (7 / 10) <= pop * v) by (apply Rmult_le_compat; lra).
  assert (Hy0 : 0 <= y).
  { unfold y, Rdiv. apply Rmult_le_pos; [|lra].
    apply Rmult_le_pos; [apply Rmult_le_pos|]; lra. }
  assert (Hx : 452 / 10000 <= x).
  { unfold x. assert (H1 : 7 / 10 * (31 / 32) <= pop * v * exp (- (1 / 32))).
    { apply Rmult_le_compat; lra. }
    lra. }
  assert (Hxy : y * 1782 <= x).
  { assert (He : exp 8 * / exp 8 = 1) by (apply Rinv_r; lra).
    assert (Hr : / exp 8 * 1782 <= exp (- (1 / 32))) by nra.
    unfold x, y.
    replace (v * / exp 8 * pop / 15 * 1782)
      with (pop * v / 15 * (/ exp 8 * 1782)) by (unfold Rdiv; ring).
    replace (v * exp (- (1 / 32)) * pop / 15)
      with (pop * v / 15 * exp (- (1 / 32))) by (unfold Rdiv; ring).
    apply Rmult_le_compat_l; lra. }
  assert (Hle : py_round (Rmin 1 y) 2 <= py_round (Rmin 1 x) 2).
  { apply py_round_mono, Rle_min_compat_l. lra. }
  assert (Hsmall : y < 5 / 1000 -> py_round (Rmin 1 y) 2 < py_round (Rmin 1 x) 2).
  { intros Hy.
    assert (Hfar : py_round (Rmin 1 y) 2 = 0).
    { apply py_round_small.
      - apply Rmin_glb; lra.
      - pose proof (Rmin_r 1 y). simpl. lra. }
    rewrite Hfar.
    assert (Hmin : 452 / 10000 <= Rmin 1 x) by (apply Rmin_glb; lra).
    pose proof (py_round_error (Rmin 1 x) 2) as Herr.
    apply Rabs_le_bounds in Herr. simpl in Herr. lra. }
  split; [exact Hle|split].
  - destruct (Rlt_dec y (5 / 1000)) as [Hy|Hy]; [left; apply Hsmall, Hy|].
    apply Rnot_lt_le in Hy.
    assert (Hnear : py_round (Rmin 1 x) 2 = 1).
    { rewrite Rmin_left by lra. apply (py_round_IZR 1 2). }
    rewrite Hnear in *.
    destruct Hle as [Hlt|Heq]; [left; exact Hlt|right; split; [reflexivity|exact Heq]].
  - intros Hcount. apply Hsmall.
    pose proof (_popularity_factor_64 _ Hcount) as Hpop64. fold pop in Hpop64.
    assert (Hy1 : y <= 17 / 10 * / 1840 * 65 / 15).
    { unfold y, Rdiv. apply Rmult_le_compat_r; [lra|].
      apply Rmult_le_compat; try lra.
      - apply Rmult_le_pos; lra.
      - apply Rmult_le_compat; lra. }
    lra.
Qed.

(** Witness for C9: a school with 50 reviews. *)
Lemma closer_poi_higher_confidence_witness :
  let gp := grid.mk_GridPoint "g_0_0" 0 0 (28408 / 1000) (77041 / 1000) in
  let p := POI.mk "near" "Near School" (28408 / 1000) (77041 / 1000)
             ["school"%string] (Some 4) (Some 50%N) "" "" in
  confidence (audience (compute_profile gp [(p, 800)]))
    < confidence (audience (compute_profile gp [(p, 50)])).
Proof.
  intros gp p.
  apply (closer_poi_higher_confidence gp p "school"); [reflexivity|].
  simpl. reflexivity.
Defined.

End ConfidenceClaims.

(* ===================================================================== *)
(** ** Trigonometric bounds *)
(* ===================================================================== *)

Section Trig.
Local Open Scope R_scope.

Lemma PI_bounds : 3 < PI <= 4.
Proof. pose proof PI2_3_2. pose proof PI_4. lra. Qed.

(** [x - x^3/6 <= sin x] on [[0, 1]]. *)
Lemma sin_lower (x : R) : 0 <= x <= 1 -> x - x ^ 3 / 6 <= sin x.
Proof.
  intros [H0 H1]. pose proof PI_bounds.
  destruct (SIN x H0 ltac:(lra)) as [Hlb _].
  unfold sin_lb, sin_approx, sin_term in Hlb. simpl in Hlb.
  assert (H5 : 0 <= x * (x * (x * (x * x)))).
  { repeat apply Rmult_le_pos; lra. }
  assert (H7 : x * (x * (x * (x * (x * (x * x))))) <= x * (x * (x * (x * x)))).
  { assert (Hxx : x * x <= 1) by nra. nra. }
  lra.
Qed.

Lemma sin_abs_le (x : R) : Rabs (sin x) <= Rabs x.
Proof.
  destruct (Rle_dec 0 x) as [Hx|Hx].
  - rewrite (Rabs_pos_eq x) by exact Hx.
    destruct (Rle_dec x 1) as [H1|H1].
    + pose proof PI_bounds.
      rewrite Rabs_pos_eq by (apply sin_ge_0; lra).
      destruct Hx as [Hx| <-]; [left; apply sin_lt_x, Hx|rewrite sin_0; lra].
    + pose proof (SIN_bound x). apply Rabs_le. lra.
  - apply Rnot_le_lt in Hx. rewrite (Rabs_left x) by exact Hx.
    destruct (Rle_dec (-1) x) as [H1|H1].
    + pose proof PI_bounds.
      assert (Hs : 0 <= sin (- x)) by (apply sin_ge_0; lra).
      pose proof (sin_lt_x (- x) ltac:(lra)) as Hlt.
      rewrite sin_neg in Hs, Hlt. apply Rabs_le. lra.
    + pose proof (SIN_bound x). apply Rabs_le. lra.
Qed.

Lemma sin_sqr_le (x : R) : sin x ^ 2 <= x ^ 2.
Proof.
  pose proof (sin_abs_le x) as H.
  rewrite <- (pow2_abs (sin x)), <- (pow2_abs x).
  pose proof (Rabs_pos (sin x)). nra.
Qed.

(** The cosine is 1-Lipschitz. *)
Lemma cos_lipschitz (a b : R) : Rabs (cos a - cos b) <= Rabs (a - b).
Proof.
  rewrite form2.
  rewrite !Rabs_mult. rewrite (Rabs_left (-2)) by lra.
  pose proof (sin_abs_le ((a - b) / 2)) as H1.
  pose proof (SIN_bound ((a + b) / 2)) as H2.
  assert (H3 : Rabs (sin ((a + b) / 2)) <= 1) by (apply Rabs_le; lra).
  assert (H4 : Rabs ((a - b) / 2) = Rabs (a - b) / 2).
  { unfold Rdiv. rewrite Rabs_mult, (Rabs_pos_eq (/ 2)) by lra. reflexivity. }
  rewrite H4 in H1.
  pose proof (Rabs_pos (sin ((a - b) / 2))).
  pose proof (Rabs_pos (sin ((a + b) / 2))). nra.
Qed.

(** [asin] below the angle whose sine bounds the argument. *)
Lemma asin_le_angle (x t : R) :
  0 <= t <= PI / 2 -> 0 <= x <= sin t -> asin x <= t.
Proof.
  intros Ht Hx. pose proof (SIN_bound t) as Hb.
  destruct (Rle_dec (asin x) t) as [H|H]; [exact H|].
  apply Rnot_le_lt in H. pose proof (asin_bound x) as Hab.
  pose proof (sin_increasing_1 t (asin x) ltac:(lra) ltac:(lra) ltac:(lra)
                ltac:(lra) H) as Hlt.
  rewrite sin_asin in Hlt by lra. lra.
Qed.

(** The converse: a small [asin] means a small argument. *)
Lemma asin_le_inv (x t : R) :
  0 <= t < PI / 2 -> 0 <= x -> asin x <= t -> x <= sin t.
Proof.
  intros Ht Hx Has.
  destruct (Rle_dec x 1) as [H1|H1].
  - pose proof (asin_bound x) as Hab.
    rewrite <- (sin_asin x) by lra. apply sin_incr_1; lra.
  - unfold asin in Has. destruct (Rle_dec x (-1)); [lra|].
    destruct (Rle_dec 1 x); lra.
Qed.

(** An angle of [[0, PI - m]] whose sine is below [sin m] is below [m]. *)
Lemma small_sine_small_angle (u m : R) :
  0 <= m <= PI / 2 -> 0 <= u <= PI - m -> sin u < sin m -> u < m.
Proof.
  intros Hm Hu Hs.
  destruct (Rlt_dec u m) as [H|H]; [exact H|]. apply Rnot_lt_le in H.
  exfalso. destruct (Rle_dec u (PI / 2)) as [Hhalf|Hhalf].
  - pose proof (sin_incr_1 m u ltac:(lra) ltac:(lra) ltac:(lra) Hhalf H). lra.
  - rewrite <- (sin_PI_x u) in Hs.
    pose proof (sin_incr_1 m (PI - u) ltac:(lra) ltac:(lra) ltac:(lra)
                  ltac:(lra) ltac:(lra)). lra.
Qed.

End Trig.

(* ===================================================================== *)
(** ** Haversine distance *)
(* ===================================================================== *)

Section Haversine.
Local Open Scope R_scope.

Import geo_spec.

Lemma haversine_unfold lat1 lon1 lat2 lon2 :
  grid.haversine lat1 lon1 lat2 lon2 =
    2 * grid.R_earth * asin (sqrt (hav lat1 lon1 lat2 lon2)).
Proof. reflexivity. Qed.

Lemma R_earth_pos : 0 < grid.R_earth.
Proof. unfold grid.R_earth. lra. Qed.

(** A haversine distance of at most [D] bounds the haversine term. *)
Lemma haversine_le_inv lat1 lon1 lat2 lon2 D :
  0 <= D / (2 * grid.R_earth) < PI / 2 ->
  grid.haversine lat1 lon1 lat2 lon2 <= D ->
  hav lat1 lon1 lat2 lon2 <= sin (D / (2 * grid.R_earth)) ^ 2.
Proof.
  intros Ht Hd. rewrite haversine_unfold in Hd.
  pose proof R_earth_pos as HR.
  set (a := hav lat1 lon1 lat2 lon2) in *.
  assert (Has : asin (sqrt a) <= D / (2 * grid.R_earth)).
  { apply Rmult_le_reg_l with (2 * grid.R_earth); [lra|].
    replace (2 * grid.R_earth * (D / (2 * grid.R_earth))) with D by (field; lra).
    exact Hd. }
  pose proof (sqrt_pos a) as Hsq.
  pose proof (asin_le_inv (sqrt a) _ Ht Hsq Has) as Hle.
  destruct (Rle_dec 0 a) as [Ha|Ha].
  - rewrite <- (sqrt_sqrt a Ha). nra.
  - pose proof (pow2_ge_0 (sin (D / (2 * grid.R_earth)))). lra.
Qed.

(** A bound on the haversine term bounds the haversine distance. *)
Lemma haversine_le lat1 lon1 lat2 lon2 D :
  0 <= D / (2 * grid.R_earth) <= PI / 2 ->
  hav lat1 lon1 lat2 lon2 <= sin (D / (2 * grid.R_earth)) ^ 2 ->
  grid.haversine lat1 lon1 lat2 lon2 <= D.
Proof.
  intros Ht Ha. rewrite haversine_unfold.
  pose proof R_earth_pos as HR.
  set (a := hav lat1 lon1 lat2 lon2) in *.
  set (t := D / (2 * grid.R_earth)) in *.
  assert (Hs : 0 <= sin t).
  { pose proof PI_bounds. apply sin_ge_0; lra. }
  assert (Hsq : sqrt a <= sin t).
  { rewrite <- (sqrt_pow2 (sin t) Hs). apply sqrt_le_1_alt, Ha. }
  pose proof (asin_le_angle (sqrt a) t Ht (conj (sqrt_pos a) Hsq)) as Has.
  replace D with (2 * grid.R_earth * t) by (unfold t; field; lra).
  apply Rmult_le_compat_l; lra.
Qed.

Lemma sin_abs (x : R) : Rabs x <= PI -> sin (Rabs x) = Rabs (sin x).
Proof.
  intros Hx. destruct (Rle_dec 0 x) as [H0|H0].
  - rewrite (Rabs_pos_eq x) in * by exact H0.
    rewrite Rabs_pos_eq; [reflexivity|apply sin_ge_0; lra].
  - apply Rnot_le_lt in H0. rewrite (Rabs_left x) in * by exact H0.
    pose proof (sin_ge_0 (- x) ltac:(lra) Hx) as Hs. rewrite sin_neg in *.
    rewrite Rabs_left1 by lra. reflexivity.
Qed.

(** An angle short of [PI - m] whose squared sine is at most that of
    [m] is at most [m] in absolute value. *)
Lemma sin_sqr_small_angle (x m : R) :
  0 <= m <= PI / 2 -> Rabs x < PI - m -> sin x ^ 2 <= sin m ^ 2 -> Rabs x <= m.
Proof.
  intros Hm Hx Hsq. pose proof PI_bounds.
  assert (Hsm : 0 <= sin m) by (apply sin_ge_0; lra).
  assert (Habs : sin (Rabs x) <= sin m).
  { rewrite sin_abs by lra. rewrite <- (pow2_abs (sin x)) in Hsq.
    pose proof (Rabs_pos (sin x)). nra. }
  pose proof (Rabs_pos x) as Hpos.
  destruct (Rle_dec (Rabs x) m) as [Hle|Hgt]; [exact Hle|].
  apply Rnot_le_lt in Hgt. exfalso.
  destruct (Rle_dec (Rabs x) (PI / 2)) as [Hhalf|Hhalf].
  - pose proof (sin_increasing_1 m (Rabs x) ltac:(lra) ltac:(lra) ltac:(lra)
                  Hhalf Hgt). lra.
  - rewrite <- (sin_PI_x (Rabs x)) in Habs.
    pose proof (sin_increasing_1 m (PI - Rabs x) ltac:(lra) ltac:(lra)
                  ltac:(lra) ltac:(lra) ltac:(lra)). lra.
Qed.

(** The cosine of a latitude. *)
Lemma cos_latitude_nonneg lat : -90 <= lat <= 90 -> 0 <= cos (grid.radians lat).
Proof.
  intros Hlat. pose proof PI_bounds. unfold grid.radians.
  apply cos_ge_0; nra.
Qed.

(** Below 60 degrees the cosine of a latitude is at least one half. *)
Lemma cos_latitude_half lat : 0 <= lat <= 60 -> 1 / 2 <= cos (grid.radians lat).
Proof.
  intros Hlat. pose proof PI_bounds. rewrite <- cos_PI3.
  unfold grid.radians. apply cos_decr_1; nra.
Qed.

End Haversine.

(* ===================================================================== *)
(** ** The two-stage filter of [compute_all_profiles] *)
(* ===================================================================== *)

Section Filter.
Import profiler geo_spec.
Local Open Scope R_scope.

(** Half the influence radius as an angle at the Earth's center. *)
Let t : R := config.MAX_INFLUENCE_M / (2 * grid.R_earth).

Lemma half_angle_bounds : 78 / 1000000 <= t <= 79 / 1000000.
Proof. unfold t, config.MAX_INFLUENCE_M, grid.R_earth. lra. Qed.

Lemma Rabs_half_radians d :
  Rabs (grid.radians d / 2) = Rabs d * (PI / 360).
Proof.
  pose proof PI_bounds. unfold grid.radians.
  replace (d * (PI / 180) / 2) with (d * (PI / 360)) by lra.
  rewrite Rabs_mult, (Rabs_pos_eq (PI / 360)) by lra. reflexivity.
Qed.

(** No false negative of the coarse test: a POI within the influence
    radius of a grid point of the bounding box is inside both degree
    margins. *)
Lemma within_radius_coarse_pass (gp_lat gp_lon : R) (p : POI.t) :
  in_bbox gp_lat gp_lon ->
  valid_coordinates (POI.lat p) (POI.lon p) ->
  grid.haversine gp_lat gp_lon (POI.lat p) (POI.lon p) <= config.MAX_INFLUENCE_M ->
  coarse_pass gp_lat gp_lon p.
Proof.
  intros [[HS HN] [HW HE]] [[Hlat1 Hlat2] [Hlon1 Hlon2]] Hd.
  unfold coarse_pass, config.BBOX_SOUTH, config.BBOX_NORTH, config.BBOX_WEST,
    config.BBOX_EAST in *.
  set (plat := POI.lat p) in *. set (plon := POI.lon p) in *.
  pose proof PI_bounds as HPI. pose proof half_angle_bounds as Ht.
  apply haversine_le_inv in Hd; [|fold t; lra]. fold t in Hd. unfold hav in Hd.
  set (x := grid.radians (plat - gp_lat) / 2) in *.
  set (y := grid.radians (plon - gp_lon) / 2) in *.
  set (c1 := cos (grid.radians gp_lat)) in *.
  set (c2 := cos (grid.radians plat)) in *.
  assert (Hc1 : 0 <= c1) by (apply cos_latitude_nonneg; lra).
  assert (Hc2 : 0 <= c2) by (apply cos_latitude_nonneg; lra).
  pose proof (pow2_ge_0 (sin x)) as HA. pose proof (pow2_ge_0 (sin y)) as HB.
  assert (HB' : 0 <= c1 * c2 * sin y ^ 2).
  { apply Rmult_le_pos; [apply Rmult_le_pos|]; assumption. }
  (* latitude *)
  assert (Hx : Rabs x <= t).
  { apply sin_sqr_small_angle; [lra| |lra].
    unfold x. rewrite Rabs_half_radians.
    assert (Rabs (plat - gp_lat) <= 120) by (apply Rabs_le; lra). nra. }
  assert (Hdlat : Rabs (plat - gp_lat) <= t * 120).
  { unfold x in Hx. rewrite Rabs_half_radians in Hx.
    pose proof (Rabs_pos (plat - gp_lat)). nra. }
  split.
  { unfold _LAT_MARGIN, _DEG_PER_M_LAT, config.MAX_INFLUENCE_M. lra. }
  (* longitude *)
  set (c0 := cos (grid.radians (2844 / 100))).
  assert (Hc0 : 1 / 2 <= c0 <= 1).
  { split; [apply cos_latitude_half; lra|apply COS_bound]. }
  assert (Hc1' : c0 - 2 / 1000 <= c1).
  { pose proof (cos_lipschitz (grid.radians gp_lat) (grid.radians (2844 / 100)))
      as Hl. fold c1 c0 in Hl. apply Rabs_le_bounds in Hl.
    assert (Hr : Rabs (grid.radians gp_lat - grid.radians (2844 / 100)) <= 2 / 1000).
    { unfold grid.radians. apply Rabs_le. split; nra. }
    lra. }
  assert (Hc2' : c1 - 2 * t <= c2).
  { pose proof (cos_lipschitz (grid.radians plat) (grid.radians gp_lat)) as Hl.
    fold c1 c2 in Hl. apply Rabs_le_bounds in Hl.
    assert (Hr : Rabs (grid.radians plat - grid.radians gp_lat) = 2 * Rabs x).
    { unfold x. rewrite Rabs_half_radians. unfold grid.radians.
      rewrite <- Rmult_minus_distr_r, Rabs_mult, (Rabs_pos_eq (PI / 180)) by lra.
      lra. }
    lra. }
  assert (Hsint : sin t <= t) by (left; apply sin_lt_x; lra).
  assert (Hsint0 : 0 <= sin t) by (apply sin_ge_0; lra).
  assert (Hprod : c1 * c2 * sin y ^ 2 <= t ^ 2) by nra.
  set (s := 1005 / 1000 * t / c0).
  set (m := 101 / 100 * s).
  assert (Hs : 0 < s <= 2 / 10000).
  { unfold s. split.
    - apply Rmult_lt_0_compat; [lra|apply Rinv_0_lt_compat; lra].
    - apply Rmult_le_reg_r with c0; [lra|].
      replace (1005 / 1000 * t / c0 * c0) with (1005 / 1000 * t) by (field; lra).
      nra. }
  assert (Hsc0 : s * c0 = 1005 / 1000 * t) by (unfold s; field; lra).
  assert (Hm : 0 < m <= 3 / 10000) by (unfold m; lra).
  assert (Hsinm : s <= sin m).
  { pose proof (sin_lower m ltac:(lra)) as Hlow.
    assert (Hcube : m ^ 3 / 6 <= m / 1000) by nra.
    unfold m in *. lra. }
  assert (Hsiny : sin y ^ 2 <= sin m ^ 2).
  { assert (Hys : sin y ^ 2 <= s ^ 2).
    { assert (Hc1lo : 996 / 1000 * c0 <= c1) by lra.
      assert (Hc2lo : 9956 / 10000 * c0 <= c2) by lra.
      assert (Hcc : 9916 / 10000 * (c0 * c0) <= c1 * c2) by nra.
      assert (Hlow : 9916 / 10000 * (c0 * c0) * sin y ^ 2 <= t ^ 2) by nra.
      assert (Hs2 : s ^ 2 * (c0 * c0) = (1005 / 1000 * t) ^ 2).
      { rewrite <- Hsc0. ring. }
      assert (Hc00 : 0 < c0 * c0) by nra.
      apply Rmult_le_reg_r with (c0 * c0); [exact Hc00|].
      rewrite Hs2. nra. }
    nra. }
  assert (Hy : Rabs y <= m).
  { apply sin_sqr_small_angle; [lra| |exact Hsiny].
    unfold y. rewrite Rabs_half_radians.
    assert (Rabs (plon - gp_lon) <= 258) by (apply Rabs_le; lra). nra. }
  unfold y in Hy. rewrite Rabs_half_radians in Hy.
  assert (Hdlon : Rabs (plon - gp_lon) <= m * 120).
  { pose proof (Rabs_pos (plon - gp_lon)). nra. }
  unfold _LON_MARGIN, _DEG_PER_M_LON, config.MAX_INFLUENCE_M. fold c0.
  apply Rle_trans with (m * 120); [exact Hdlon|].
  apply Rmult_le_reg_r with c0; [lra|].
  replace (1000 * (1 / (111320 * c0)) * (11 / 10) * c0) with (1100 / 111320)
    by (field; lra).
  replace (m * 120 * c0) with (101 / 100 * 120 * (s * c0)) by (unfold m; ring).
  rewrite Hsc0. lra.
Qed.

End Filter.

Section FilterClaims.
Import profiler geo_spec.
Local Open Scope R_scope.

Lemma candidate_step_exact gp_lat gp_lon acc p :
  in_bbox gp_lat gp_lon ->
  valid_coordinates (POI.lat p) (POI.lon p) ->
  candidate_step gp_lat gp_lon acc p = within_radius_step gp_lat gp_lon acc p.
Proof.
  intros Hgp Hp. unfold candidate_step, within_radius_step.
  destruct (Rle_dec (grid.haversine gp_lat gp_lon (POI.lat p) (POI.lon p))
              config.MAX_INFLUENCE_M) as [Hd|Hd].
  - destruct (within_radius_coarse_pass gp_lat gp_lon p Hgp Hp Hd) as [Hlat Hlon].
    destruct (Rle_dec _ _) as [_|H]; [|contradiction].
    destruct (Rle_dec _ _) as [_|H]; [|contradiction].
    reflexivity.
  - repeat (destruct (Rle_dec _ _)); reflexivity.
Qed.

Lemma within_radius_fold gp_lat gp_lon l : forall acc p d,
  In (p, d) (fold_left (within_radius_step gp_lat gp_lon) l acc) <->
  In (p, d) acc \/
  (In p l /\ d = grid.haversine gp_lat gp_lon (POI.lat p) (POI.lon p) /\
   d <= config.MAX_INFLUENCE_M).
Proof.
  induction l as [|q l IH]; intros acc p d; simpl.
  - tauto.
  - rewrite IH. unfold within_radius_step.
    destruct (Rle_dec _ _) as [Hq|Hq].
    + rewrite in_app_iff. simpl. split; intros H.
      * destruct H as [[H|[Hq'|[]]]|(H1 & H2 & H3)].
        -- left. exact H.
        -- injection Hq' as <- <-. right.
           split; [left; reflexivity|split; [reflexivity|exact Hq]].
        -- right. split; [right; exact H1|split; assumption].
      * destruct H as [H|([<-|H1] & H2 & H3)].
        -- left. left. exact H.
        -- left. right. left. rewrite H2. reflexivity.
        -- right. auto.
    + split; intros H.
      * destruct H as [H|(H1 & H2 & H3)]; [left; exact H|right; auto].
      * destruct H as [H|([<-|H1] & H2 & H3)];
          [left; exact H|subst d; contradiction|right; auto].
Qed.

(** C2: for every grid point of the bounding box and every list of POIs
    with geographic coordinates, the two-stage filter selects exactly
    the POIs whose haversine distance to the grid point is at most
    [MAX_INFLUENCE_M], each with that distance and in list order; the
    coarse test rejects no POI that is within the radius. *)
Theorem two_stage_filter_exact (gp : grid.GridPoint) (all_pois : list POI.t) :
  in_bbox (grid.lat gp) (grid.lon gp) ->
  Forall (fun p => valid_coordinates (POI.lat p) (POI.lon p)) all_pois ->
  candidates_for gp all_pois = within_radius gp all_pois /\
  (forall p d,
      In (p, d) (candidates_for gp all_pois) <->
      In p all_pois /\
      d = grid.haversine (grid.lat gp) (grid.lon gp) (POI.lat p) (POI.lon p) /\
      d <= config.MAX_INFLUENCE_M) /\
  (forall p,
      In p all_pois ->
      grid.haversine (grid.lat gp) (grid.lon gp) (POI.lat p) (POI.lon p)
        <= config.MAX_INFLUENCE_M ->
      coarse_pass (grid.lat gp) (grid.lon gp) p).
Proof.
  intros Hgp Hvalid.
  assert (Heq : forall acc,
             fold_left (candidate_step (grid.lat gp) (grid.lon gp)) all_pois acc
             = fold_left (within_radius_step (grid.lat gp) (grid.lon gp))
                 all_pois acc).
  { induction Hvalid as [|p l Hp Hl IH]; intros acc; simpl; [reflexivity|].
    rewrite candidate_step_exact by assumption. apply IH. }
  unfold candidates_for, within_radius. rewrite Heq.
  split; [reflexivity|split].
  - intros p d. rewrite within_radius_fold.
    split; [intros [[]|H]; exact H|intros H; right; exact H].
  - intros p Hin Hd. apply within_radius_coarse_pass; [exact Hgp| |exact Hd].
    rewrite Forall_forall in Hvalid. apply Hvalid, list_elem_of_In, Hin.
Qed.

(** Witness for C2: the south-west corner and a POI at the same place. *)
Lemma two_stage_filter_exact_witness :
  let gp := grid.mk_GridPoint "g_0_0" 0 0 config.BBOX_SOUTH config.BBOX_WEST in
  let p := POI.mk "p1" "Corner" config.BBOX_SOUTH config.BBOX_WEST
             ["school"%string] None None "" "" in
  candidates_for gp [p] = within_radius gp [p].
Proof.
  intros gp p.
  apply (two_stage_filter_exact gp [p]).
  - unfold in_bbox, gp, config.BBOX_SOUTH, config.BBOX_NORTH, config.BBOX_WEST,
      config.BBOX_EAST. simpl. lra.
  - constructor; [|constructor].
    unfold valid_coordinates, p, config.BBOX_SOUTH, config.BBOX_WEST. simpl. lra.
Defined.

End FilterClaims.

(* ===================================================================== *)
(** ** The lattice loops of [compute_tile_centers] *)
(* ===================================================================== *)

Section TileLoops.
Import collector.
Local Open Scope R_scope.

Variables spacing x_min x_max y_max : R.
Hypothesis spacing_pos : 0 < spacing.

Local Abbreviation center x y :=
  (grid.offset_point config.BBOX_SOUTH config.BBOX_WEST x y).

Lemma exists_nat_above (r : R) : exists n : nat, r < INR n.
Proof.
  destruct (archimed r) as [Hup _].
  exists (Z.to_nat (Z.max 0 (up r))).
  rewrite INR_IZR_INZ, Z2Nat.id by lia.
  apply Rlt_le_trans with (IZR (up r)); [lra|]. apply IZR_le. lia.
Qed.

(** The inner loop returns, keeps what was collected, and adds the
    center of every lattice abscissa up to [x_max]. *)
Lemma row_loop_spec (y : R) (n : nat) : forall fuel x centers,
  x_max - x < INR n * spacing ->
  (n <= fuel)%nat ->
  exists res,
    row_loop fuel spacing x_max y x centers = Some res /\
    (forall c, In c centers -> In c res) /\
    (forall k : nat, x + INR k * spacing <= x_max ->
                     In (center (x + INR k * spacing) y) res).
Proof.
  induction n as [|n IH]; intros fuel x centers Hn Hfuel.
  - simpl in Hn. exists centers.
    assert (Hgt : ~ x <= x_max) by lra.
    split; [|split; [auto|]].
    + destruct fuel; simpl; destruct (Rle_dec x x_max); tauto.
    + intros k Hk. pose proof (pos_INR k). nra.
  - destruct (Rle_dec x x_max) as [Hle|Hgt].
    + destruct fuel as [|fuel]; [lia|]. simpl.
      destruct (Rle_dec x x_max) as [_|H]; [|contradiction].
      rewrite S_INR in Hn.
      destruct (IH fuel (x + spacing) (centers ++ [center x y])) as
        (res & Hrun & Hincl & Hall); [lra|lia|].
      exists res. split; [exact Hrun|]. split.
      * intros c Hc. apply Hincl, in_or_app. left. exact Hc.
      * intros [|k] Hk.
        -- simpl. rewrite Rmult_0_l, Rplus_0_r.
           apply Hincl, in_or_app. right. left. reflexivity.
        -- rewrite S_INR in *.
           replace (x + (INR k + 1) * spacing)
             with (x + spacing + INR k * spacing) in * by lra.
           apply Hall, Hk.
    + exists centers. split; [|split; [auto|]].
      * destruct fuel; simpl; destruct (Rle_dec x x_max); tauto.
      * intros k Hk. pose proof (pos_INR k). nra.
Qed.

(** The outer loop returns with the center of every lattice point of
    the rectangle. *)
Lemma col_loop_spec (m n : nat) : forall fuel y centers,
  x_max - x_min < INR m * spacing ->
  y_max - y < INR n * spacing ->
  (n + m <= fuel)%nat ->
  exists res,
    col_loop fuel spacing x_min x_max y_max y centers = Some res /\
    (forall c, In c centers -> In c res) /\
    (forall j k : nat,
        y + INR j * spacing <= y_max ->
        x_min + INR k * spacing <= x_max ->
        In (center (x_min + INR k * spacing) (y + INR j * spacing)) res).
Proof.
  induction n as [|n IH]; intros fuel y centers Hm Hn Hfuel.
  - simpl in Hn. exists centers.
    assert (Hgt : ~ y <= y_max) by lra.
    split; [|split; [auto|]].
    + destruct fuel; simpl; destruct (Rle_dec y y_max); tauto.
    + intros j k Hj. pose proof (pos_INR j). nra.
  - destruct (Rle_dec y y_max) as [Hle|Hgt].
    + destruct fuel as [|fuel]; [lia|].
      cbn [col_loop]. destruct (Rle_dec y y_max) as [_|H]; [|contradiction].
      destruct (row_loop_spec y m (S fuel) x_min centers Hm ltac:(lia))
        as (row & Hrow & Hrincl & Hrall).
      rewrite Hrow. rewrite S_INR in Hn.
      destruct (IH fuel (y + spacing) row Hm ltac:(lra) ltac:(lia))
        as (res & Hrun & Hincl & Hall).
      exists res. split; [exact Hrun|]. split.
      * intros c Hc. apply Hincl, Hrincl, Hc.
      * intros [|j] k Hj Hk.
        -- simpl. rewrite Rmult_0_l, Rplus_0_r. apply Hincl, Hrall, Hk.
        -- rewrite S_INR in *.
           replace (y + (INR j + 1) * spacing)
             with (y + spacing + INR j * spacing) in * by lra.
           apply Hall; assumption.
    + exists centers. split; [|split; [auto|]].
      * destruct fuel; simpl; destruct (Rle_dec y y_max); tauto.
      * intros j k Hj. pose proof (pos_INR j). nra.
Qed.

End TileLoops.

(* ===================================================================== *)
(** ** Coverage of the bounding box by the tile centers *)
(* ===================================================================== *)

Section Coverage.
Import collector geo_spec.
Local Open Scope R_scope.

Local Abbreviation S_lat := config.BBOX_SOUTH.
Local Abbreviation W_lon := config.BBOX_WEST.
Local Abbreviation Re := grid.R_earth.

(** The lattice step [tile_radius * sqrt 2 * 0.9]. *)
Let spacing : R := config.MAX_INFLUENCE_M * sqrt 2 * (9 / 10).
(** The cosine of the southern latitude, the longitude scale of
    [offset_point]. *)
Let cS : R := cos (grid.radians S_lat).

Lemma spacing_sqr : spacing * spacing = 1620000.
Proof.
  unfold spacing, config.MAX_INFLUENCE_M.
  pose proof (sqrt_sqrt 2 ltac:(lra)). nra.
Qed.

Lemma spacing_bounds : 1272 < spacing < 1273.
Proof.
  pose proof spacing_sqr as Hsq.
  assert (H0 : 0 <= spacing).
  { unfold spacing, config.MAX_INFLUENCE_M. pose proof (sqrt_pos 2). nra. }
  split; nra.
Qed.

Lemma cS_bounds : 1 / 2 <= cS <= 1.
Proof.
  split; [|apply COS_bound].
  apply cos_latitude_half. unfold S_lat. lra.
Qed.

Lemma radians_0 : grid.radians 0 = 0.
Proof. unfold grid.radians. lra. Qed.

(** [z <= asin z] on [[0, 1]]. *)
Lemma asin_ge (z : R) : 0 <= z <= 1 -> z <= asin z.
Proof.
  intros Hz. pose proof (asin_bound z) as Hb. pose proof PI_bounds.
  pose proof (sin_asin z ltac:(lra)) as Hs.
  destruct (Rle_dec 0 (asin z)) as [[Hpos|Hzero]|Hneg].
  - pose proof (sin_lt_x _ Hpos). lra.
  - rewrite <- Hzero, sin_0 in Hs. lra.
  - apply Rnot_le_lt in Hneg.
    pose proof (sin_gt_0 (- asin z) ltac:(lra) ltac:(lra)) as Hg.
    rewrite sin_neg in Hg. lra.
Qed.

(** [height_m]: the meridian arc between the southern and the northern
    edge. *)
Lemma height_m_eq :
  grid.haversine S_lat W_lon config.BBOX_NORTH W_lon
  = Re * grid.radians (config.BBOX_NORTH - S_lat).
Proof.
  rewrite haversine_unfold. unfold hav. pose proof PI_bounds.
  replace (W_lon - W_lon) with 0 by lra.
  rewrite radians_0. replace (0 / 2) with 0 by lra. rewrite sin_0.
  set (th := grid.radians (config.BBOX_NORTH - S_lat) / 2).
  assert (Hth : 0 <= th <= PI / 2).
  { unfold th, grid.radians, config.BBOX_NORTH, S_lat. split; nra. }
  replace (sin th ^ 2 + _ * 0 ^ 2) with (sin th ^ 2) by ring.
  rewrite sqrt_pow2 by (apply sin_ge_0; lra).
  rewrite asin_sin by lra. unfold th. field.
Qed.

(** [width_m] falls short of the flat-earth width of the box by less
    than a meter. *)
Lemma width_m_lower :
  Re * cS * grid.radians (config.BBOX_EAST - W_lon) - 1
  <= grid.haversine S_lat W_lon S_lat config.BBOX_EAST.
Proof.
  rewrite haversine_unfold. unfold hav. pose proof PI_bounds as HPI.
  replace (S_lat - S_lat) with 0 by lra.
  rewrite radians_0. replace (0 / 2) with 0 by lra. rewrite sin_0. fold cS.
  set (dl := grid.radians (config.BBOX_EAST - W_lon)).
  assert (Hdl : 0 <= dl / 2 <= 4 / 1000).
  { unfold dl, grid.radians, config.BBOX_EAST, W_lon. split; nra. }
  pose proof cS_bounds as HcS.
  assert (Hsin : 0 <= sin (dl / 2) <= 1).
  { split; [apply sin_ge_0; lra|apply SIN_bound]. }
  replace (0 ^ 2 + cS * cS * sin (dl / 2) ^ 2) with ((cS * sin (dl / 2)) ^ 2)
    by ring.
  assert (Hz : 0 <= cS * sin (dl / 2) <= 1) by nra.
  rewrite sqrt_pow2 by lra.
  pose proof (asin_ge _ Hz) as Has.
  pose proof (sin_lower (dl / 2) ltac:(lra)) as Hlow.
  assert (Hcube : (dl / 2) ^ 3 / 6 <= 1 / 10000000).
  { assert (H2 : (dl / 2) * (dl / 2) <= 16 / 1000000) by nra.
    assert (H3 : (dl / 2) ^ 3 <= 64 / 1000000000).
    { replace ((dl / 2) ^ 3) with ((dl / 2) * ((dl / 2) * (dl / 2))) by ring.
      nra. }
    lra. }
  assert (Hhalf : cS * (dl / 2) - 1 / 10000000 <= asin (cS * sin (dl / 2))).
  { assert (cS * (dl / 2 - 1 / 10000000) <= cS * sin (dl / 2)).
    { apply Rmult_le_compat_l; lra. }
    nra. }
  unfold Re in *. nra.
Qed.

(** A lattice abscissa (or ordinate) within half a step of any
    non-negative coordinate. *)
Lemma nearest_lattice_index (q : R) :
  0 <= q ->
  exists k : nat,
    Rabs (- config.MAX_INFLUENCE_M + INR k * spacing - q) <= spacing / 2.
Proof.
  intros Hq. pose proof spacing_bounds as Hs.
  unfold config.MAX_INFLUENCE_M.
  set (r := (q + 1000) / spacing + 1 / 2).
  assert (Hr : r * spacing = q + 1000 + spacing / 2) by (unfold r; field; lra).
  assert (Hr0 : 0 <= r).
  { unfold r. assert (0 <= (q + 1000) / spacing); [|lra].
    apply Rmult_le_pos; [lra|left; apply Rinv_0_lt_compat; lra]. }
  pose proof (Zfloor_bound r) as [Hlo Hhi].
  assert (Hk0 : (0 <= Zfloor r)%Z) by (apply Zfloor_lub; exact Hr0).
  exists (Z.to_nat (Zfloor r)).
  rewrite INR_IZR_INZ, Z2Nat.id by exact Hk0.
  apply Rabs_le. split; nra.
Qed.

(** A lattice point within half a step, in both planar coordinates, of
    a point of the box is within the tile radius of it. *)
Lemma lattice_point_close (lat lon x y : R) :
  in_bbox lat lon ->
  Rabs (x - Re * cS * grid.radians (lon - W_lon)) <= spacing / 2 ->
  Rabs (y - Re * grid.radians (lat - S_lat)) <= spacing / 2 ->
  grid.haversine lat lon
    (fst (grid.offset_point S_lat W_lon x y))
    (snd (grid.offset_point S_lat W_lon x y)) <= config.MAX_INFLUENCE_M.
Proof.
  intros [[HS HN] [HW HE]] Hx Hy.
  pose proof PI_bounds as HPI. pose proof cS_bounds as HcS.
  pose proof spacing_sqr as Hsq. pose proof spacing_bounds as Hsb.
  unfold grid.offset_point. cbn [fst snd]. fold cS.
  set (xp := Re * cS * grid.radians (lon - W_lon)) in *.
  set (yp := Re * grid.radians (lat - S_lat)) in *.
  set (h := / (2 * Re)).
  assert (Hh : 0 < h <= 8 / 100000000).
  { unfold h, Re. split; [apply Rinv_0_lt_compat; lra|].
    apply Rmult_le_reg_l with (2 * 6378137); [lra|].
    rewrite Rinv_r by lra. lra. }
  assert (HhR : h * (2 * Re) = 1) by (unfold h, Re; field).
  apply Rabs_le_bounds in Hx. apply Rabs_le_bounds in Hy.
  assert (Hdx : (x - xp) * (x - xp) <= 405000) by nra.
  assert (Hdy : (y - yp) * (y - yp) <= 405000) by nra.
  apply haversine_le.
  { unfold config.MAX_INFLUENCE_M, Re. lra. }
  replace (config.MAX_INFLUENCE_M / (2 * Re)) with (1000 * h)
    by (unfold config.MAX_INFLUENCE_M, h; field; unfold Re; lra).
  unfold hav.
  set (latc := S_lat + y / Re * (180 / PI)).
  set (lonc := W_lon + x / (Re * cS) * (180 / PI)).
  assert (Ha1 : grid.radians (latc - lat) / 2 = (y - yp) * h).
  { unfold latc, yp, h, grid.radians. field. unfold Re. lra. }
  assert (Ha2 : grid.radians (lonc - lon) / 2 * cS = (x - xp) * h).
  { unfold lonc, xp, h, grid.radians. field. unfold Re. lra. }
  set (a2 := grid.radians (lonc - lon) / 2) in *. rewrite Ha1.
  set (c := cos (grid.radians lat)). set (c' := cos (grid.radians latc)).
  (* the latitude term *)
  pose proof (sin_sqr_le ((y - yp) * h)) as H1.
  assert (H1' : ((y - yp) * h) ^ 2 <= 405000 * (h * h)) by nra.
  (* the longitude term *)
  pose proof (sin_sqr_le a2) as H2. pose proof (pow2_ge_0 (sin a2)) as H2p.
  assert (Hc : 0 <= c <= cS).
  { unfold c, cS, S_lat, config.BBOX_NORTH in *. split.
    - apply cos_latitude_nonneg. lra.
    - unfold grid.radians. apply cos_decr_1; nra. }
  assert (Hyp : 0 <= yp <= Re * (4 / 1000)).
  { unfold yp, grid.radians, S_lat, config.BBOX_NORTH, Re in *. split; nra. }
  assert (Hc' : c' <= cS + 42 / 10000).
  { pose proof (cos_lipschitz (grid.radians latc) (grid.radians S_lat)) as Hl.
    fold c' cS in Hl. apply Rabs_le_bounds in Hl.
    assert (Hr : grid.radians latc - grid.radians S_lat = y * (2 * h)).
    { unfold latc, h, grid.radians. field. unfold Re. lra. }
    rewrite Hr in Hl.
    assert (Hyabs : Rabs (y * (2 * h)) <= 42 / 10000).
    { apply Rabs_le. unfold Re in *. split; nra. }
    lra. }
  assert (Ha2sq : (a2 * cS) ^ 2 <= 405000 * (h * h)) by (rewrite Ha2; nra).
  assert (Hlon : c * c' * sin a2 ^ 2 <= 10084 / 10000 * (405000 * (h * h))).
  { destruct (Rle_dec 0 c') as [Hpos|Hneg].
    - assert (Hcc : c * c' <= 10084 / 10000 * (cS * cS)) by nra.
      assert (Hcc0 : 0 <= c * c') by nra.
      assert (Hstep : c * c' * sin a2 ^ 2 <= 10084 / 10000 * (cS * cS) * a2 ^ 2).
      { apply Rmult_le_compat; lra. }
      replace (10084 / 10000 * (cS * cS) * a2 ^ 2)
        with (10084 / 10000 * (a2 * cS) ^ 2) in Hstep by ring.
      lra.
    - apply Rnot_le_lt in Hneg.
      assert (c * c' * sin a2 ^ 2 <= 0); [|nra].
      assert (c * c' <= 0) by nra. nra. }
  (* the sine of the half angle of the radius *)
  assert (Hsin : 999 * h <= sin (1000 * h)).
  { pose proof (sin_lower (1000 * h) ltac:(lra)) as Hlow.
    assert (Hcube : (1000 * h) ^ 3 / 6 <= h) by nra.
    lra. }
  assert (Hsin2 : (999 * h) ^ 2 <= sin (1000 * h) ^ 2) by nra.
  nra.
Qed.

(** C1: the loops of [compute_tile_centers] terminate (every fuel from
    some bound on gives the same kind of result, a list), and for every
    point of the configured bounding box the list holds a center whose
    haversine distance to the point is at most the tile radius
    [MAX_INFLUENCE_M]. *)
Theorem tile_centers_cover_bbox :
  exists N : nat, forall fuel : nat, (N <= fuel)%nat ->
    exists centers,
      compute_tile_centers fuel = Some centers /\
      forall lat lon, in_bbox lat lon -> covered centers lat lon.
Proof.
  pose proof spacing_bounds as Hsb.
  set (width_m := grid.haversine S_lat W_lon S_lat config.BBOX_EAST).
  set (height_m := grid.haversine S_lat W_lon config.BBOX_NORTH W_lon).
  destruct (exists_nat_above
              ((width_m + config.MAX_INFLUENCE_M - - config.MAX_INFLUENCE_M)
               / spacing)) as [m Hm].
  destruct (exists_nat_above
              ((height_m + config.MAX_INFLUENCE_M - - config.MAX_INFLUENCE_M)
               / spacing)) as [n Hn].
  exists (n + m)%nat. intros fuel Hfuel.
  assert (Hm' : width_m + config.MAX_INFLUENCE_M - - config.MAX_INFLUENCE_M
                < INR m * spacing).
  { apply Rmult_lt_compat_r with (r := spacing) in Hm; [|lra].
    unfold Rdiv in Hm. rewrite Rmult_assoc, Rinv_l, Rmult_1_r in Hm by lra.
    exact Hm. }
  assert (Hn' : height_m + config.MAX_INFLUENCE_M - - config.MAX_INFLUENCE_M
                < INR n * spacing).
  { apply Rmult_lt_compat_r with (r := spacing) in Hn; [|lra].
    unfold Rdiv in Hn. rewrite Rmult_assoc, Rinv_l, Rmult_1_r in Hn by lra.
    exact Hn. }
  destruct (col_loop_spec spacing (- config.MAX_INFLUENCE_M)
              (width_m + config.MAX_INFLUENCE_M)
              (height_m + config.MAX_INFLUENCE_M) ltac:(lra) m n fuel
              (- config.MAX_INFLUENCE_M) [] Hm' Hn' Hfuel)
    as (centers & Hrun & _ & Hall).
  exists centers. split; [exact Hrun|].
  intros lat lon Hbox. pose proof Hbox as [[HS HN] [HW HE]].
  pose proof PI_bounds as HPI. pose proof cS_bounds as HcS.
  set (xp := Re * cS * grid.radians (lon - W_lon)).
  set (yp := Re * grid.radians (lat - S_lat)).
  assert (Hxp : 0 <= xp <= width_m + 1).
  { pose proof width_m_lower as Hw. fold width_m cS in Hw.
    assert (Hmono : grid.radians (lon - W_lon)
                    <= grid.radians (config.BBOX_EAST - W_lon)).
    { unfold grid.radians. nra. }
    assert (H0 : 0 <= grid.radians (lon - W_lon)) by (unfold grid.radians; nra).
    unfold xp, Re in *. split; nra. }
  assert (Hyp : 0 <= yp <= height_m).
  { unfold height_m. rewrite height_m_eq.
    assert (Hmono : grid.radians (lat - S_lat)
                    <= grid.radians (config.BBOX_NORTH - S_lat)).
    { unfold grid.radians. nra. }
    assert (H0 : 0 <= grid.radians (lat - S_lat)) by (unfold grid.radians; nra).
    unfold yp, Re in *. split; nra. }
  destruct (nearest_lattice_index xp (proj1 Hxp)) as [k Hk].
  destruct (nearest_lattice_index yp (proj1 Hyp)) as [j Hj].
  exists (grid.offset_point S_lat W_lon
            (- config.MAX_INFLUENCE_M + INR k * spacing)
            (- config.MAX_INFLUENCE_M + INR j * spacing)).
  split.
  - apply Hall.
    + apply Rabs_le_bounds in Hj. unfold config.MAX_INFLUENCE_M in *. lra.
    + apply Rabs_le_bounds in Hk. unfold config.MAX_INFLUENCE_M in *. lra.
  - apply lattice_point_close; assumption.
Qed.

(** Witness for C1: the south-west corner of the box is covered. *)
Lemma tile_centers_cover_bbox_witness :
  exists N centers,
    compute_tile_centers N = Some centers /\
    covered centers config.BBOX_SOUTH config.BBOX_WEST.
Proof.
  destruct tile_centers_cover_bbox as [N HN].
  destruct (HN N (Nat.le_refl N)) as (centers & Hrun & Hcover).
  exists N, centers. split; [exact Hrun|].
  apply Hcover.
  unfold in_bbox, config.BBOX_SOUTH, config.BBOX_NORTH, config.BBOX_WEST,
    config.BBOX_EAST. lra.
Defined.

End Coverage.

(* ===================================================================== *)
(** ** The weighting functions of the profiler *)
(* ===================================================================== *)

Section Weighting.
Import profiler.
Local Open Scope R_scope.

(** [_gaussian_decay] with the configured sigma: 1 at distance 0,
    [e^(-1/2)] at distance sigma, always in (0, 1], and strictly
    decreasing as a non-negative distance grows. *)
Theorem gaussian_decay_shape (d1 d2 : R) :
  0 <= d1 < d2 ->
  _gaussian_decay 0 config.SIGMA_M = 1 /\
  _gaussian_decay config.SIGMA_M config.SIGMA_M = exp (- (1 / 2)) /\
  0 < _gaussian_decay d1 config.SIGMA_M <= 1 /\
  _gaussian_decay d2 config.SIGMA_M < _gaussian_decay d1 config.SIGMA_M.
Proof.
  intros [H1 H12]. unfold _gaussian_decay, config.SIGMA_M. repeat split.
  - replace (- (0 * 0) / (2 * 200 * 200)) with 0 by lra. apply exp_0.
  - f_equal. lra.
  - apply exp_pos.
  - rewrite <- exp_0. apply exp_le. assert (0 <= d1 * d1) by nra. lra.
  - apply exp_increasing. assert (d1 * d1 < d2 * d2) by nra. lra.
Qed.

Lemma gaussian_decay_shape_witness :
  _gaussian_decay 500 config.SIGMA_M < _gaussian_decay 100 config.SIGMA_M.
Proof.
  apply (gaussian_decay_shape 100 500). lra.
Defined.

(** [_popularity_factor] is 1 for a missing or zero review count, never
    below 1, and strictly increasing in the review count. *)
Theorem popularity_factor_shape (c1 c2 : N) (u : option N) :
  (c1 < c2)%N ->
  _popularity_factor None = 1 /\
  _popularity_factor (Some 0%N) = 1 /\
  1 <= _popularity_factor u /\
  _popularity_factor (Some c1) < _popularity_factor (Some c2).
Proof.
  intros Hlt. repeat split; try apply _popularity_factor_ge_1.
  assert (H2 : c2 <> 0%N) by lia.
  rewrite (_popularity_factor_Some c2 H2).
  assert (Hc1 : 0 <= IZR (Z.of_N c1)) by (apply IZR_le; lia).
  assert (Hc12 : IZR (Z.of_N c1) < IZR (Z.of_N c2)) by (apply IZR_lt; lia).
  assert (Hln : ln (1 + IZR (Z.of_N c1)) < ln (1 + IZR (Z.of_N c2))).
  { apply ln_increasing; lra. }
  destruct (N.eq_dec c1 0%N) as [->|H1].
  - simpl in *. rewrite Rplus_0_r, ln_1 in Hln. lra.
  - rewrite (_popularity_factor_Some c1 H1). lra.
Qed.

Lemma popularity_factor_shape_witness :
  _popularity_factor (Some 100%N) < _popularity_factor (Some 1000%N).
Proof.
  apply (popularity_factor_shape 100 1000 None). reflexivity.
Defined.

(** [_primary_type] returns the first tag of the list that is a key of
    the importance table: every tag before it is outside the table; it
    returns nothing exactly when no tag of the list is in the table. *)
Theorem primary_type_first_match (types : list string) :
  (forall t, _primary_type types = Some t <->
             exists before after,
               types = before ++ t :: after /\
               pydict.mem config.TYPE_IMPORTANCE t = true /\
               forall x, In x before -> pydict.mem config.TYPE_IMPORTANCE x = false) /\
  (_primary_type types = None <->
   forall x, In x types -> pydict.mem config.TYPE_IMPORTANCE x = false).
Proof.
  unfold _primary_type. split.
  - induction types as [|a types IH]; intros t; simpl.
    + split; [discriminate|]. intros (before & after & H & _). destruct before; discriminate.
    + destruct (pydict.mem config.TYPE_IMPORTANCE a) eqn:Ha.
      * split.
        -- intros [= ->]. exists [], types. repeat split; [exact Ha|intros x []].
        -- intros (before & after & Heq & Hmem & Hbefore).
           destruct before as [|b before]; simpl in Heq.
           ++ congruence.
           ++ injection Heq as <- _. rewrite (Hbefore a) in Ha by (left; reflexivity).
              discriminate.
      * rewrite IH. split.
        -- intros (before & after & -> & Hmem & Hbefore).
           exists (a :: before), after. repeat split; [exact Hmem|].
           intros x [<-|Hx]; auto.
        -- intros (before & after & Heq & Hmem & Hbefore).
           destruct before as [|b before]; simpl in Heq.
           ++ injection Heq as -> _. congruence.
           ++ injection Heq as -> ->. exists before, after. repeat split; auto.
              intros x Hx. apply Hbefore. right. exact Hx.
  - split.
    + intros Hfind x Hx.
      destruct (pydict.mem config.TYPE_IMPORTANCE x) eqn:E; [|reflexivity].
      pose proof (find_none _ _ Hfind x Hx) as Hn. simpl in Hn. congruence.
    + intros Hall. induction types as [|a types IH]; simpl; [reflexivity|].
      rewrite (Hall a) by (left; reflexivity). apply IH.
      intros x Hx. apply Hall. right. exact Hx.
Qed.

End Weighting.

(* ===================================================================== *)
(** ** Invariants of the weighting loop *)
(* ===================================================================== *)

Section ScoreInvariants.
Import profiler score_spec.
Local Open Scope R_scope.

Lemma base_weight_of_pos x : weighted x -> 0 < base_weight_of x.
Proof.
  unfold weighted, base_weight_of.
  destruct (_primary_type (POI.types (fst x))) as [t|] eqn:E; [|congruence].
  intros _. destruct (_primary_type_importance _ _ E) as (v & Hget & Hv).
  rewrite Hget. change (default 1 (Some v)) with v.
  pose proof (_popularity_factor_ge_1 (POI.user_ratings_total (fst x))).
  pose proof (exp_pos (- (snd x * snd x) / (2 * config.SIGMA_M * config.SIGMA_M))).
  unfold _gaussian_decay.
  apply Rmult_lt_0_compat; [apply Rmult_lt_0_compat|]; lra.
Qed.

Lemma base_weight_of_unweighted x : ~ weighted x -> base_weight_of x = 0.
Proof.
  unfold weighted, base_weight_of.
  destruct (_primary_type (POI.types (fst x))); [intros H; exfalso; apply H; discriminate|reflexivity].
Qed.

Lemma score_step_unweighted s x : ~ weighted x -> score_step s x = s.
Proof.
  unfold weighted, score_step. rewrite weighting_type_primary.
  destruct (_primary_type (POI.types (fst x))); [intros H; exfalso; apply H; discriminate|reflexivity].
Qed.

Lemma score_step_total s x :
  total_influence (score_step s x) = total_influence s + base_weight_of x.
Proof.
  unfold score_step, base_weight_of. rewrite weighting_type_primary.
  destruct (_primary_type (POI.types (fst x))); simpl; lra.
Qed.

(** The two running totals never decrease, and they leave zero as soon
    as a weighted POI is met. *)
Lemma score_step_totals s x :
  0 <= total_influence s -> 0 <= footfall_total s ->
  total_influence s <= total_influence (score_step s x) /\
  footfall_total s <= footfall_total (score_step s x) /\
  (weighted x -> 0 < total_influence (score_step s x) /\
                 0 < footfall_total (score_step s x)).
Proof.
  intros Ht Hf. unfold weighted, score_step. rewrite weighting_type_primary.
  destruct (_primary_type (POI.types (fst x))) as [t|] eqn:E.
  - destruct (_primary_type_importance _ _ E) as (v & Hget & Hv).
    rewrite Hget. change (default 1 (Some v)) with v. cbn [total_influence footfall_total].
    pose proof (_popularity_factor_ge_1 (POI.user_ratings_total (fst x))) as Hp.
    pose proof (exp_pos (- (snd x * snd x) / (2 * config.SIGMA_M * config.SIGMA_M)))
      as He.
    unfold _gaussian_decay.
    set (dec := exp _) in *. set (pop := _popularity_factor _) in *.
    assert (0 < pop * dec) by (apply Rmult_lt_0_compat; lra).
    assert (0 < v * dec * pop).
    { apply Rmult_lt_0_compat; [apply Rmult_lt_0_compat|]; lra. }
    repeat split; lra.
  - repeat split; try lra; exfalso; congruence.
Qed.

Lemma score_loop_totals l : forall s,
  0 <= total_influence s -> 0 <= footfall_total s ->
  let s' := fold_left score_step l s in
  total_influence s <= total_influence s' /\
  footfall_total s <= footfall_total s' /\
  (Exists weighted l -> 0 < total_influence s' /\ 0 < footfall_total s').
Proof.
  induction l as [|x l IH]; intros s Ht Hf; simpl.
  - split; [lra|split; [lra|]]. intros Hex. inversion Hex.
  - destruct (score_step_totals s x Ht Hf) as (H1 & H2 & H3).
    destruct (IH (score_step s x) ltac:(lra) ltac:(lra)) as (H4 & H5 & H6).
    split; [lra|split; [lra|]].
    intros Hex. apply Exists_cons in Hex as [Hx|Hl].
    + destruct (H3 Hx). lra.
    + destruct (H6 Hl). lra.
Qed.

Lemma score_loop_unweighted l : forall s,
  Forall (fun x => ~ weighted x) l -> fold_left score_step l s = s.
Proof.
  induction l as [|x l IH]; intros s Hall; simpl; [reflexivity|].
  apply Forall_cons in Hall as [Hx Hl].
  rewrite score_step_unweighted by exact Hx. apply IH, Hl.
Qed.

Lemma py_round_unit_interval x n : 0 <= x <= 1 -> 0 <= py_round x n <= 1.
Proof.
  intros [H0 H1]. split.
  - rewrite <- (py_round_IZR 0 n). apply py_round_mono, H0.
  - rewrite <- (py_round_IZR 1 n). apply py_round_mono, H1.
Qed.

Lemma py_round_two_decimals x : two_decimals (py_round x 2).
Proof.
  unfold two_decimals, py_round. eexists. simpl. f_equal. lra.
Qed.

(** Both scalar scores of every profile lie in [[0, 1]] and are whole
    hundredths; they are 0 when no POI of the list has a tag of the
    importance table. *)
Theorem scalar_scores_range (gp : grid.GridPoint) (pois : list (POI.t * R)) :
  let a := audience (compute_profile gp pois) in
  0 <= footfall_proxy a <= 1 /\
  0 <= confidence a <= 1 /\
  two_decimals (footfall_proxy a) /\
  two_decimals (confidence a) /\
  (Forall (fun x => ~ weighted x) pois ->
   footfall_proxy a = 0 /\ confidence a = 0).
Proof.
  unfold compute_profile. cbn [audience footfall_proxy confidence].
  set (s := fold_left score_step (sort_by_distance pois) empty_scores).
  assert (Hrange : forall t, 0 <= (if Rlt_dec 0 t then py_round (Rmin 1 (t / 15)) 2 else 0) <= 1
                             /\ 0 <= (if Rlt_dec 0 t then py_round (Rmin 1 (t / 20)) 2 else 0) <= 1).
  { intros t. destruct (Rlt_dec 0 t) as [Ht|Ht]; [|lra].
    split; apply py_round_unit_interval; split;
      try apply Rmin_l; apply Rmin_glb; lra. }
  assert (Hdec : forall t k,
             two_decimals (if Rlt_dec 0 t then py_round (Rmin 1 (t / k)) 2 else 0)).
  { intros t k. destruct (Rlt_dec 0 t); [apply py_round_two_decimals|].
    exists 0%Z. lra. }
  assert (Hzero : Forall (fun x => ~ weighted x) pois -> s = empty_scores).
  { intros Hall. unfold s. apply score_loop_unweighted.
    rewrite (sort_by_distance_perm pois). exact Hall. }
  split; [apply Hrange|]. split; [apply Hrange|].
  split; [apply Hdec|]. split; [apply Hdec|].
  intros Hall. rewrite (Hzero Hall). simpl.
  destruct (Rlt_dec 0 0); lra.
Qed.

End ScoreInvariants.

Section DistributionValues.
Import profiler score_spec.
Local Open Scope R_scope.

Lemma get_Some_values {V} (d : pydict.dict V) k v :
  pydict.get d k = Some v -> In v (pydict.values d).
Proof.
  intros H. apply get_Some_In in H. unfold pydict.values.
  apply in_map_iff. exists (k, v). auto.
Qed.

Lemma age_weights_nonneg ptype :
  Forall (fun kw => 0 <= snd kw)
    (default [] (pydict.get config.TYPE_TO_AGE_WEIGHTS ptype)).
Proof.
  destruct (pydict.get config.TYPE_TO_AGE_WEIGHTS ptype) as [row|] eqn:Hget;
    [|constructor].
  apply get_Some_In in Hget. unfold config.TYPE_TO_AGE_WEIGHTS in Hget.
  simpl in Hget.
  repeat (destruct Hget as [[= _ <-]|Hget];
          [repeat constructor; simpl; lra|]).
  destruct Hget.
Qed.

Lemma interest_weights_nonneg ptype :
  Forall (fun kw => 0 <= snd kw)
    (default [] (pydict.get config.TYPE_TO_INTEREST_WEIGHTS ptype)).
Proof.
  destruct (pydict.get config.TYPE_TO_INTEREST_WEIGHTS ptype) as [row|] eqn:Hget;
    [|constructor].
  apply get_Some_In in Hget. unfold config.TYPE_TO_INTEREST_WEIGHTS in Hget.
  simpl in Hget.
  repeat (destruct Hget as [[= _ <-]|Hget];
          [repeat constructor; simpl; lra|]).
  destruct Hget.
Qed.

Lemma fan_out_nonneg bw table : forall acc,
  0 <= bw ->
  Forall (fun kw => 0 <= snd kw) table ->
  Forall (fun v => 0 <= v) (pydict.values acc) ->
  Forall (fun v => 0 <= v) (pydict.values (fan_out bw table acc)).
Proof.
  unfold fan_out.
  induction table as [|[k w] table IH]; intros acc Hbw Htab Hacc; simpl;
    [exact Hacc|].
  apply Forall_cons in Htab as [Hw Htab]. simpl in Hw.
  apply IH; [exact Hbw|exact Htab|].
  unfold pydict.add_to. apply values_setitem; [exact Hacc|].
  assert (0 <= bw * w) by (apply Rmult_le_pos; assumption).
  destruct (pydict.get acc k) as [v|] eqn:Hget; [|lra].
  apply get_Some_values in Hget. rewrite Forall_forall in Hacc.
  specialize (Hacc v (proj2 (list_elem_of_In _ _) Hget)). simpl in Hacc. lra.
Qed.

Lemma score_step_nonneg s x :
  Forall (fun v => 0 <= v) (pydict.values (age_scores s)) ->
  Forall (fun v => 0 <= v) (pydict.values (interest_scores s)) ->
  Forall (fun v => 0 <= v) (pydict.values (age_scores (score_step s x))) /\
  Forall (fun v => 0 <= v) (pydict.values (interest_scores (score_step s x))).
Proof.
  intros Ha Hi. unfold score_step. rewrite weighting_type_primary.
  destruct (_primary_type (POI.types (fst x))) as [t|] eqn:E; [|auto].
  cbn [age_scores interest_scores].
  assert (Hbw : 0 <= base_weight_of x).
  { left. apply base_weight_of_pos. unfold weighted. rewrite E. discriminate. }
  unfold base_weight_of in Hbw. rewrite E in Hbw.
  split; apply fan_out_nonneg; auto using age_weights_nonneg, interest_weights_nonneg.
Qed.

Lemma score_loop_nonneg l : forall s,
  Forall (fun v => 0 <= v) (pydict.values (age_scores s)) ->
  Forall (fun v => 0 <= v) (pydict.values (interest_scores s)) ->
  Forall (fun v => 0 <= v) (pydict.values (age_scores (fold_left score_step l s))) /\
  Forall (fun v => 0 <= v)
    (pydict.values (interest_scores (fold_left score_step l s))).
Proof.
  induction l as [|x l IH]; intros s Ha Hi; simpl; [auto|].
  destruct (score_step_nonneg s x Ha Hi). apply IH; assumption.
Qed.

Lemma sum_values_nonneg (d : pydict.dict R) :
  Forall (fun v => 0 <= v) (pydict.values d) ->
  0 <= sum_values d /\ forall v, In v (pydict.values d) -> v <= sum_values d.
Proof.
  induction d as [|[k w] d IH]; intros Hall.
  - split; [unfold sum_values; simpl; lra|intros v []].
  - simpl in Hall. apply Forall_cons in Hall as [Hw Hd].
    destruct (IH Hd) as [Hs Hle]. rewrite sum_values_cons.
    simpl in Hw. split; [lra|]. intros v [<-|Hv]; [simpl; lra|].
    specialize (Hle v Hv). lra.
Qed.

Lemma normalize_unit_interval (d : pydict.dict R) :
  Forall (fun v => 0 <= v) (pydict.values d) ->
  Forall (fun v => 0 <= v <= 1 /\ two_decimals v) (pydict.values (normalize d)).
Proof.
  intros Hall. destruct (sum_values_nonneg d Hall) as [Hs Hle].
  unfold normalize. destruct (Req_dec_T (sum_values d) 0) as [Hz|Hnz];
    unfold pydict.values; rewrite map_map; simpl;
    apply Forall_forall; intros v Hv;
    apply list_elem_of_In, in_map_iff in Hv as ([k w] & <- & Hin); simpl.
  - split; [lra|]. exists 0%Z. lra.
  - split; [|apply py_round_two_decimals].
    assert (Hw : In w (pydict.values d)).
    { unfold pydict.values. apply in_map_iff. exists (k, w). auto. }
    pose proof (Hle w Hw) as Hwle. rewrite Forall_forall in Hall.
    pose proof (Hall w (proj2 (list_elem_of_In _ _) Hw)) as Hw0. simpl in Hw0.
    apply py_round_unit_interval.
    assert (Hpos : 0 < sum_values d) by lra.
    split.
    + apply Rmult_le_pos; [lra|left; apply Rinv_0_lt_compat, Hpos].
    + apply Rmult_le_reg_r with (sum_values d); [exact Hpos|].
      unfold Rdiv. rewrite Rmult_assoc, Rinv_l by lra. lra.
Qed.

(** Every value of [age_profile] and of [interests], for every grid
    point and POI list, lies in [[0, 1]] and is a whole number of
    hundredths. *)
Theorem distribution_values_range (gp : grid.GridPoint) (pois : list (POI.t * R)) :
  let a := audience (compute_profile gp pois) in
  Forall (fun v => 0 <= v <= 1 /\ two_decimals v) (pydict.values (age_profile a)) /\
  Forall (fun v => 0 <= v <= 1 /\ two_decimals v) (pydict.values (interests a)).
Proof.
  unfold compute_profile. cbn [audience age_profile interests].
  destruct (score_loop_nonneg (sort_by_distance pois) empty_scores
              (List.Forall_nil _) (List.Forall_nil _)) as [Ha Hi].
  assert (Hzeros : forall ks,
             Forall (fun v => 0 <= v <= 1 /\ two_decimals v)
               (pydict.values (pydict.from_keys ks 0))).
  { intros ks. unfold pydict.from_keys.
    assert (Hgen : forall acc : pydict.dict R,
               Forall (fun v => 0 <= v <= 1 /\ two_decimals v) (pydict.values acc) ->
               Forall (fun v => 0 <= v <= 1 /\ two_decimals v)
                 (pydict.values (fold_left (fun acc k => pydict.setitem acc k 0) ks acc))).
    { induction ks as [|k ks IH]; intros acc Hacc; simpl; [exact Hacc|].
      apply IH, values_setitem; [exact Hacc|].
      split; [lra|exists 0%Z; lra]. }
    apply Hgen. constructor. }
  split; apply values_update; auto using normalize_unit_interval.
Qed.

End DistributionValues.

(* ===================================================================== *)
(** ** The land-use ranking of [compute_profile] *)
(* ===================================================================== *)

Section LandUse.
Import profiler score_spec.
Local Open Scope R_scope.

(** Descending by score. *)
Local Abbreviation by_score := (fun a b : string * R => snd b <= snd a).

Lemma insert_by_score_perm x l : insert_by_score x l ≡ₚ x :: l.
Proof.
  induction l as [|y l IH]; simpl; [reflexivity|].
  destruct (Rle_dec (snd y) (snd x)); [reflexivity|].
  rewrite IH. apply Permutation_swap.
Qed.

Lemma insert_by_score_sorted x l :
  StronglySorted by_score l -> StronglySorted by_score (insert_by_score x l).
Proof.
  induction 1 as [|y l Hsorted IH Hall]; simpl.
  - repeat constructor.
  - destruct (Rle_dec (snd y) (snd x)) as [Hle|Hgt].
    + constructor; [constructor; assumption|].
      constructor; [exact Hle|].
      eapply Forall_impl; [exact Hall|]. simpl. intros z Hz. lra.
    + constructor; [exact IH|].
      rewrite insert_by_score_perm. constructor; [|exact Hall]. simpl. lra.
Qed.

Lemma sort_by_score_spec (d : pydict.dict R) :
  fold_right insert_by_score [] d ≡ₚ d /\
  StronglySorted by_score (fold_right insert_by_score [] d).
Proof.
  induction d as [|x d [IHp IHs]]; simpl; [split; [reflexivity|constructor]|].
  split.
  - rewrite insert_by_score_perm, IHp. reflexivity.
  - apply insert_by_score_sorted, IHs.
Qed.

Lemma sorted_prefix_rel {A} (rel : A -> A -> Prop) n (l : list A) :
  StronglySorted rel l ->
  StronglySorted rel (firstn n l) /\
  forall x y, In x (firstn n l) -> In y (skipn n l) -> rel x y.
Proof.
  intros Hsorted. revert n.
  induction Hsorted as [|z l Hsorted IH Hall]; intros n.
  - rewrite firstn_nil. split; [constructor|intros x y []].
  - destruct n as [|n]; simpl; [split; [constructor|intros x y []]|].
    destruct (IH n) as [IHs IHr]. rewrite Forall_forall in Hall. split.
    + constructor; [exact IHs|]. apply Forall_forall. intros x Hx.
      apply Hall. apply list_elem_of_In. apply list_elem_of_In in Hx.
      eapply in_firstn_incl, Hx.
    + intros x y [<-|Hx] Hy.
      * apply Hall, list_elem_of_In. eapply in_skipn_incl, Hy.
      * apply IHr; assumption.
Qed.

Lemma In_get_NoDup {V} (d : pydict.dict V) k v :
  NoDup (pydict.keys d) -> In (k, v) d -> pydict.get d k = Some v.
Proof.
  induction d as [|[k' v'] d IH]; simpl; [tauto|].
  intros Hnd Hin. apply NoDup_cons in Hnd as [Hk Hnd].
  destruct (String.eqb_spec k' k) as [->|Hne].
  - destruct Hin as [[= ->]|Hin]; [reflexivity|].
    exfalso. apply Hk, list_elem_of_In. unfold pydict.keys.
    apply in_map_iff. exists (k, v). auto.
  - destruct Hin as [[= -> ->]|Hin]; [congruence|]. apply IH; assumption.
Qed.

Lemma landuse_of_weighted x : weighted x <-> exists g, landuse_of x = Some g.
Proof.
  unfold weighted, landuse_of.
  destruct (_primary_type (POI.types (fst x))); split.
  - eauto.
  - discriminate.
  - congruence.
  - intros [g H]. discriminate.
Qed.

Lemma landuse_step s x :
  NoDup (pydict.keys (landuse_scores s)) ->
  NoDup (pydict.keys (landuse_scores (score_step s x))) /\
  (forall g, In g (pydict.keys (landuse_scores (score_step s x))) <->
             In g (pydict.keys (landuse_scores s)) \/ landuse_of x = Some g) /\
  (forall g, default 0 (pydict.get (landuse_scores (score_step s x)) g) =
             default 0 (pydict.get (landuse_scores s) g)
             + (if decide (landuse_of x = Some g) then base_weight_of x else 0)).
Proof.
  intros Hnd. unfold score_step, landuse_of, base_weight_of.
  rewrite weighting_type_primary.
  destruct (_primary_type (POI.types (fst x))) as [t|].
  - cbn [landuse_scores]. unfold pydict.add_to.
    set (lu := default "other"%string (pydict.get config.TYPE_TO_LANDUSE t)).
    set (bw := default 1 (pydict.get config.TYPE_IMPORTANCE t) * _ * _).
    split; [apply keys_setitem_NoDup, Hnd|]. split.
    + intros g. rewrite keys_setitem_incl. split; intros [H|H]; auto.
      * right. congruence.
      * right. congruence.
    + intros g. destruct (string_dec lu g) as [<-|Hne].
      * rewrite get_setitem_eq, decide_True by reflexivity.
        destruct (pydict.get (landuse_scores s) lu); reflexivity.
      * rewrite get_setitem_ne, decide_False by congruence. lra.
  - split; [exact Hnd|]. split.
    + intros g. split; [auto|]. intros [H|H]; [exact H|discriminate].
    + intros g. rewrite decide_False by discriminate. lra.
Qed.

Lemma landuse_loop l : forall s,
  NoDup (pydict.keys (landuse_scores s)) ->
  let s' := fold_left score_step l s in
  NoDup (pydict.keys (landuse_scores s')) /\
  (forall g, In g (pydict.keys (landuse_scores s')) <->
             In g (pydict.keys (landuse_scores s)) \/
             exists x, In x l /\ landuse_of x = Some g) /\
  (forall g, default 0 (pydict.get (landuse_scores s') g) =
             default 0 (pydict.get (landuse_scores s) g) + raw_landuse_score l g).
Proof.
  induction l as [|x l IH]; intros s Hnd; simpl.
  - split; [exact Hnd|]. split.
    + intros g. split; [auto|]. intros [H|(x & [] & _)]. exact H.
    + intros g. lra.
  - destruct (landuse_step s x Hnd) as (Hnd1 & Hk1 & Hv1).
    destruct (IH (score_step s x) Hnd1) as (Hnd2 & Hk2 & Hv2).
    split; [exact Hnd2|]. split.
    + intros g. rewrite Hk2, Hk1. split.
      * intros [[H|H]|(y & Hy & Hg)]; eauto.
      * intros [H|(y & [<-|Hy] & Hg)]; eauto.
    + intros g. rewrite Hv2, Hv1. destruct (decide (landuse_of x = Some g)); lra.
Qed.

Lemma raw_landuse_score_perm l1 l2 g :
  l1 ≡ₚ l2 -> raw_landuse_score l1 g = raw_landuse_score l2 g.
Proof.
  unfold raw_landuse_score.
  induction 1 as [|x l1 l2 Hp IH|x y l|l1 l2 l3 Hp1 IH1 Hp2 IH2]; simpl.
  - reflexivity.
  - rewrite IH. reflexivity.
  - destruct (decide (landuse_of y = Some g)), (decide (landuse_of x = Some g)); lra.
  - congruence.
Qed.

(** [geographic_attributes] are the top three land-use tags by raw
    score: at most three distinct tags, each the land use of some
    weighted POI of the list, in descending order of raw score; a land use
    of a weighted POI is left out only when three tags with at least its
    raw score are listed; the list is empty exactly when no POI is
    weighted. *)
Theorem geo_attrs_ranked (gp : grid.GridPoint) (pois : list (POI.t * R)) :
  let geo := geographic_attributes (compute_profile gp pois) in
  (length geo <= 3)%nat /\
  NoDup geo /\
  (forall g, In g geo -> exists x, In x pois /\ landuse_of x = Some g) /\
  StronglySorted
    (fun a b => raw_landuse_score pois b <= raw_landuse_score pois a) geo /\
  (forall x g', In x pois -> landuse_of x = Some g' -> ~ In g' geo ->
     length geo = 3%nat /\
     forall g, In g geo -> raw_landuse_score pois g' <= raw_landuse_score pois g) /\
  (geo = [] <-> Forall (fun x => ~ weighted x) pois).
Proof.
  unfold compute_profile. cbn [geographic_attributes].
  set (sorted := sort_by_distance pois).
  pose proof (sort_by_distance_perm pois) as Hperm. fold sorted in Hperm.
  destruct (landuse_loop sorted empty_scores NoDup_nil_2) as (Hnd & Hkeys & Hval).
  set (d := landuse_scores (fold_left score_step sorted empty_scores)) in *.
  cbn [landuse_scores empty_scores pydict.keys map pydict.get default] in Hkeys, Hval.
  assert (Hgeo : match d with [] => [] | _ :: _ => firstn 3 (sorted_desc d) end
                 = firstn 3 (sorted_desc d)) by (destruct d; reflexivity).
  rewrite Hgeo. clear Hgeo. unfold sorted_desc.
  destruct (sort_by_score_spec d) as [HLp HLs].
  set (L := fold_right insert_by_score [] d) in *.
  (* every entry of the sorted list carries the raw score of its tag *)
  assert (Hraw : forall kv, In kv L -> snd kv = raw_landuse_score pois (fst kv)).
  { intros [g v] Hin. simpl.
    assert (Hd : In (g, v) d).
    { apply list_elem_of_In. rewrite <- HLp. apply list_elem_of_In, Hin. }
    pose proof (In_get_NoDup d g v Hnd Hd) as Hget.
    specialize (Hval g). rewrite Hget in Hval. simpl in Hval.
    rewrite (raw_landuse_score_perm _ _ g Hperm) in Hval. lra. }
  assert (HkeysL : forall g, In g (map fst L) <->
                             exists x, In x pois /\ landuse_of x = Some g).
  { intros g. transitivity (In g (pydict.keys d)).
    - unfold pydict.keys. split; intros H; apply list_elem_of_In;
        apply list_elem_of_In in H; [rewrite <- HLp|rewrite HLp]; exact H.
    - rewrite Hkeys. split.
      + intros [[]|(x & Hx & Hg)]. exists x. split; [|exact Hg].
        apply list_elem_of_In. rewrite <- Hperm. apply list_elem_of_In, Hx.
      + intros (x & Hx & Hg). right. exists x. split; [|exact Hg].
        apply list_elem_of_In. rewrite Hperm. apply list_elem_of_In, Hx. }
  assert (HndL : NoDup (map fst L)).
  { unfold pydict.keys in Hnd. rewrite HLp. exact Hnd. }
  destruct (sorted_prefix_rel by_score 3 L HLs) as [Hpre Hrest].
  rewrite firstn_map.
  split; [rewrite length_map, length_firstn; lia|].
  split.
  { rewrite <- firstn_map. rewrite <- (firstn_skipn 3 (map fst L)) in HndL.
    apply NoDup_app in HndL. tauto. }
  split.
  { intros g Hg. apply HkeysL. rewrite <- firstn_map in Hg.
    eapply in_firstn_incl, Hg. }
  split.
  { assert (Hsub : forall kv, In kv (firstn 3 L) -> In kv L).
    { intros kv. apply in_firstn_incl. }
    clear - Hpre Hsub Hraw. induction Hpre as [|z l Hs IH Hall]; simpl; constructor.
    - apply IH. intros kv Hkv. apply Hsub. right. exact Hkv.
    - rewrite Forall_forall in Hall. apply Forall_forall. intros g Hg.
      apply list_elem_of_In, in_map_iff in Hg as (kv & <- & Hkv).
      rewrite <- (Hraw z) by (apply Hsub; left; reflexivity).
      rewrite <- (Hraw kv) by (apply Hsub; right; exact Hkv).
      apply Hall, list_elem_of_In, Hkv. }
  split.
  { intros x g' Hx Hg' Hnot.
    assert (Hin : In g' (map fst L)) by (apply HkeysL; eauto).
    apply in_map_iff in Hin as (kv' & Hfst & Hkv').
    assert (Hskip : In kv' (skipn 3 L)).
    { rewrite <- (firstn_skipn 3 L) in Hkv'. apply in_app_or in Hkv' as [Hf|Hs];
        [|exact Hs].
      exfalso. apply Hnot. apply in_map_iff. exists kv'. auto. }
    split.
    - rewrite length_map, length_firstn.
      assert (3 < length L)%nat; [|lia].
      destruct (Nat.lt_ge_cases 3 (length L)) as [Hlt|Hge]; [exact Hlt|].
      rewrite skipn_all2 in Hskip by exact Hge. destruct Hskip.
    - intros g Hg. apply in_map_iff in Hg as (kv & <- & Hkv).
      rewrite <- Hfst.
      rewrite <- (Hraw kv') by (eapply in_skipn_incl, Hskip).
      rewrite <- (Hraw kv) by (eapply in_firstn_incl, Hkv).
      apply (Hrest kv kv' Hkv Hskip). }
  split.
  - intros Hnil. apply Forall_forall. intros x Hx Hw.
    apply landuse_of_weighted in Hw as [g Hg].
    assert (Hin : In g (map fst L)).
    { apply HkeysL. exists x. split; [apply list_elem_of_In, Hx|exact Hg]. }
    destruct L as [|kv L']; [destruct Hin|]. discriminate Hnil.
  - intros Hall. destruct L as [|kv L'] eqn:EL; [reflexivity|]. exfalso.
    assert (Hin : In (fst kv) (map fst (kv :: L'))) by (left; reflexivity).
    apply HkeysL in Hin as (x & Hx & Hg).
    rewrite Forall_forall in Hall. apply (Hall x (proj2 (list_elem_of_In _ _) Hx)).
    apply landuse_of_weighted. eauto.
Qed.

End LandUse.

(* ===================================================================== *)
(** ** Offsets and distances of [grid.py] *)
(* ===================================================================== *)

Section GeoMath.
Import geo_spec.
Local Open Scope R_scope.

Lemma asin_nonneg (x : R) : 0 <= x -> 0 <= asin x.
Proof.
  intros Hx. destruct (Rle_dec x 1) as [H1|H1].
  - pose proof (asin_ge x (conj Hx H1)). lra.
  - unfold asin. destruct (Rle_dec x (-1)); [lra|].
    destruct (Rle_dec 1 x); [|lra]. pose proof PI_bounds. lra.
Qed.

Lemma hav_sym lat1 lon1 lat2 lon2 :
  hav lat1 lon1 lat2 lon2 = hav lat2 lon2 lat1 lon1.
Proof.
  unfold hav, grid.radians.
  replace ((lat2 - lat1) * (PI / 180) / 2) with (- ((lat1 - lat2) * (PI / 180) / 2))
    by lra.
  replace ((lon2 - lon1) * (PI / 180) / 2) with (- ((lon1 - lon2) * (PI / 180) / 2))
    by lra.
  rewrite !sin_neg. ring.
Qed.

(** [haversine]: zero from a point to itself, symmetric, never negative
    and never more than half the circumference [PI * R]. *)
Theorem haversine_basics (lat1 lon1 lat2 lon2 : R) :
  grid.haversine lat1 lon1 lat1 lon1 = 0 /\
  grid.haversine lat1 lon1 lat2 lon2 = grid.haversine lat2 lon2 lat1 lon1 /\
  0 <= grid.haversine lat1 lon1 lat2 lon2 <= PI * grid.R_earth.
Proof.
  pose proof R_earth_pos as HR. repeat split.
  - rewrite haversine_unfold. unfold hav.
    replace (lat1 - lat1) with 0 by lra. replace (lon1 - lon1) with 0 by lra.
    rewrite radians_0. replace (0 / 2) with 0 by lra. rewrite sin_0.
    replace (0 ^ 2 + _ * 0 ^ 2) with 0 by ring.
    rewrite sqrt_0, asin_0. ring.
  - rewrite !haversine_unfold, hav_sym. reflexivity.
  - rewrite haversine_unfold.
    pose proof (asin_nonneg _ (sqrt_pos (hav lat1 lon1 lat2 lon2))).
    apply Rmult_le_pos; lra.
  - rewrite haversine_unfold.
    pose proof (asin_bound (sqrt (hav lat1 lon1 lat2 lon2))) as [_ Hb].
    nra.
Qed.

(** The sine is concave on [[0, PI]]: scaling the angle down by [c]
    scales the sine down by no more than [c]. *)
Lemma sin_scale_concave (c u : R) :
  0 <= c <= 1 -> 0 <= u <= PI -> c * sin u <= sin (c * u).
Proof.
  intros Hc Hu. pose proof PI_bounds as HPI.
  set (f := (comp sin (mult_real_fct c id) - mult_real_fct c sin)%F).
  assert (Hlim : forall x, derivable_pt_lim f x (cos (c * x) * (c * 1) - c * cos x)).
  { intros x. unfold f. apply derivable_pt_lim_minus.
    - apply derivable_pt_lim_comp.
      + apply derivable_pt_lim_scal, derivable_pt_lim_id.
      + apply derivable_pt_lim_sin.
    - apply derivable_pt_lim_scal, derivable_pt_lim_sin. }
  assert (pr : derivable f).
  { intros x. exists (cos (c * x) * (c * 1) - c * cos x). apply Hlim. }
  assert (Hf : forall x, f x = sin (c * x) - c * sin x) by reflexivity.
  destruct (Req_dec_T u 0) as [->|Hu0].
  { rewrite Rmult_0_r, sin_0. lra. }
  pose proof (derive_increasing_interv_var 0 PI f pr ltac:(lra)) as Hmono.
  assert (Hd : forall t, 0 < t < PI -> 0 <= derive_pt f t (pr t)).
  { intros t Ht. rewrite (derive_pt_eq_0 f t _ (pr t) (Hlim t)).
    assert (Hcos : cos t <= cos (c * t)) by (apply cos_decr_1; nra).
    nra. }
  specialize (Hmono Hd 0 u ltac:(lra) ltac:(lra) ltac:(lra)).
  rewrite !Hf in Hmono. rewrite Rmult_0_r, sin_0 in Hmono. lra.
Qed.

(** Moving north by [dy] meters (no more than half the circumference)
    keeps the longitude and puts the new point at haversine distance
    exactly [|dy|]. *)
Theorem offset_north_distance (lat lon dy : R) :
  Rabs dy <= PI * grid.R_earth ->
  let p := grid.offset_point lat lon 0 dy in
  snd p = lon /\
  grid.haversine lat lon (fst p) (snd p) = Rabs dy.
Proof.
  intros Hdy. pose proof PI_bounds as HPI. pose proof R_earth_pos as HR.
  unfold grid.offset_point. cbn [fst snd].
  assert (Hlon : lon + 0 / (grid.R_earth * cos (grid.radians lat)) * (180 / PI) = lon).
  { unfold Rdiv. ring. }
  rewrite Hlon. split; [reflexivity|].
  rewrite haversine_unfold. unfold hav.
  replace (lon - lon) with 0 by lra. rewrite radians_0.
  replace (0 / 2) with 0 by lra. rewrite sin_0.
  set (th := dy / (2 * grid.R_earth)).
  assert (Hth : grid.radians (lat + dy / grid.R_earth * (180 / PI) - lat) / 2 = th).
  { unfold th, grid.radians. field. lra. }
  rewrite Hth.
  replace (sin th ^ 2 + _ * 0 ^ 2) with (Rsqr (sin th)) by (unfold Rsqr; ring).
  rewrite sqrt_Rsqr_abs.
  assert (Habs : Rabs th = Rabs dy / (2 * grid.R_earth)).
  { unfold th, Rdiv. rewrite Rabs_mult, (Rabs_pos_eq (/ (2 * grid.R_earth))).
    - reflexivity.
    - left. apply Rinv_0_lt_compat. lra. }
  assert (Hbound : 0 <= Rabs th <= PI / 2).
  { rewrite Habs. split.
    - apply Rmult_le_pos; [apply Rabs_pos|left; apply Rinv_0_lt_compat; lra].
    - apply Rmult_le_reg_r with (2 * grid.R_earth); [lra|].
      unfold Rdiv at 1. rewrite Rmult_assoc, Rinv_l by lra. lra. }
  rewrite <- sin_abs by lra. rewrite asin_sin by lra.
  rewrite Habs. field. lra.
Qed.

Lemma offset_north_distance_witness :
  grid.haversine (28408 / 1000) (77041 / 1000)
    (fst (grid.offset_point (28408 / 1000) (77041 / 1000) 0 200))
    (snd (grid.offset_point (28408 / 1000) (77041 / 1000) 0 200)) = Rabs 200.
Proof.
  apply (offset_north_distance (28408 / 1000) (77041 / 1000) 200).
  pose proof PI_bounds. rewrite Rabs_pos_eq by lra.
  unfold grid.R_earth. nra.
Defined.

(** Moving east by [dx] meters keeps the latitude; the haversine
    distance to the new point is at most [dx] and falls short of it by no
    more than the cubic term of the sine. *)
Theorem offset_east_distance (lat lon dx : R) :
  -90 < lat < 90 ->
  0 <= dx <= 2 * grid.R_earth * cos (grid.radians lat) ->
  let p := grid.offset_point lat lon dx 0 in
  let u := dx / (2 * grid.R_earth * cos (grid.radians lat)) in
  fst p = lat /\
  dx * (1 - u ^ 2 / 6) <= grid.haversine lat lon (fst p) (snd p) <= dx.
Proof.
  intros Hlat Hdx. pose proof PI_bounds as HPI. pose proof R_earth_pos as HR.
  unfold grid.offset_point. cbn [fst snd].
  set (c := cos (grid.radians lat)) in *.
  assert (Hc : 0 < c <= 1).
  { split; [|apply COS_bound]. unfold c, grid.radians. apply cos_gt_0; nra. }
  assert (Hl : lat + 0 / grid.R_earth * (180 / PI) = lat) by (unfold Rdiv; ring).
  rewrite Hl. split; [reflexivity|].
  set (u := dx / (2 * grid.R_earth * c)).
  assert (Hu : 0 <= u <= 1).
  { unfold u. split.
    - apply Rmult_le_pos; [lra|left; apply Rinv_0_lt_compat; nra].
    - apply Rmult_le_reg_r with (2 * grid.R_earth * c); [nra|].
      unfold Rdiv. rewrite Rmult_assoc, Rinv_l by nra. lra. }
  assert (Hdxu : dx = 2 * grid.R_earth * (c * u)) by (unfold u; field; nra).
  rewrite haversine_unfold. unfold hav.
  replace (lat - lat) with 0 by lra. rewrite radians_0.
  replace (0 / 2) with 0 by lra. rewrite sin_0. fold c.
  assert (Hlam : grid.radians (lon + dx / (grid.R_earth * c) * (180 / PI) - lon) / 2 = u).
  { unfold u, grid.radians. field. repeat split; lra. }
  rewrite Hlam.
  assert (Hsin : 0 <= sin u <= 1).
  { split; [apply sin_ge_0; lra|apply SIN_bound]. }
  replace (0 ^ 2 + c * c * sin u ^ 2) with ((c * sin u) ^ 2) by ring.
  assert (Hz : 0 <= c * sin u <= 1) by nra.
  rewrite sqrt_pow2 by lra. split.
  - pose proof (asin_ge _ Hz) as Has. pose proof (sin_lower u Hu) as Hlow.
    assert (Hcu : c * (u - u ^ 3 / 6) <= asin (c * sin u)) by nra.
    rewrite Hdxu at 1.
    replace (2 * grid.R_earth * (c * u) * (1 - u ^ 2 / 6))
      with (2 * grid.R_earth * (c * (u - u ^ 3 / 6))) by (unfold Rdiv; ring).
    apply Rmult_le_compat_l; lra.
  - rewrite Hdxu at 1. apply Rmult_le_compat_l; [lra|].
    apply asin_le_angle; [nra|]. split; [lra|].
    apply sin_scale_concave; lra.
Qed.

Lemma offset_east_distance_witness :
  199 <= grid.haversine (28408 / 1000) (77041 / 1000)
           (fst (grid.offset_point (28408 / 1000) (77041 / 1000) 200 0))
           (snd (grid.offset_point (28408 / 1000) (77041 / 1000) 200 0)) <= 200.
Proof.
  assert (Hc : 1 / 2 <= cos (grid.radians (28408 / 1000)) <= 1).
  { split; [apply cos_latitude_half; lra|apply COS_bound]. }
  destruct (offset_east_distance (28408 / 1000) (77041 / 1000) 200) as [_ [Hlo Hhi]].
  - lra.
  - unfold grid.R_earth. nra.
  - split; [|exact Hhi].
    set (c := cos (grid.radians (28408 / 1000))) in *.
    set (u := 200 / (2 * grid.R_earth * c)) in *.
    assert (Hu : 0 <= u <= 1 / 10000).
    { unfold u, grid.R_earth. split.
      - apply Rmult_le_pos; [lra|left; apply Rinv_0_lt_compat; nra].
      - apply Rmult_le_reg_r with (2 * 6378137 * c); [nra|].
        unfold Rdiv. rewrite Rmult_assoc, Rinv_l by nra. nra. }
    assert (u ^ 2 <= 1 / 100000000) by nra.
    lra.
Defined.

End GeoMath.

(* ===================================================================== *)
(** ** Grid generation *)
(* ===================================================================== *)

Section GridIds.

Local Abbreviation underscore_free s :=
  (Forall (fun c => c <> "_"%char) (list_ascii_of_string s)).

Lemma string_of_uint_underscore_free d :
  underscore_free (NilEmpty.string_of_uint d).
Proof.
  induction d; simpl; constructor; try exact IHd; discriminate.
Qed.

Lemma string_of_uint_inj d d' :
  NilEmpty.string_of_uint d = NilEmpty.string_of_uint d' -> d = d'.
Proof.
  intros H. apply (f_equal NilEmpty.uint_of_string) in H.
  rewrite !NilEmpty.usu in H. congruence.
Qed.

Lemma str_of_nat_inj n m : grid.str_of_nat n = grid.str_of_nat m -> n = m.
Proof.
  unfold grid.str_of_nat. intros H.
  apply Unsigned.to_uint_inj, string_of_uint_inj, H.
Qed.

(** Two texts without underscore, each followed by an underscore and a
    rest, agree as wholes only if they agree part by part. *)
Lemma split_at_underscore (a a' b b' : string) :
  underscore_free a -> underscore_free a' ->
  (a ++ String "_" b)%string = (a' ++ String "_" b')%string ->
  a = a' /\ b = b'.
Proof.
  revert a'. induction a as [|c a IH]; intros [|c' a'] Ha Ha' Heq; simpl in *.
  - injection Heq as ->. auto.
  - injection Heq as <- _. apply Forall_cons in Ha' as [Hc _]. congruence.
  - injection Heq as -> _. apply Forall_cons in Ha as [Hc _]. congruence.
  - injection Heq as -> Heq.
    apply Forall_cons in Ha as [_ Ha]. apply Forall_cons in Ha' as [_ Ha'].
    destruct (IH a' Ha Ha' Heq) as [-> ->]. auto.
Qed.

Lemma point_id_inj i j i' j' :
  grid.point_id i j = grid.point_id i' j' -> i = i' /\ j = j'.
Proof.
  unfold grid.point_id. simpl. intros [= Heq].
  apply split_at_underscore in Heq as [Hi Hj];
    try apply string_of_uint_underscore_free.
  split; apply str_of_nat_inj; assumption.
Qed.

End GridIds.

Section GridLayout.
Local Open Scope nat_scope.

(** Row-major indexing of a list built row by row. *)
Lemma nth_error_rows {A} (f : nat -> nat -> A) (n m : nat) : forall a k i,
  i < n -> k < m ->
  nth_error (flat_map (fun j => map (fun i => f i j) (seq 0 n)) (seq a m))
    (k * n + i) = Some (f i (a + k)).
Proof.
  induction m as [|m IH]; intros a k i Hi Hk; [lia|]. simpl.
  destruct k as [|k].
  - rewrite nth_error_app1 by (rewrite length_map, length_seq; lia).
    simpl. rewrite nth_error_map, nth_error_seq.
    destruct (Nat.ltb_spec i n); [|lia]. simpl. f_equal. f_equal. lia.
  - rewrite nth_error_app2 by (rewrite length_map, length_seq; simpl; lia).
    rewrite length_map, length_seq.
    replace (S k * n + i - n) with (k * n + i) by (simpl; lia).
    rewrite IH by lia. f_equal. f_equal. lia.
Qed.

Lemma length_rows {A} (f : nat -> nat -> A) (n m a : nat) :
  length (flat_map (fun j => map (fun i => f i j) (seq 0 n)) (seq a m)) = m * n.
Proof.
  revert a. induction m as [|m IH]; intros a; simpl; [reflexivity|].
  rewrite length_app, length_map, length_seq, IH. reflexivity.
Qed.

Lemma In_rows {A} (f : nat -> nat -> A) (n m : nat) (x : A) :
  In x (flat_map (fun j => map (fun i => f i j) (seq 0 n)) (seq 0 m)) <->
  exists i j, i < n /\ j < m /\ x = f i j.
Proof.
  rewrite in_flat_map. split.
  - intros (j & Hj & Hx). apply in_map_iff in Hx as (i & <- & Hi).
    apply in_seq in Hj, Hi. exists i, j. repeat split; lia.
  - intros (i & j & Hi & Hj & ->). exists j. split; [apply in_seq; lia|].
    apply in_map_iff. exists i. split; [reflexivity|apply in_seq; lia].
Qed.

(** [generate_grid] returns [size_x * size_y] points (none for a
    non-positive size) in row-major order: the point at index
    [j * size_x + i] is the one with indices [(i, j)], id ["g_i_j"], at
    the offset [(i * spacing, j * spacing)] from the origin; no two points
    share an id. *)
Theorem generate_grid_layout (origin_lat origin_lon : R) (size_x size_y : Z)
    (spacing_m : R) :
  let points := grid.generate_grid origin_lat origin_lon size_x size_y spacing_m in
  let nx := Z.to_nat size_x in
  let ny := Z.to_nat size_y in
  length points = ny * nx /\
  (forall i j, i < nx -> j < ny ->
     nth_error points (j * nx + i)
       = Some (grid.grid_point_at origin_lat origin_lon spacing_m i j)) /\
  (forall p, In p points <->
     exists i j, i < nx /\ j < ny /\
       p = grid.grid_point_at origin_lat origin_lon spacing_m i j) /\
  NoDup (map grid.id points).
Proof.
  intros points nx ny. unfold points, grid.generate_grid. fold nx ny.
  split; [apply length_rows|]. split.
  { intros i j Hi Hj.
    apply (nth_error_rows (grid.grid_point_at origin_lat origin_lon spacing_m)
             nx ny 0 j i Hi Hj). }
  split.
  { intros p. apply (In_rows (grid.grid_point_at origin_lat origin_lon spacing_m)). }
  apply NoDup_ListNoDup, NoDup_nth_error. intros a b La Hab.
  rewrite length_map, length_rows in La.
  assert (Hnx : 0 < nx) by (destruct nx; lia).
  assert (Hidx : forall c, c < ny * nx ->
             nth_error
               (flat_map (fun j => map (fun i => grid.grid_point_at origin_lat
                                                 origin_lon spacing_m i j)
                                    (seq 0 nx)) (seq 0 ny)) c
             = Some (grid.grid_point_at origin_lat origin_lon spacing_m
                       (c mod nx) (c / nx))).
  { intros c Hc. rewrite (Nat.div_mod_eq c nx) at 1.
    rewrite (Nat.mul_comm nx (c / nx)).
    apply (nth_error_rows (grid.grid_point_at origin_lat origin_lon spacing_m)
             nx ny 0 (c / nx) (c mod nx)).
    - apply Nat.mod_upper_bound. lia.
    - apply Nat.Div0.div_lt_upper_bound. lia. }
  assert (Lb : b < ny * nx).
  { destruct (Nat.lt_ge_cases b (ny * nx)) as [H|H]; [exact H|].
    rewrite !nth_error_map, (Hidx a La) in Hab.
    rewrite (proj2 (nth_error_None _ b)) in Hab; [discriminate|].
    rewrite length_rows. exact H. }
  rewrite !nth_error_map, (Hidx a La), (Hidx b Lb) in Hab.
  cbn [option_map grid.grid_point_at grid.id] in Hab.
  assert (Hid : grid.point_id (a mod nx) (a / nx) = grid.point_id (b mod nx) (b / nx))
    by congruence.
  apply point_id_inj in Hid as [Hmod Hdiv].
  rewrite (Nat.div_mod_eq a nx), (Nat.div_mod_eq b nx). congruence.
Qed.

End GridLayout.

(* ===================================================================== *)
(** ** Geometry of the generated grid *)
(* ===================================================================== *)

Section GridGeometry.
Import geo_spec.
Local Open Scope R_scope.

(** Along a meridian the haversine distance is the arc of the latitude
    difference. *)
Lemma haversine_meridian lat1 lat2 lon :
  Rabs (lat2 - lat1) <= 180 ->
  grid.haversine lat1 lon lat2 lon
    = grid.R_earth * Rabs (grid.radians (lat2 - lat1)).
Proof.
  intros Hd. pose proof PI_bounds as HPI. pose proof R_earth_pos as HR.
  rewrite haversine_unfold. unfold hav.
  replace (lon - lon) with 0 by lra. rewrite radians_0.
  replace (0 / 2) with 0 by lra. rewrite sin_0.
  set (th := grid.radians (lat2 - lat1) / 2).
  replace (sin th ^ 2 + _ * 0 ^ 2) with (Rsqr (sin th)) by (unfold Rsqr; ring).
  rewrite sqrt_Rsqr_abs.
  assert (Habs : Rabs th = Rabs (lat2 - lat1) * (PI / 360))
    by apply Rabs_half_radians.
  assert (Hbound : 0 <= Rabs th <= PI / 2).
  { rewrite Habs. pose proof (Rabs_pos (lat2 - lat1)). split; nra. }
  rewrite <- sin_abs by lra. rewrite asin_sin by lra.
  rewrite Habs. unfold grid.radians.
  rewrite Rabs_mult, (Rabs_pos_eq (PI / 180)) by lra. lra.
Qed.

(** Along a parallel the haversine distance is the chord formula with the
    cosine of the latitude. *)
Lemma haversine_parallel lat lon1 lon2 :
  -90 <= lat <= 90 -> 0 <= lon2 - lon1 <= 360 ->
  grid.haversine lat lon1 lat lon2
    = 2 * grid.R_earth
      * asin (cos (grid.radians lat) * sin (grid.radians (lon2 - lon1) / 2)).
Proof.
  intros Hlat Hlon. pose proof PI_bounds as HPI.
  pose proof (cos_latitude_nonneg lat Hlat) as Hc.
  rewrite haversine_unfold. unfold hav.
  replace (lat - lat) with 0 by lra. rewrite radians_0.
  replace (0 / 2) with 0 by lra. rewrite sin_0.
  set (c := cos (grid.radians lat)) in *.
  set (u := grid.radians (lon2 - lon1) / 2).
  assert (Hu : 0 <= u <= PI) by (unfold u, grid.radians; nra).
  pose proof (sin_ge_0 u ltac:(lra) ltac:(lra)) as Hs.
  replace (0 ^ 2 + c * c * sin u ^ 2) with ((c * sin u) ^ 2) by ring.
  rewrite sqrt_pow2 by nra. reflexivity.
Qed.

(** ... which never exceeds the arc [R * cos lat * dlon]. *)
Lemma haversine_parallel_le lat lon1 lon2 :
  -90 <= lat <= 90 -> 0 <= lon2 - lon1 <= 360 ->
  grid.haversine lat lon1 lat lon2
    <= grid.R_earth * cos (grid.radians lat) * grid.radians (lon2 - lon1).
Proof.
  intros Hlat Hlon. pose proof PI_bounds as HPI. pose proof R_earth_pos as HR.
  pose proof (cos_latitude_nonneg lat Hlat) as Hc.
  pose proof (COS_bound (grid.radians lat)) as [_ Hc1].
  rewrite haversine_parallel by assumption.
  set (c := cos (grid.radians lat)) in *.
  set (u := grid.radians (lon2 - lon1) / 2).
  assert (Hu : 0 <= u <= PI) by (unfold u, grid.radians; nra).
  pose proof (sin_ge_0 u ltac:(lra) ltac:(lra)) as Hs.
  assert (Has : asin (c * sin u) <= c * u).
  { destruct (Rle_dec (c * u) (PI / 2)) as [Hcu|Hcu].
    - apply asin_le_angle.
      + split; [apply Rmult_le_pos; lra|exact Hcu].
      + split; [apply Rmult_le_pos; lra|].
        apply sin_scale_concave; lra.
    - pose proof (asin_bound (c * sin u)). lra. }
  replace (grid.radians (lon2 - lon1)) with (2 * u) by (unfold u; lra).
  nra.
Qed.

Lemma haversine_nonneg lat1 lon1 lat2 lon2 :
  0 <= grid.haversine lat1 lon1 lat2 lon2.
Proof.
  pose proof R_earth_pos as HR. rewrite haversine_unfold.
  pose proof (asin_nonneg _ (sqrt_pos (hav lat1 lon1 lat2 lon2))).
  apply Rmult_le_pos; lra.
Qed.

Lemma div_le_of_le_mul (a b k : R) : 0 < k -> a <= b * k -> a / k <= b.
Proof.
  intros Hk H. apply Rmult_le_reg_r with k; [exact Hk|].
  unfold Rdiv. rewrite Rmult_assoc, Rinv_l by lra. lra.
Qed.

Lemma div_lt_of_lt_mul (a b k : R) : 0 < k -> a < b * k -> a / k < b.
Proof.
  intros Hk H. apply Rmult_lt_reg_r with k; [exact Hk|].
  unfold Rdiv. rewrite Rmult_assoc, Rinv_l by lra. lra.
Qed.

(** [int(x) + 1] counts the multiples [0, 1, ..., floor x] of the
    spacing that fit into a non-negative length. *)
Lemma py_int_nonneg (x : R) : 0 <= x -> grid.py_int x = Zfloor x.
Proof. intros Hx. unfold grid.py_int. destruct (Rle_dec 0 x); [reflexivity|lra]. Qed.

Lemma index_below_size (x : R) (n : nat) :
  0 <= x -> (n < Z.to_nat (grid.py_int x + 1))%nat -> INR n <= x.
Proof.
  intros Hx Hn. rewrite py_int_nonneg in Hn by exact Hx.
  pose proof (Zfloor_bound x) as [Hlo _].
  assert (Hz : (Z.of_nat n <= Zfloor x)%Z) by lia.
  apply IZR_le in Hz. rewrite <- INR_IZR_INZ in Hz. lra.
Qed.

Lemma last_index_of_size (x : R) :
  0 <= x ->
  let n := Z.to_nat (grid.py_int x) in
  (n < Z.to_nat (grid.py_int x + 1))%nat /\ x - 1 < INR n.
Proof.
  intros Hx n. unfold n. rewrite py_int_nonneg by exact Hx.
  pose proof (Zfloor_bound x) as [Hlo Hhi].
  assert (Hz : (0 <= Zfloor x)%Z) by (apply Zfloor_lub; simpl; lra).
  split; [lia|].
  rewrite INR_IZR_INZ, Z2Nat.id by exact Hz. lra.
Qed.

(** [generate_grid_from_bbox] with a positive spacing, on a box whose
    south edge is away from the poles: the call returns a grid whose first
    point [g_0_0] is the south-west corner, all of whose points lie inside
    the box, and whose top row is less than one spacing (as an arc of the
    meridian) below the north edge. *)
Theorem grid_from_bbox_inside (south north west east spacing_m : R) :
  0 < spacing_m ->
  -90 < south < 90 ->
  south <= north <= south + 180 ->
  west <= east <= west + 360 ->
  exists points,
    grid.generate_grid_from_bbox south north west east spacing_m = Some points /\
    nth_error points 0 = Some (grid.mk_GridPoint "g_0_0" 0 0 south west) /\
    Forall (fun p => south <= grid.lat p <= north /\ west <= grid.lon p <= east)
      points /\
    exists p, In p points /\
      grid.R_earth * grid.radians (north - grid.lat p) < spacing_m.
Proof.
  intros Hs Hsouth Hnorth Heast.
  pose proof PI_bounds as HPI. pose proof R_earth_pos as HR.
  unfold grid.generate_grid_from_bbox.
  destruct (Req_dec_T spacing_m 0) as [Hz|_]; [lra|].
  set (width_m := grid.haversine south west south east).
  set (height_m := grid.haversine south west north west).
  assert (Hw0 : 0 <= width_m / spacing_m).
  { apply Rmult_le_pos; [apply haversine_nonneg|].
    left. apply Rinv_0_lt_compat. exact Hs. }
  assert (Hh0 : 0 <= height_m / spacing_m).
  { apply Rmult_le_pos; [apply haversine_nonneg|].
    left. apply Rinv_0_lt_compat. exact Hs. }
  assert (Hheight : height_m = grid.R_earth * ((north - south) * (PI / 180))).
  { unfold height_m. rewrite haversine_meridian by (rewrite Rabs_pos_eq; lra).
    unfold grid.radians. rewrite Rabs_pos_eq by nra. reflexivity. }
  set (c := cos (grid.radians south)).
  assert (Hc : 0 < c).
  { unfold c, grid.radians. apply cos_gt_0; nra. }
  assert (Hwidth : width_m <= grid.R_earth * c * ((east - west) * (PI / 180))).
  { unfold width_m, c. apply haversine_parallel_le; lra. }
  set (nx := Z.to_nat (grid.py_int (width_m / spacing_m) + 1)).
  set (ny := Z.to_nat (grid.py_int (height_m / spacing_m) + 1)).
  destruct (last_index_of_size _ Hw0) as [Hnx _]. fold nx in Hnx.
  destruct (last_index_of_size _ Hh0) as [Hny Htop]. fold ny in Hny.
  set (jmax := Z.to_nat (grid.py_int (height_m / spacing_m))) in *.
  assert (Hnx_pos : (0 < nx)%nat) by lia.
  assert (Hny_pos : (0 < ny)%nat) by lia.
  eexists. split; [reflexivity|]. unfold grid.generate_grid. fold nx ny.
  split; [|split].
  - pose proof (nth_error_rows (grid.grid_point_at south west spacing_m)
                  nx ny 0 0 0 Hnx_pos Hny_pos) as H0.
    cbn [Nat.mul Nat.add] in H0. rewrite H0.
    unfold grid.grid_point_at, grid.offset_point. cbn [fst snd INR Nat.add].
    f_equal. f_equal; unfold Rdiv; ring.
  - apply List.Forall_forall. intros p Hp.
    apply (In_rows (grid.grid_point_at south west spacing_m)) in Hp
      as (i & j & Hi & Hj & ->).
    unfold grid.grid_point_at, grid.offset_point. cbn [grid.lat grid.lon fst snd].
    fold c.
    pose proof (index_below_size _ i Hw0 Hi) as Hii.
    pose proof (index_below_size _ j Hh0 Hj) as Hjj.
    pose proof (pos_INR i) as Hi0. pose proof (pos_INR j) as Hj0.
    assert (Ha : INR i * spacing_m <= width_m).
    { replace width_m with (width_m / spacing_m * spacing_m) by (field; lra).
      apply Rmult_le_compat_r; lra. }
    assert (Hb : INR j * spacing_m <= height_m).
    { replace height_m with (height_m / spacing_m * spacing_m) by (field; lra).
      apply Rmult_le_compat_r; lra. }
    assert (Ha0 : 0 <= INR i * spacing_m) by (apply Rmult_le_pos; lra).
    assert (Hb0 : 0 <= INR j * spacing_m) by (apply Rmult_le_pos; lra).
    set (a := INR i * spacing_m) in *. set (b := INR j * spacing_m) in *.
    assert (Hlat1 : 0 <= b / grid.R_earth * (180 / PI)).
    { apply Rmult_le_pos; [apply Rmult_le_pos; [lra|]|].
      - left. apply Rinv_0_lt_compat. lra.
      - apply Rmult_le_pos; [lra|]. left. apply Rinv_0_lt_compat. lra. }
    assert (Hlat2 : b / grid.R_earth * (180 / PI) <= north - south).
    { replace (b / grid.R_earth * (180 / PI))
        with (b / (grid.R_earth * (PI / 180))) by (field; lra).
      apply div_le_of_le_mul; [nra|]. lra. }
    assert (Hk : 0 < grid.R_earth * c) by (apply Rmult_lt_0_compat; lra).
    assert (Hlon1 : 0 <= a / (grid.R_earth * c) * (180 / PI)).
    { apply Rmult_le_pos; [apply Rmult_le_pos; [lra|]|].
      - left. apply Rinv_0_lt_compat. lra.
      - apply Rmult_le_pos; [lra|]. left. apply Rinv_0_lt_compat. lra. }
    assert (Hlon2 : a / (grid.R_earth * c) * (180 / PI) <= east - west).
    { replace (a / (grid.R_earth * c) * (180 / PI))
        with (a / (grid.R_earth * c * (PI / 180))) by (field; lra).
      apply div_le_of_le_mul; [nra|]. lra. }
    lra.
  - exists (grid.grid_point_at south west spacing_m 0 jmax). split.
    + apply (In_rows (grid.grid_point_at south west spacing_m)).
      exists 0%nat, jmax. repeat split; lia.
    + unfold grid.grid_point_at, grid.offset_point. cbn [grid.lat fst].
      assert (Hb : height_m - spacing_m < INR jmax * spacing_m).
      { replace (height_m - spacing_m)
          with ((height_m / spacing_m - 1) * spacing_m) by (field; lra).
        apply Rmult_lt_compat_r; lra. }
      replace (grid.R_earth
               * grid.radians (north - (south + INR jmax * spacing_m
                                                / grid.R_earth * (180 / PI))))
        with (height_m - INR jmax * spacing_m).
      * lra.
      * rewrite Hheight. unfold grid.radians. field. lra.
Qed.

(** The grid of [generate_grid_endpoint]: every point generated for the
    configured box at the configured spacing is a point of that box. *)
Lemma grid_from_bbox_inside_witness :
  exists points,
    grid.generate_grid_from_bbox config.BBOX_SOUTH config.BBOX_NORTH
      config.BBOX_WEST config.BBOX_EAST config.GRID_SPACING_M = Some points /\
    Forall (fun p => in_bbox (grid.lat p) (grid.lon p)) points.
Proof.
  destruct (grid_from_bbox_inside config.BBOX_SOUTH config.BBOX_NORTH
              config.BBOX_WEST config.BBOX_EAST config.GRID_SPACING_M)
    as (points & Hrun & _ & Hall & _).
  - unfold config.GRID_SPACING_M. lra.
  - unfold config.BBOX_SOUTH. lra.
  - unfold config.BBOX_SOUTH, config.BBOX_NORTH. lra.
  - unfold config.BBOX_WEST, config.BBOX_EAST. lra.
  - exists points. split; [exact Hrun|exact Hall].
Defined.

Lemma nth_error_rows_inv {A} (f : nat -> nat -> A) (n m k i : nat) (x : A) :
  (i < n)%nat ->
  nth_error (flat_map (fun j => map (fun i => f i j) (seq 0 n)) (seq 0 m))
    (k * n + i) = Some x ->
  (k < m)%nat /\ x = f i k.
Proof.
  intros Hi Hx.
  assert (Hk : (k < m)%nat).
  { assert (Hlen : (k * n + i < m * n)%nat).
    { rewrite <- (length_rows f n m 0). apply nth_error_Some. congruence. }
    nia. }
  split; [exact Hk|].
  rewrite (nth_error_rows f n m 0 k i Hi Hk) in Hx. simpl in Hx. congruence.
Qed.

(** A point of the grid and the point above it (same column, next row)
    have the same longitude and are exactly one spacing apart, for any
    spacing up to half the circumference. *)
Theorem generate_grid_north_spacing (origin_lat origin_lon spacing_m : R)
    (size_x size_y : Z) (i j : nat) (p q : grid.GridPoint) :
  let points := grid.generate_grid origin_lat origin_lon size_x size_y spacing_m in
  let nx := Z.to_nat size_x in
  0 <= spacing_m <= PI * grid.R_earth ->
  (i < nx)%nat ->
  nth_error points (j * nx + i) = Some p ->
  nth_error points (S j * nx + i) = Some q ->
  grid.lon q = grid.lon p /\
  grid.haversine (grid.lat p) (grid.lon p) (grid.lat q) (grid.lon q) = spacing_m.
Proof.
  intros points nx Hs Hi Hp Hq.
  pose proof PI_bounds as HPI. pose proof R_earth_pos as HR.
  apply nth_error_rows_inv in Hp as [_ ->]; [|exact Hi].
  apply nth_error_rows_inv in Hq as [_ ->]; [|exact Hi].
  unfold grid.grid_point_at, grid.offset_point. cbn [grid.lat grid.lon fst snd].
  split; [reflexivity|].
  rewrite S_INR.
  set (la := origin_lat + INR j * spacing_m / grid.R_earth * (180 / PI)).
  assert (Hd : origin_lat + (INR j + 1) * spacing_m / grid.R_earth * (180 / PI) - la
               = spacing_m / grid.R_earth * (180 / PI)).
  { unfold la. field. lra. }
  assert (Hdeg : 0 <= spacing_m / grid.R_earth * (180 / PI) <= 180).
  { split.
    - apply Rmult_le_pos; [apply Rmult_le_pos; [lra|]|].
      + left. apply Rinv_0_lt_compat. lra.
      + apply Rmult_le_pos; [lra|]. left. apply Rinv_0_lt_compat. lra.
    - replace (spacing_m / grid.R_earth * (180 / PI))
        with (spacing_m * 180 / (grid.R_earth * PI)) by (field; lra).
      apply div_le_of_le_mul; nra. }
  rewrite haversine_meridian; rewrite Hd.
  - unfold grid.radians. rewrite Rabs_pos_eq.
    + field. lra.
    + apply Rmult_le_pos; lra.
  - rewrite Rabs_pos_eq; lra.
Qed.

Lemma generate_grid_north_spacing_witness :
  let p := grid.grid_point_at config.BBOX_SOUTH config.BBOX_WEST
             config.GRID_SPACING_M 1 0 in
  let q := grid.grid_point_at config.BBOX_SOUTH config.BBOX_WEST
             config.GRID_SPACING_M 1 1 in
  grid.haversine (grid.lat p) (grid.lon p) (grid.lat q) (grid.lon q)
    = config.GRID_SPACING_M.
Proof.
  intros p q.
  apply (generate_grid_north_spacing config.BBOX_SOUTH config.BBOX_WEST
           config.GRID_SPACING_M 2 2 1 0 p q).
  - pose proof PI_bounds. unfold config.GRID_SPACING_M, grid.R_earth. nra.
  - simpl. lia.
  - reflexivity.
  - reflexivity.
Defined.

(** North of the equator a point of the grid and its eastern neighbour
    (same row, next column) have the same latitude and are at most one
    spacing apart; the distance shrinks with the cosine of the row's
    latitude relative to the origin's, and by no more than the cubic
    term of the sine beyond that. *)
Theorem generate_grid_east_spacing (origin_lat origin_lon spacing_m : R)
    (size_x size_y : Z) (i j : nat) (p q : grid.GridPoint) :
  let points := grid.generate_grid origin_lat origin_lon size_x size_y spacing_m in
  let nx := Z.to_nat size_x in
  let c0 := cos (grid.radians origin_lat) in
  let u := spacing_m / (2 * grid.R_earth * c0) in
  0 <= origin_lat < 90 ->
  0 <= spacing_m <= 2 * grid.R_earth * c0 ->
  (S i < nx)%nat ->
  nth_error points (j * nx + i) = Some p ->
  nth_error points (j * nx + S i) = Some q ->
  grid.lat p <= 90 ->
  grid.lat q = grid.lat p /\
  spacing_m * (cos (grid.radians (grid.lat p)) / c0) * (1 - u ^ 2 / 6)
    <= grid.haversine (grid.lat p) (grid.lon p) (grid.lat q) (grid.lon q)
    <= spacing_m.
Proof.
  intros points nx c0 u Hlat Hs Hi Hp Hq Hp90.
  pose proof PI_bounds as HPI. pose proof R_earth_pos as HR.
  apply nth_error_rows_inv in Hp as [_ ->]; [|lia].
  apply nth_error_rows_inv in Hq as [_ ->]; [|exact Hi].
  unfold grid.grid_point_at, grid.offset_point in *.
  cbn [grid.lat grid.lon fst snd] in *.
  split; [reflexivity|]. fold c0.
  assert (Hc0 : 0 < c0 <= 1).
  { split; [|apply COS_bound]. unfold c0, grid.radians. apply cos_gt_0; nra. }
  set (la := origin_lat + INR j * spacing_m / grid.R_earth * (180 / PI)) in *.
  assert (Hla : origin_lat <= la).
  { unfold la. pose proof (pos_INR j).
    assert (0 <= INR j * spacing_m / grid.R_earth * (180 / PI)); [|lra].
    apply Rmult_le_pos; [apply Rmult_le_pos; [apply Rmult_le_pos; lra|]|].
    - left. apply Rinv_0_lt_compat. lra.
    - apply Rmult_le_pos; [lra|]. left. apply Rinv_0_lt_compat. lra. }
  set (cj := cos (grid.radians la)).
  assert (Hcj : 0 <= cj <= c0).
  { split; [apply cos_latitude_nonneg; lra|].
    unfold cj, c0, grid.radians. apply cos_decr_1; nra. }
  assert (Hu : 0 <= u <= 1).
  { unfold u. split.
    - apply Rmult_le_pos; [lra|left; apply Rinv_0_lt_compat; nra].
    - apply div_le_of_le_mul; nra. }
  assert (Hsu : spacing_m = 2 * grid.R_earth * (c0 * u)) by (unfold u; field; lra).
  rewrite S_INR.
  set (lo := origin_lon + INR i * spacing_m / (grid.R_earth * c0) * (180 / PI)).
  assert (Hd : origin_lon + (INR i + 1) * spacing_m / (grid.R_earth * c0) * (180 / PI)
               - lo = u * (360 / PI)).
  { unfold lo, u. field. lra. }
  assert (Hdeg : 0 <= u * (360 / PI) <= 360).
  { assert (0 < 360 / PI <= 360).
    { split; [apply Rdiv_lt_0_compat; lra|].
      apply div_le_of_le_mul; lra. }
    nra. }
  rewrite haversine_parallel by (rewrite ?Hd; lra). rewrite Hd. fold cj.
  assert (Hhalf : grid.radians (u * (360 / PI)) / 2 = u).
  { unfold grid.radians. field. lra. }
  rewrite Hhalf.
  assert (Hsin : 0 <= sin u <= 1).
  { split; [apply sin_ge_0; lra|apply SIN_bound]. }
  assert (Hz : 0 <= cj * sin u <= 1) by nra.
  split.
  - pose proof (asin_ge _ Hz) as Has. pose proof (sin_lower u Hu) as Hlow.
    assert (Hcu : cj * (u - u ^ 3 / 6) <= asin (cj * sin u)) by nra.
    replace (spacing_m * (cj / c0) * (1 - u ^ 2 / 6))
      with (2 * grid.R_earth * (cj * (u - u ^ 3 / 6)))
      by (rewrite Hsu; field; lra).
    apply Rmult_le_compat_l; lra.
  - rewrite Hsu at 1. apply Rmult_le_compat_l; [lra|].
    apply asin_le_angle; [nra|]. split; [lra|].
    apply Rle_trans with (c0 * sin u); [nra|].
    apply sin_scale_concave; lra.
Qed.

Lemma generate_grid_east_spacing_witness :
  let p := grid.grid_point_at config.BBOX_SOUTH config.BBOX_WEST
             config.GRID_SPACING_M 0 0 in
  let q := grid.grid_point_at config.BBOX_SOUTH config.BBOX_WEST
             config.GRID_SPACING_M 1 0 in
  grid.haversine (grid.lat p) (grid.lon p) (grid.lat q) (grid.lon q)
    <= config.GRID_SPACING_M.
Proof.
  intros p q.
  assert (Hc : 1 / 2 <= cos (grid.radians config.BBOX_SOUTH)).
  { apply cos_latitude_half. unfold config.BBOX_SOUTH. lra. }
  apply (generate_grid_east_spacing config.BBOX_SOUTH config.BBOX_WEST
           config.GRID_SPACING_M 2 2 0 0 p q).
  - unfold config.BBOX_SOUTH. lra.
  - unfold config.GRID_SPACING_M, grid.R_earth. nra.
  - simpl. lia.
  - reflexivity.
  - reflexivity.
  - unfold p, grid.grid_point_at, grid.offset_point. cbn [grid.lat fst INR].
    replace (config.BBOX_SOUTH + 0 * config.GRID_SPACING_M / grid.R_earth
                                 * (180 / PI))
      with config.BBOX_SOUTH by (unfold Rdiv; ring).
    unfold config.BBOX_SOUTH. lra.
Defined.

End GridGeometry.

(* ===================================================================== *)
(** ** The profile pipeline of [compute_all_profiles] *)
(* ===================================================================== *)

Section Pipeline.
Import profiler geo_spec.
Local Open Scope R_scope.

Lemma candidate_fold_app gp_lat gp_lon l : forall acc,
  fold_left (candidate_step gp_lat gp_lon) l acc
    = acc ++ fold_left (candidate_step gp_lat gp_lon) l [].
Proof.
  induction l as [|p l IH]; intros acc; simpl.
  - rewrite app_nil_r. reflexivity.
  - rewrite IH, (IH (candidate_step gp_lat gp_lon [] p)).
    unfold candidate_step.
    repeat match goal with |- context [Rle_dec ?a ?b] => destruct (Rle_dec a b) end;
      cbn [app]; rewrite ?app_nil_r, <- ?app_assoc; reflexivity.
Qed.

Lemma candidates_cons gp p l :
  candidates_for gp (p :: l)
    = candidate_step (grid.lat gp) (grid.lon gp) [] p ++ candidates_for gp l.
Proof. unfold candidates_for. simpl. apply candidate_fold_app. Qed.

Lemma candidate_step_cases gp_lat gp_lon p :
  let d := grid.haversine gp_lat gp_lon (POI.lat p) (POI.lon p) in
  (coarse_pass gp_lat gp_lon p /\ d <= config.MAX_INFLUENCE_M /\
   candidate_step gp_lat gp_lon [] p = [(p, d)]) \/
  (~ (coarse_pass gp_lat gp_lon p /\ d <= config.MAX_INFLUENCE_M) /\
   candidate_step gp_lat gp_lon [] p = []).
Proof.
  intros d. unfold candidate_step, coarse_pass. fold d.
  destruct (Rle_dec _ _LAT_MARGIN) as [H1|H1];
    [destruct (Rle_dec _ _LON_MARGIN) as [H2|H2];
     [destruct (Rle_dec d config.MAX_INFLUENCE_M) as [H3|H3]|]|].
  - left. repeat split; assumption.
  - right. split; [tauto|reflexivity].
  - right. split; [tauto|reflexivity].
  - right. split; [tauto|reflexivity].
Qed.

Lemma candidates_spec gp all_pois p d :
  In (p, d) (candidates_for gp all_pois) <->
  In p all_pois /\
  d = grid.haversine (grid.lat gp) (grid.lon gp) (POI.lat p) (POI.lon p) /\
  d <= config.MAX_INFLUENCE_M /\
  coarse_pass (grid.lat gp) (grid.lon gp) p.
Proof.
  induction all_pois as [|q l IH].
  - simpl. tauto.
  - rewrite candidates_cons, in_app_iff, IH.
    destruct (candidate_step_cases (grid.lat gp) (grid.lon gp) q)
      as [(Hc & Hd & ->)|(Hn & ->)]; simpl.
    + split.
      * intros [[Heq|[]]|H]; [injection Heq as <- <-; tauto|tauto].
      * intros ([<-|Hin] & -> & Hd' & Hc'); [left; left; reflexivity|tauto].
    + split.
      * intros [[]|H]; tauto.
      * intros ([<-|Hin] & -> & Hd' & Hc'); [tauto|right; tauto].
Qed.

(** The candidate loop for any grid point and any POI list: the selected
    POIs are a subsequence of the list (order and multiplicity kept);
    each is paired with its haversine distance to the grid point, which
    is in [[0, MAX_INFLUENCE_M]], and passes the coarse test; a POI of
    the list that passes the coarse test and is within the radius is
    selected. *)
Theorem candidates_sound (gp : grid.GridPoint) (all_pois : list POI.t) :
  let cands := candidates_for gp all_pois in
  sublist (map fst cands) all_pois /\
  Forall (fun c =>
            snd c = grid.haversine (grid.lat gp) (grid.lon gp)
                      (POI.lat (fst c)) (POI.lon (fst c)) /\
            0 <= snd c <= config.MAX_INFLUENCE_M /\
            coarse_pass (grid.lat gp) (grid.lon gp) (fst c)) cands /\
  (forall p, In p all_pois ->
     coarse_pass (grid.lat gp) (grid.lon gp) p ->
     grid.haversine (grid.lat gp) (grid.lon gp) (POI.lat p) (POI.lon p)
       <= config.MAX_INFLUENCE_M ->
     In (p, grid.haversine (grid.lat gp) (grid.lon gp) (POI.lat p) (POI.lon p))
        cands).
Proof.
  intros cands. unfold cands. split; [|split].
  - induction all_pois as [|q l IH]; [constructor|].
    rewrite candidates_cons, map_app.
    destruct (candidate_step_cases (grid.lat gp) (grid.lon gp) q)
      as [(_ & _ & ->)|(_ & ->)]; simpl.
    + apply sublist_skip, IH.
    + apply sublist_cons, IH.
  - apply List.Forall_forall. intros [p d] Hin.
    apply candidates_spec in Hin as (_ & -> & Hd & Hc). cbn [fst snd].
    repeat split; try assumption; try apply Hc. apply haversine_nonneg.
  - intros p Hin Hc Hd. apply candidates_spec. tauto.
Qed.

Lemma profile_loop_step_inv all_pois st gp :
  (length (batch st) < BATCH_SIZE)%nat ->
  Forall (fun b => length b = BATCH_SIZE) (flushed st) ->
  let st1 := profile_loop_step all_pois st gp in
  count st1 = S (count st) /\
  concat (flushed st1) ++ batch st1
    = (concat (flushed st) ++ batch st) ++ [batch_row gp all_pois] /\
  (length (batch st1) < BATCH_SIZE)%nat /\
  Forall (fun b => length b = BATCH_SIZE) (flushed st1).
Proof.
  intros Hb Hf st1. unfold st1, profile_loop_step.
  destruct (Nat.leb_spec BATCH_SIZE (length (batch st ++ [batch_row gp all_pois])))
    as [Hfull|Hroom]; cbn [count batch flushed];
    rewrite length_app in *; cbn [length] in *.
  - split; [reflexivity|]. split.
    + rewrite concat_app. cbn [concat]. rewrite !app_nil_r, app_assoc. reflexivity.
    + split; [unfold BATCH_SIZE; lia|].
      apply Forall_app. split; [exact Hf|].
      constructor; [|constructor]. rewrite length_app. cbn [length]. lia.
  - split; [reflexivity|]. split; [rewrite app_assoc; reflexivity|].
    split; [lia|exact Hf].
Qed.

Lemma profile_loop_inv all_pois gps : forall st,
  (length (batch st) < BATCH_SIZE)%nat ->
  Forall (fun b => length b = BATCH_SIZE) (flushed st) ->
  let st' := fold_left (profile_loop_step all_pois) gps st in
  count st' = (count st + length gps)%nat /\
  concat (flushed st') ++ batch st'
    = (concat (flushed st) ++ batch st)
      ++ map (fun gp => batch_row gp all_pois) gps /\
  (length (batch st') < BATCH_SIZE)%nat /\
  Forall (fun b => length b = BATCH_SIZE) (flushed st').
Proof.
  induction gps as [|gp gps IH]; intros st Hb Hf; cbn [fold_left map length].
  - rewrite app_nil_r, Nat.add_0_r. auto.
  - destruct (profile_loop_step_inv all_pois st gp Hb Hf) as (Hc1 & Hw1 & Hb1 & Hf1).
    destruct (IH _ Hb1 Hf1) as (Hc & Hw & Hb' & Hf').
    split; [rewrite Hc, Hc1; lia|]. split; [|auto].
    rewrite Hw, Hw1, <- app_assoc. reflexivity.
Qed.

Lemma length_concat_uniform {A} (k : nat) (l : list (list A)) :
  Forall (fun b => length b = k) l -> length (concat l) = (k * length l)%nat.
Proof.
  induction 1 as [|b l Hb _ IH]; cbn [concat length]; [lia|].
  rewrite length_app, IH, Hb. lia.
Qed.

(** [compute_all_profiles] returns the number of grid points; the
    batches it writes, put end to end, are one row per grid point in grid
    order, each row carrying the grid point's id and the attributes,
    audience and summary of its profile; every batch is non-empty, all
    but the last hold exactly [BATCH_SIZE] rows, and there are
    [ceil(n / BATCH_SIZE)] of them (none for an empty grid). *)
Theorem compute_all_profiles_batches
    (grid_points : list grid.GridPoint) (all_pois : list POI.t) :
  let run := compute_all_profiles_run grid_points all_pois in
  fst run = length grid_points /\
  concat (snd run) = map (fun gp => batch_row gp all_pois) grid_points /\
  Forall2 (fun row pr =>
             row_grid_point_id row = grid_point_id pr /\
             row_geo_attrs row = geographic_attributes pr /\
             row_audience row = audience pr /\
             row_poi_summary row = poi_summary pr)
    (concat (snd run)) (compute_all_profiles grid_points all_pois) /\
  (forall k b, nth_error (snd run) k = Some b ->
     (0 < length b <= BATCH_SIZE)%nat /\
     ((S k < length (snd run))%nat -> length b = BATCH_SIZE)) /\
  length (snd run)
    = ((length grid_points + (BATCH_SIZE - 1)) / BATCH_SIZE)%nat.
Proof.
  intros run.
  assert (Hrows : concat (snd run) = map (fun gp => batch_row gp all_pois) grid_points
                  /\ fst run = length grid_points
                  /\ (forall k b, nth_error (snd run) k = Some b ->
                        (0 < length b <= BATCH_SIZE)%nat /\
                        ((S k < length (snd run))%nat -> length b = BATCH_SIZE))
                  /\ length (snd run)
                     = ((length grid_points + (BATCH_SIZE - 1)) / BATCH_SIZE)%nat).
  { unfold run. clear run. unfold compute_all_profiles_run.
    destruct grid_points as [|gp0 gps0] eqn:Egp.
    { cbn [fst snd concat map length].
      split; [reflexivity|]. split; [reflexivity|]. split.
      - intros k b Hk. destruct k; discriminate.
      - symmetry. apply Nat.div_small. unfold BATCH_SIZE. lia. }
    rewrite <- Egp. clear Egp gp0 gps0.
    destruct (profile_loop_inv all_pois grid_points
                {| count := 0; batch := []; flushed := [] |})
      as (Hc & Hw & Hb & Hf).
    { cbn. unfold BATCH_SIZE. lia. }
    { constructor. }
    set (st := fold_left (profile_loop_step all_pois) grid_points
                 {| count := 0; batch := []; flushed := [] |}) in *.
    cbn [count batch flushed concat app Nat.add] in Hc, Hw.
    assert (Hlen : length grid_points
                   = (BATCH_SIZE * length (flushed st) + length (batch st))%nat).
    { rewrite <- (length_map (fun gp => batch_row gp all_pois)), <- Hw.
      rewrite length_app, (length_concat_uniform BATCH_SIZE) by exact Hf.
      reflexivity. }
    cbn [fst snd].
    destruct (batch st) as [|r0 rest] eqn:Eb.
    - rewrite app_nil_r in Hw. cbn [length] in Hlen.
      split; [exact Hw|]. split; [exact Hc|]. split.
      + intros k b Hk.
        assert (Hbl : length b = BATCH_SIZE).
        { apply nth_error_In in Hk.
          exact (proj1 (List.Forall_forall _ _) Hf b Hk). }
        rewrite Hbl. unfold BATCH_SIZE. split; [lia|reflexivity].
      + rewrite Hlen. apply Nat.div_unique with (BATCH_SIZE - 1)%nat;
          unfold BATCH_SIZE; lia.
    - rewrite <- Eb in *.
      assert (Hpos : (0 < length (batch st))%nat) by (rewrite Eb; cbn; lia).
      split; [rewrite concat_app; cbn [concat]; rewrite app_nil_r; exact Hw|].
      split; [exact Hc|]. split.
      + intros k b Hk. rewrite length_app. cbn [length].
        destruct (Nat.lt_ge_cases k (length (flushed st))) as [Hlt|Hge].
        * rewrite nth_error_app1 in Hk by exact Hlt.
          assert (Hbl : length b = BATCH_SIZE).
          { apply nth_error_In in Hk.
            exact (proj1 (List.Forall_forall _ _) Hf b Hk). }
          rewrite Hbl. unfold BATCH_SIZE. split; [lia|reflexivity].
        * rewrite nth_error_app2 in Hk by exact Hge.
          destruct (k - length (flushed st))%nat as [|k'] eqn:Ek.
          -- cbn in Hk. injection Hk as <-. split; [lia|]. intros Hk. lia.
          -- destruct k'; discriminate.
      + rewrite length_app. cbn [length]. rewrite Hlen.
        apply Nat.div_unique with (length (batch st) - 1)%nat;
          unfold BATCH_SIZE in *; lia. }
  destruct Hrows as (Hw & Hc & Hb & Hl).
  split; [exact Hc|]. split; [exact Hw|]. split; [|split; [exact Hb|exact Hl]].
  rewrite Hw. unfold compute_all_profiles. clear Hw Hc Hb Hl run.
  induction grid_points as [|gp gps IH]; cbn [map]; constructor.
  - unfold batch_row.
    cbn [row_grid_point_id row_geo_attrs row_audience row_poi_summary].
    split; [reflexivity|]. split; [reflexivity|]. split; reflexivity.
  - apply IH.
Qed.

(** [compute_all_profiles] yields one profile per grid point, in grid
    order.  Every entry of a profile's [nearest] list describes a stored
    POI: it carries that POI's id and name and its haversine distance to
    the grid point rounded to one decimal, which lies in
    [[0, MAX_INFLUENCE_M]].  A grid point with every stored POI beyond the
    radius gets the profile of an empty neighbourhood. *)
Theorem profiles_from_stored_pois
    (grid_points : list grid.GridPoint) (all_pois : list POI.t) :
  Forall2 (fun gp pr =>
             Forall (fun e =>
                       0 <= ne_distance_m e <= config.MAX_INFLUENCE_M /\
                       exists p, In p all_pois /\
                         ne_place_id e = POI.place_id p /\
                         ne_name e = POI.name p /\
                         ne_distance_m e
                           = py_round (grid.haversine (grid.lat gp) (grid.lon gp)
                                         (POI.lat p) (POI.lon p)) 1)
               (nearest (poi_summary pr)) /\
             ((forall p, In p all_pois ->
                 config.MAX_INFLUENCE_M
                   < grid.haversine (grid.lat gp) (grid.lon gp)
                       (POI.lat p) (POI.lon p)) ->
              pr = compute_profile gp []))
    grid_points (compute_all_profiles grid_points all_pois).
Proof.
  unfold compute_all_profiles.
  induction grid_points as [|gp gps IH]; cbn [map]; constructor; [|exact IH].
  split.
  - unfold compute_profile. cbn [poi_summary nearest].
    apply List.Forall_forall. intros e He.
    apply in_map_iff in He as ([p d] & <- & Hx).
    apply in_firstn_incl in Hx.
    assert (Hin : In (p, d) (candidates_for gp all_pois)).
    { exact (Permutation_in _ (sort_by_distance_perm _) Hx). }
    apply candidates_spec in Hin as (Hp & -> & Hd & _).
    unfold nearest_of. cbn [fst snd ne_distance_m ne_place_id ne_name].
    split.
    + split.
      * replace 0 with (py_round (IZR 0) 1) by apply py_round_IZR.
        apply py_round_mono, haversine_nonneg.
      * replace config.MAX_INFLUENCE_M with (py_round (IZR 1000) 1)
          by (rewrite py_round_IZR; reflexivity).
        apply py_round_mono. exact Hd.
    + exists p. repeat split; try reflexivity. exact Hp.
  - intros Hfar. f_equal.
    destruct (candidates_for gp all_pois) as [|[p d] rest] eqn:Ec; [reflexivity|].
    assert (Hin : In (p, d) (candidates_for gp all_pois)) by (rewrite Ec; left; reflexivity).
    apply candidates_spec in Hin as (Hp & -> & Hd & _).
    specialize (Hfar p Hp). lra.
Qed.

End Pipeline.

(* ===================================================================== *)
(** ** Whole runs of [_fetch_one_tile] against any service *)
(* ===================================================================== *)

Section FetchRun.
Import collector fetch_spec retry_spec.

Variable now : string.
Variable inject_type : option string.

Lemma loop_body_cases (svc : service) st :
  (exists w,
     loop_body now inject_type svc st
       = inr {| retries := S (retries st); attempts := S (attempts st);
                sleeps := sleeps st ++ [w] |} /\
     ((rate_limited (svc (attempts st)) /\ w = 2 ^ retries st) \/
      (svc (attempts st) = TimeoutException /\ w = 1))) \/
  (exists o,
     loop_body now inject_type svc st
       = inl (o, {| retries := retries st; attempts := S (attempts st);
                    sleeps := sleeps st |}) /\
     ~ retryable (svc (attempts st)) /\
     outcome_explained now inject_type (svc (attempts st)) o).
Proof.
  unfold loop_body, outcome_explained, retryable, rate_limited.
  destruct (svc (attempts st)) as [code status results| |].
  - destruct (Z.eqb_spec code 200) as [->|Hcode].
    + destruct (String.eqb_spec status "OK") as [->|Hok].
      { right. eexists. split; [reflexivity|]. split.
        - intros [[r H]|H]; discriminate.
        - split; [split; discriminate|]. split.
          + intros r [= <-]. reflexivity.
          + intros pois _ _. eauto. }
      destruct (String.eqb_spec status "ZERO_RESULTS") as [->|Hzero].
      { right. eexists. split; [reflexivity|]. split.
        - intros [[r H]|H]; discriminate.
        - split; [split; discriminate|]. split.
          + intros r [=].
          + intros pois [= <-] Hne. congruence. }
      destruct (String.eqb_spec status "OVER_QUERY_LIMIT") as [->|Hlimit].
      { left. eexists. split; [reflexivity|]. left. eauto. }
      right. exists (Returned []). split.
      { destruct (String.eqb status "REQUEST_DENIED"); reflexivity. }
      split.
      * intros [[r H]|H]; [|discriminate]. injection H as H. congruence.
      * split; [split; discriminate|]. split.
        -- intros r [= H]. congruence.
        -- intros pois [= <-] Hne. congruence.
    + right. exists (Returned []). split; [reflexivity|]. split.
      * intros [[r H]|H]; [|discriminate]. injection H as H. congruence.
      * split; [split; discriminate|]. split.
        -- intros r [= H]. congruence.
        -- intros pois [= <-] Hne. congruence.
  - left. eexists. split; [reflexivity|]. right. eauto.
  - right. exists Raised. split; [reflexivity|]. split.
    + intros [[r H]|H]; discriminate.
    + split; [split; reflexivity|]. split.
      * intros r [=].
      * intros pois [=].
Qed.

Lemma sum_snoc (l : list nat) (w : nat) :
  fold_right Nat.add 0 (l ++ [w]) = fold_right Nat.add 0 l + w.
Proof. induction l as [|x l IH]; simpl; lia. Qed.

(** The invariant of the loop started from the initial state, and what
    holds when it stops. *)
Lemma fetch_loop_run (svc : service) : forall fuel st,
  S config.COLLECTOR_RETRY_MAX - retries st <= fuel ->
  retries st <= S config.COLLECTOR_RETRY_MAX ->
  attempts st = retries st ->
  length (sleeps st) = retries st ->
  (forall i, i < retries st -> retryable (svc i)) ->
  (forall i w, nth_error (sleeps st) i = Some w -> sleep_explained svc i w) ->
  total_backoff st + 1 <= 2 ^ retries st ->
  exists o st',
    fetch_loop fuel now inject_type svc st = Some (o, st') /\
    length (sleeps st') = retries st' /\
    (forall i, i < retries st' -> retryable (svc i)) /\
    (forall i w, nth_error (sleeps st') i = Some w -> sleep_explained svc i w) /\
    total_backoff st' + 1 <= 2 ^ retries st' /\
    ((retries st' = S config.COLLECTOR_RETRY_MAX /\
      attempts st' = S config.COLLECTOR_RETRY_MAX /\ o = Returned []) \/
     (retries st' <= config.COLLECTOR_RETRY_MAX /\
      attempts st' = S (retries st') /\
      ~ retryable (svc (retries st')) /\
      outcome_explained now inject_type (svc (retries st')) o)).
Proof.
  induction fuel as [|fuel IH]; intros st Hfuel Hmax Hatt Hlen Hretry Hsleep Htot.
  - assert (Hr : retries st = S config.COLLECTOR_RETRY_MAX) by lia.
    exists (Returned []), st. cbn [fetch_loop].
    destruct (Nat.leb_spec (retries st) config.COLLECTOR_RETRY_MAX) as [H|H]; [lia|].
    repeat split; auto. left. repeat split; congruence.
  - cbn [fetch_loop].
    destruct (Nat.leb_spec (retries st) config.COLLECTOR_RETRY_MAX) as [Hin|Hout].
    + destruct (loop_body_cases svc st) as [(w & -> & Hw)|(o & -> & Hnr & Ho)].
      * apply IH; cbn [retries attempts sleeps]; try lia.
        -- rewrite length_app. cbn [length]. lia.
        -- intros i Hi. destruct (Nat.eq_dec i (retries st)) as [->|Hne].
           ++ rewrite <- Hatt. unfold retryable. tauto.
           ++ apply Hretry. lia.
        -- intros i v Hv.
           destruct (Nat.lt_ge_cases i (length (sleeps st))) as [Hlt|Hge].
           ++ rewrite nth_error_app1 in Hv by exact Hlt. apply Hsleep, Hv.
           ++ rewrite nth_error_app2 in Hv by exact Hge.
              destruct (i - length (sleeps st)) as [|k] eqn:Ek;
                [|destruct k; discriminate].
              cbn in Hv. injection Hv as <-.
              assert (i = retries st) as -> by lia.
              unfold sleep_explained. rewrite Hatt in Hw. exact Hw.
        -- unfold total_backoff in *. cbn [sleeps]. rewrite sum_snoc.
           assert (Hwle : w <= 2 ^ retries st).
           { destruct Hw as [[_ ->]|[_ ->]]; [lia|].
             pose proof (Nat.pow_nonzero 2 (retries st)). lia. }
           rewrite Nat.pow_succ_r'. lia.
      * eexists _, _. split; [reflexivity|]. cbn [retries attempts sleeps].
        repeat split; auto.
        right. rewrite Hatt in Hnr, Ho.
        split; [exact Hin|]. split; [lia|]. split; [exact Hnr|exact Ho].
    + exists (Returned []), st. repeat split; auto.
      left. repeat split; try congruence; lia.
Qed.

End FetchRun.

Section FetchRunProperties.
Import collector fetch_spec retry_spec.

Lemma fetch_loop_agree now inject_type (svc svc' : service) : forall fuel st,
  (forall i, attempts st <= i ->
             i + retries st <= config.COLLECTOR_RETRY_MAX + attempts st ->
             svc i = svc' i) ->
  fetch_loop fuel now inject_type svc st = fetch_loop fuel now inject_type svc' st.
Proof.
  induction fuel as [|fuel IH]; intros st Hagree; cbn [fetch_loop];
    destruct (Nat.leb_spec (retries st) config.COLLECTOR_RETRY_MAX) as [Hin|Hout];
    try reflexivity.
  assert (Hbody : loop_body now inject_type svc st = loop_body now inject_type svc' st).
  { unfold loop_body. rewrite (Hagree (attempts st)) by lia. reflexivity. }
  rewrite Hbody.
  destruct (loop_body now inject_type svc' st) as [res|st'] eqn:E; [reflexivity|].
  apply loop_body_inr in E as [Hr Ha]. apply IH.
  intros i Hi Hb. apply Hagree; lia.
Qed.

Lemma fetch_one_tile_run now (svc : service) keyword fuel :
  S config.COLLECTOR_RETRY_MAX <= fuel ->
  exists o st,
    _fetch_one_tile fuel now svc keyword = Some (o, st) /\
    length (sleeps st) = retries st /\
    (forall i, i < retries st -> retryable (svc i)) /\
    (forall i w, nth_error (sleeps st) i = Some w -> sleep_explained svc i w) /\
    total_backoff st + 1 <= 2 ^ retries st /\
    ((retries st = S config.COLLECTOR_RETRY_MAX /\
      attempts st = S config.COLLECTOR_RETRY_MAX /\ o = Returned []) \/
     (retries st <= config.COLLECTOR_RETRY_MAX /\
      attempts st = S (retries st) /\
      ~ retryable (svc (retries st)) /\
      outcome_explained now (inject_type_of keyword) (svc (retries st)) o)).
Proof.
  intros Hfuel. unfold _fetch_one_tile. apply fetch_loop_run.
  - cbn [initial_state retries]. lia.
  - cbn [initial_state retries]. lia.
  - reflexivity.
  - reflexivity.
  - cbn [initial_state retries]. intros i Hi. lia.
  - cbn [initial_state sleeps]. intros i w Hw. destruct i; discriminate.
  - cbn. lia.
Qed.

(** The sleeps of a unit, against any service: one sleep per counted
    retry, each explained by the answer it follows ([2^i] seconds after a
    rate-limited lookup number [i], one second after a timeout), so that
    the unit sleeps at most [2^retries - 1] seconds, never more than 15
    in all. *)
Theorem fetch_backoff_schedule
    (now : string) (svc : service) (keyword : option string) (fuel : nat) :
  S config.COLLECTOR_RETRY_MAX <= fuel ->
  exists o st,
    _fetch_one_tile fuel now svc keyword = Some (o, st) /\
    length (sleeps st) = retries st /\
    (forall i w, nth_error (sleeps st) i = Some w -> sleep_explained svc i w) /\
    total_backoff st <= 2 ^ retries st - 1 /\
    total_backoff st <= 15.
Proof.
  intros Hfuel.
  destruct (fetch_one_tile_run now svc keyword fuel Hfuel)
    as (o & st & Hrun & Hlen & _ & Hsleep & Htot & Hend).
  exists o, st. split; [exact Hrun|]. split; [exact Hlen|].
  split; [exact Hsleep|]. split; [lia|].
  assert (Hr : retries st <= S config.COLLECTOR_RETRY_MAX)
    by (destruct Hend as [(-> & _)|(H & _)]; lia).
  pose proof (Nat.pow_le_mono_r 2 _ _ ltac:(lia) Hr) as Hpow.
  change (2 ^ S config.COLLECTOR_RETRY_MAX) with 16 in Hpow. lia.
Qed.

Lemma fetch_backoff_schedule_witness :
  exists o st,
    _fetch_one_tile 4 "t"
      (fun i => if (i <? 2)%nat then HttpResponse 200 "OVER_QUERY_LIMIT" []
                else TimeoutException) None = Some (o, st) /\
    total_backoff st <= 15.
Proof.
  destruct (fetch_backoff_schedule "t"
              (fun i => if (i <? 2)%nat then HttpResponse 200 "OVER_QUERY_LIMIT" []
                        else TimeoutException) None 4)
    as (o & st & Hrun & _ & _ & _ & Htot).
  - unfold config.COLLECTOR_RETRY_MAX. lia.
  - exists o, st. split; [exact Hrun|exact Htot].
Defined.

(** Where the result of a unit comes from, against any service: every
    lookup before the last was answered rate-limited or timed out; either
    the budget ran out ([COLLECTOR_RETRY_MAX + 1] such answers, empty
    result), or the first other answer ended the unit: it raised exactly
    when that lookup raised, returned the parsed results when the answer
    was [OK], and can return a non-empty list only from an [OK] answer. *)
Theorem fetch_outcome_provenance
    (now : string) (svc : service) (keyword : option string) (fuel : nat) :
  S config.COLLECTOR_RETRY_MAX <= fuel ->
  exists o st,
    _fetch_one_tile fuel now svc keyword = Some (o, st) /\
    (forall i, i < retries st -> retryable (svc i)) /\
    ((retries st = S config.COLLECTOR_RETRY_MAX /\
      attempts st = S config.COLLECTOR_RETRY_MAX /\ o = Returned []) \/
     (retries st <= config.COLLECTOR_RETRY_MAX /\
      attempts st = S (retries st) /\
      ~ retryable (svc (retries st)) /\
      outcome_explained now (inject_type_of keyword) (svc (retries st)) o)).
Proof.
  intros Hfuel.
  destruct (fetch_one_tile_run now svc keyword fuel Hfuel)
    as (o & st & Hrun & _ & Hretry & _ & _ & Hend).
  exists o, st. split; [exact Hrun|]. split; [exact Hretry|exact Hend].
Qed.

Lemma fetch_outcome_provenance_witness :
  exists o st,
    _fetch_one_tile 4 "t"
      (fun i => if (i <? 1)%nat then TimeoutException else OtherException)
      (Some "IT park") = Some (o, st) /\
    (forall i, i < retries st ->
       retryable ((fun i => if (i <? 1)%nat then TimeoutException
                            else OtherException) i)).
Proof.
  destruct (fetch_outcome_provenance "t"
              (fun i => if (i <? 1)%nat then TimeoutException else OtherException)
              (Some "IT park"%string) 4)
    as (o & st & Hrun & Hretry & _).
  - unfold config.COLLECTOR_RETRY_MAX. lia.
  - exists o, st. split; [exact Hrun|exact Hretry].
Defined.

(** A unit never looks past lookup number [COLLECTOR_RETRY_MAX]: two
    services that agree on the lookups [0 .. COLLECTOR_RETRY_MAX] give the
    same result, state and sleeps, whatever the fuel. *)
Theorem fetch_prefix_determines
    (now : string) (svc svc' : service) (keyword : option string) (fuel : nat) :
  (forall i, i <= config.COLLECTOR_RETRY_MAX -> svc i = svc' i) ->
  _fetch_one_tile fuel now svc keyword = _fetch_one_tile fuel now svc' keyword.
Proof.
  intros Hagree. unfold _fetch_one_tile. apply fetch_loop_agree.
  cbn [initial_state retries attempts]. intros i _ Hi. apply Hagree. lia.
Qed.

Lemma fetch_prefix_determines_witness :
  _fetch_one_tile 10 "t" (fun _ => TimeoutException) None
  = _fetch_one_tile 10 "t"
      (fun i => if (i <=? 3)%nat then TimeoutException else OtherException) None.
Proof.
  apply (fetch_prefix_determines "t" (fun _ => TimeoutException)
           (fun i => if (i <=? 3)%nat then TimeoutException else OtherException)
           None 10).
  intros i Hi. unfold config.COLLECTOR_RETRY_MAX in Hi.
  destruct (Nat.leb_spec i 3); [reflexivity|lia].
Defined.

End FetchRunProperties.

(* ===================================================================== *)
(** ** Parsed places and keyword searches *)
(* ===================================================================== *)

Section Parsing.
Import collector fetch_spec retry_spec.

Lemma parse_place_injected now result (t : string) :
  truthy t = true ->
  let types0 := default [] (place.types result) in
  let tags := POI.types (_parse_place now result (Some t)) in
  In t tags /\ (In t types0 -> tags = types0) /\ (~ In t types0 -> tags = t :: types0).
Proof.
  intros Ht types0 tags. unfold tags, _parse_place. cbn [POI.types]. fold types0.
  rewrite Ht. cbn [andb].
  destruct (inb t types0) eqn:Hin; cbn [negb].
  - apply inb_In in Hin. split; [exact Hin|]. split; [reflexivity|tauto].
  - assert (Hnot : ~ In t types0).
    { intros H. apply inb_In in H. congruence. }
    split; [left; reflexivity|]. split; [tauto|reflexivity].
Qed.

Lemma primary_type_of_member (t : string) (tags : list string) :
  In t tags -> pydict.mem config.TYPE_IMPORTANCE t = true ->
  exists pt, profiler._primary_type tags = Some pt.
Proof.
  intros Hin Hmem. unfold profiler._primary_type.
  destruct (find (fun t0 => pydict.mem config.TYPE_IMPORTANCE t0) tags) as [pt|] eqn:E.
  - eauto.
  - pose proof (find_none _ _ E t Hin) as Hn. cbn beta in Hn. congruence.
Qed.

Lemma keyword_inject_type (kw : string) :
  In kw config.POI_KEYWORDS ->
  exists t, inject_type_of (Some kw) = Some t /\ truthy t = true /\
            pydict.mem config.TYPE_IMPORTANCE t = true.
Proof.
  unfold config.POI_KEYWORDS. cbn [In].
  intros [<-|[<-|[<-|[<-|[<-|[]]]]]]; eexists; (split; [reflexivity|]);
    split; reflexivity.
Qed.

(** A place found by one of the configured keyword searches is always
    weighted: the keyword's custom type is among the tags of the parsed
    POI and is a key of the importance table, so the POI has a primary
    type; when the place does not carry the custom type itself, that type
    is put first and is the primary type, whatever the other tags. *)
Theorem keyword_search_primary_type
    (now : string) (result : place.t) (kw : string) :
  In kw config.POI_KEYWORDS ->
  exists t,
    inject_type_of (Some kw) = Some t /\
    pydict.mem config.TYPE_IMPORTANCE t = true /\
    let types0 := default [] (place.types result) in
    let tags := POI.types (_parse_place now result (inject_type_of (Some kw))) in
    In t tags /\
    (exists pt, profiler._primary_type tags = Some pt) /\
    (~ In t types0 ->
     tags = t :: types0 /\ profiler._primary_type tags = Some t).
Proof.
  intros Hkw. destruct (keyword_inject_type kw Hkw) as (t & Hinj & Ht & Hmem).
  exists t. split; [exact Hinj|]. split; [exact Hmem|]. rewrite Hinj.
  destruct (parse_place_injected now result t Ht) as (Hin & _ & Hfresh).
  split; [exact Hin|]. split.
  - exact (primary_type_of_member t _ Hin Hmem).
  - intros Hnot. specialize (Hfresh Hnot). split; [exact Hfresh|].
    rewrite Hfresh. unfold profiler._primary_type. cbn [find].
    rewrite Hmem. reflexivity.
Qed.

Lemma keyword_search_primary_type_witness :
  exists t,
    inject_type_of (Some "IT park"%string) = Some t /\
    pydict.mem config.TYPE_IMPORTANCE t = true.
Proof.
  destruct (keyword_search_primary_type "t"
              (place.mk (Some "p1"%string) (Some "Tower"%string) None None
                 (Some ["point_of_interest"%string; "establishment"%string])
                 None None ""%string)
              "IT park"%string) as (t & Hinj & Hmem & _).
  - unfold config.POI_KEYWORDS. cbn [In]. tauto.
  - exists t. split; [exact Hinj|exact Hmem].
Defined.

(** A keyword-search unit, against any service, returns only weighted
    POIs: every POI of the list it hands back has a primary type. *)
Theorem keyword_unit_weighted
    (now : string) (svc : service) (kw : string) (fuel : nat) :
  In kw config.POI_KEYWORDS ->
  S config.COLLECTOR_RETRY_MAX <= fuel ->
  exists o st,
    _fetch_one_tile fuel now svc (Some kw) = Some (o, st) /\
    forall pois, o = Returned pois ->
      Forall (fun p => exists pt, profiler._primary_type (POI.types p) = Some pt)
        pois.
Proof.
  intros Hkw Hfuel.
  destruct (fetch_one_tile_run now svc (Some kw) fuel Hfuel)
    as (o & st & Hrun & _ & _ & _ & _ & Hend).
  exists o, st. split; [exact Hrun|]. intros pois ->.
  destruct pois as [|p0 rest]; [constructor|].
  destruct Hend as [(_ & _ & [=])|(_ & _ & _ & (_ & Hok & Hne))].
  destruct (Hne (p0 :: rest) eq_refl ltac:(discriminate)) as (results & Hr).
  specialize (Hok results Hr).
  assert (Heq : p0 :: rest
                = map (fun p => _parse_place now p (inject_type_of (Some kw))) results)
    by congruence.
  rewrite Heq. clear Heq Hok.
  destruct (keyword_inject_type kw Hkw) as (t & Hinj & Ht & Hmem).
  apply List.Forall_forall. intros p Hp.
  apply in_map_iff in Hp as (r & <- & _). rewrite Hinj.
  destruct (parse_place_injected now r t Ht) as (Hin & _ & _).
  exact (primary_type_of_member t _ Hin Hmem).
Qed.

Lemma keyword_unit_weighted_witness :
  exists o st,
    _fetch_one_tile 4 "t"
      (fun _ => HttpResponse 200 "OK"
                  [place.mk (Some "p1"%string) (Some "Tower"%string) None None
                     None None None ""%string])
      (Some "IT park"%string) = Some (o, st).
Proof.
  destruct (keyword_unit_weighted "t"
              (fun _ => HttpResponse 200 "OK"
                          [place.mk (Some "p1"%string) (Some "Tower"%string) None None
                             None None None ""%string])
              "IT park"%string 4) as (o & st & Hrun & _).
  - unfold config.POI_KEYWORDS. cbn [In]. tauto.
  - unfold config.COLLECTOR_RETRY_MAX. lia.
  - exists o, st. exact Hrun.
Defined.

End Parsing.

(* ===================================================================== *)
(** ** The batch loop of [collect_pois] *)
(* ===================================================================== *)

Section Collect.
Import collector.

Lemma firstn_add_skipn {A} (a b : nat) : forall l : list A,
  firstn (a + b) l = firstn a l ++ firstn b (skipn a l).
Proof.
  induction a as [|a IH]; intros l; [reflexivity|].
  destruct l as [|x l]; cbn [Nat.add firstn skipn app].
  - rewrite firstn_nil. reflexivity.
  - rewrite IH. reflexivity.
Qed.

(** A slice of at most [BATCH_SIZE] centers. *)
Lemma py_slice_chunk {A} (l : list A) (a : nat) :
  py_slice l a (Nat.min (a + BATCH_SIZE) (length l)) = firstn BATCH_SIZE (skipn a l).
Proof.
  unfold py_slice.
  destruct (Nat.le_gt_cases (a + BATCH_SIZE) (length l)) as [Hle|Hgt].
  - rewrite Nat.min_l by exact Hle. f_equal. lia.
  - rewrite Nat.min_r by lia.
    rewrite !firstn_all2; [reflexivity| |]; rewrite length_skipn; lia.
Qed.

(** The first [k] batches are the first [k * BATCH_SIZE] centers. *)
Lemma concat_chunks {A} (l : list A) (k : nat) :
  concat (map (fun a => py_slice l a (Nat.min (a + BATCH_SIZE) (length l)))
            (map (fun j => j * BATCH_SIZE) (seq 0 k)))
  = firstn (k * BATCH_SIZE) l.
Proof.
  induction k as [|k IH]; [reflexivity|].
  rewrite seq_S, !map_app, concat_app, IH. cbn [map concat Nat.add].
  rewrite app_nil_r, py_slice_chunk.
  replace (S k * BATCH_SIZE) with (k * BATCH_SIZE + BATCH_SIZE) by lia.
  symmetry. apply firstn_add_skipn.
Qed.

Lemma batches_cover (n : nat) :
  n <= (n + BATCH_SIZE - 1) / BATCH_SIZE * BATCH_SIZE.
Proof.
  pose proof (Nat.div_mod_eq (n + BATCH_SIZE - 1) BATCH_SIZE) as Hdm.
  pose proof (Nat.mod_upper_bound (n + BATCH_SIZE - 1) BATCH_SIZE) as Hlt.
  unfold BATCH_SIZE in *. lia.
Qed.

Lemma length_batch_tasks (cs : list (R * R)) :
  length (batch_tasks cs) = 19 * length cs.
Proof.
  unfold batch_tasks. induction cs as [|c cs IH]; [reflexivity|].
  change (c :: cs) with ([c] ++ cs). rewrite flat_map_app, !length_app.
  rewrite Nat.mul_add_distr_l. apply (f_equal2 Nat.add); [|exact IH].
  cbn [flat_map]. rewrite app_nil_r, length_map. reflexivity.
Qed.

Lemma gather_app (l1 l2 : list (option (outcome * fetch_state))) :
  gather (l1 ++ l2)
  = match gather l1 with
    | Results r1 =>
        match gather l2 with
        | Results r2 => Results (r1 ++ r2)
        | other => other
        end
    | Exception =>
        match gather l2 with
        | OutOfFuel => OutOfFuel
        | _ => Exception
        end
    | OutOfFuel => OutOfFuel
    end.
Proof.
  induction l1 as [|[[[pois|] st]|] l1 IH]; cbn [app gather].
  - destruct (gather l2); reflexivity.
  - rewrite IH. destruct (gather l1), (gather l2); reflexivity.
  - rewrite IH. destruct (gather l1), (gather l2); reflexivity.
  - reflexivity.
Qed.

Lemma gather_fed (runs : list (option (outcome * fetch_state))) :
  Forall (fun r => r <> None) runs -> gather runs <> OutOfFuel.
Proof.
  induction 1 as [|[[[pois|] st]|] runs Hr _ IH]; cbn [gather]; try congruence.
  - destruct (gather runs); congruence.
  - destruct (gather runs); congruence.
Qed.

Lemma run_task_fed fuel now (w : world) (ts : list task) :
  S config.COLLECTOR_RETRY_MAX <= fuel ->
  Forall (fun r => r <> None) (map (run_task fuel now w) ts).
Proof.
  intros Hfuel. apply List.Forall_forall. intros r Hr.
  apply in_map_iff in Hr as (t & <- & _). unfold run_task.
  destruct (fetch_one_tile_run now (w (fst t) (fst (snd t)) (snd (snd t)))
              (snd (snd t)) fuel Hfuel) as (o & st & -> & _).
  discriminate.
Qed.

Lemma batch_tasks_app (cs1 cs2 : list (R * R)) :
  batch_tasks (cs1 ++ cs2) = batch_tasks cs1 ++ batch_tasks cs2.
Proof. unfold batch_tasks. apply flat_map_app. Qed.

Lemma merge_results_app (m : gmap string POI.t) (r1 r2 : list (list POI.t)) :
  merge_results m (r1 ++ r2) = merge_results (merge_results m r1) r2.
Proof. unfold merge_results. apply fold_left_app. Qed.

Local Abbreviation chunk tc a :=
  (py_slice tc a (Nat.min (a + BATCH_SIZE) (length tc))).
Local Abbreviation runs fuel now w cs :=
  (map (run_task fuel now w) (batch_tasks cs)).

(** The batch loop either completes, having merged the results of all
    batches as one gather would return them, or stops at the first batch
    with a raising unit, having merged the batches before it. *)
Lemma collect_loop_spec fuel now (w : world) (tc : list (R * R)) :
  S config.COLLECTOR_RETRY_MAX <= fuel ->
  forall starts st,
  (size (all_pois st) <> 0 -> last (upserts st) = Some (all_pois st)) ->
  (exists rs st',
     gather (runs fuel now w (concat (map (fun a => chunk tc a) starts)))
       = Results rs /\
     collect_loop fuel now w tc starts st = Completed (size (all_pois st')) st' /\
     all_pois st' = merge_results (all_pois st) rs /\
     calls_done st'
       = calls_done st + 19 * length (concat (map (fun a => chunk tc a) starts)) /\
     (size (all_pois st') <> 0 -> last (upserts st') = Some (all_pois st'))) \/
  (exists done failing later rs st',
     starts = done ++ failing :: later /\
     gather (runs fuel now w (concat (map (fun a => chunk tc a) done)))
       = Results rs /\
     gather (runs fuel now w (chunk tc failing)) = Exception /\
     collect_loop fuel now w tc starts st = Failed st' /\
     all_pois st' = merge_results (all_pois st) rs /\
     calls_done st'
       = calls_done st + 19 * length (concat (map (fun a => chunk tc a) done)) /\
     (size (all_pois st') <> 0 -> last (upserts st') = Some (all_pois st'))).
Proof.
  intros Hfuel starts. induction starts as [|a starts IH]; intros st Hsaved.
  - left. exists [], st. cbn [map concat collect_loop length].
    split; [reflexivity|]. split; [reflexivity|]. split; [reflexivity|].
    split; [lia|exact Hsaved].
  - cbn [collect_loop].
    destruct (gather (runs fuel now w (chunk tc a))) as [r1| |] eqn:Eg.
    + set (all1 := merge_results (all_pois st) r1).
      set (st1 := {| all_pois := all1;
                     calls_done := calls_done st + length (batch_tasks (chunk tc a));
                     upserts := match size all1 with
                                | O => upserts st
                                | S _ => upserts st ++ [all1]
                                end |}).
      assert (Hsaved1 : size (all_pois st1) <> 0 ->
                        last (upserts st1) = Some (all_pois st1)).
      { cbn [st1 all_pois upserts]. intros Hne.
        destruct (size all1); [congruence|]. apply last_snoc. }
      destruct (IH st1 Hsaved1)
        as [(rs & st' & Hg & Hrun & Hall & Hcalls & Hs)
           |(done & failing & later & rs & st' & Hsplit & Hg & Hbad & Hrun & Hall
             & Hcalls & Hs)].
      * left. exists (r1 ++ rs), st'. split.
        { cbn [map concat].
          rewrite batch_tasks_app, map_app, gather_app, Eg, Hg. reflexivity. }
        split; [exact Hrun|]. split.
        { rewrite Hall. cbn [st1 all_pois]. unfold all1.
          symmetry. apply merge_results_app. }
        split; [|exact Hs].
        rewrite Hcalls. cbn [st1 calls_done map concat].
        rewrite length_app, length_batch_tasks. lia.
      * right. exists (a :: done), failing, later, (r1 ++ rs), st'.
        split; [rewrite Hsplit; reflexivity|]. split.
        { cbn [map concat].
          rewrite batch_tasks_app, map_app, gather_app, Eg, Hg. reflexivity. }
        split; [exact Hbad|]. split; [exact Hrun|]. split.
        { rewrite Hall. cbn [st1 all_pois]. unfold all1.
          symmetry. apply merge_results_app. }
        split; [|exact Hs].
        rewrite Hcalls. cbn [st1 calls_done map concat].
        rewrite length_app, length_batch_tasks. lia.
    + right. exists [], a, starts, [], st.
      split; [reflexivity|]. split; [reflexivity|]. split; [exact Eg|].
      split; [reflexivity|]. split; [reflexivity|].
      split; [cbn [map concat length]; lia|exact Hsaved].
    + exfalso. revert Eg. apply gather_fed, run_task_fed, Hfuel.
Qed.

Lemma batches_cover_all (tc : list (R * R)) :
  concat (map (fun a => chunk tc a) (py_range_step (length tc) BATCH_SIZE)) = tc.
Proof.
  unfold py_range_step. rewrite concat_chunks.
  apply firstn_all2, batches_cover.
Qed.

Lemma map_seq_split {A} (f : nat -> A) (m : nat) (done later : list A) (x : A) :
  map f (seq 0 m) = done ++ x :: later ->
  done = map f (seq 0 (length done)) /\ x = f (length done) /\ length done < m.
Proof.
  intros Heq.
  assert (Hlen : m = length done + S (length later)).
  { apply (f_equal (@length A)) in Heq.
    rewrite length_map, length_seq, length_app in Heq. cbn [length] in Heq. lia. }
  rewrite Hlen, seq_app, map_app in Heq. cbn [seq map Nat.add] in Heq.
  apply app_inj_1 in Heq as [Hd Hx]; [|rewrite length_map, length_seq; reflexivity].
  injection Hx as Hx _. split; [symmetry; exact Hd|]. split; [symmetry; exact Hx|lia].
Qed.

Lemma size_empty_saved :
  size (all_pois initial_collect_state) <> 0 ->
  last (upserts initial_collect_state) = Some (all_pois initial_collect_state).
Proof. cbn [initial_collect_state all_pois]. rewrite map_size_empty. congruence. Qed.

(** A run in which no unit raises: [collect_pois] returns the number of
    merged POIs; the merged set is what a single gather over all tiles
    would give, whatever the batch size; [calls_done] ends at tiles times
    searches per tile (14 types and 5 keywords, 19 units per tile); and
    when any POI was collected the last set saved to the database is the
    complete merged set. *)
Theorem collect_tiles_batching
    (fuel : nat) (now : string) (w : world) (tile_centers : list (R * R))
    (rs : list (list POI.t)) :
  S config.COLLECTOR_RETRY_MAX <= fuel ->
  gather (runs fuel now w tile_centers) = Results rs ->
  exists st,
    collect_tiles fuel now w tile_centers = Completed (size (all_pois st)) st /\
    all_pois st = merge_results ∅ rs /\
    calls_done st
      = length tile_centers
        * (length config.POI_TYPES + length config.POI_KEYWORDS) /\
    (size (all_pois st) <> 0 -> last (upserts st) = Some (all_pois st)) /\
    (compute_tile_centers fuel = Some tile_centers ->
     collect_pois fuel now w = Completed (size (all_pois st)) st).
Proof.
  intros Hfuel Hall.
  pose proof (batches_cover_all tile_centers) as Hcover.
  destruct (collect_loop_spec fuel now w tile_centers Hfuel
              (py_range_step (length tile_centers) BATCH_SIZE)
              initial_collect_state size_empty_saved)
    as [(rs' & st & Hg & Hrun & Hm & Hc & Hs)
       |(done & failing & later & rs' & st & Hsplit & Hg & Hbad & _)].
  - rewrite Hcover in Hg, Hc.
    assert (rs' = rs) as -> by congruence.
    exists st. split; [exact Hrun|]. split; [exact Hm|]. split.
    { rewrite Hc. cbn [initial_collect_state calls_done].
      change (length config.POI_TYPES + length config.POI_KEYWORDS) with 19. lia. }
    split; [exact Hs|].
    intros Htc. unfold collect_pois. rewrite Htc. exact Hrun.
  - exfalso. rewrite Hsplit, map_app, concat_app in Hcover.
    cbn [map concat] in Hcover. rewrite <- Hcover in Hall.
    rewrite batch_tasks_app, map_app, gather_app, Hg in Hall.
    rewrite batch_tasks_app, map_app, gather_app, Hbad in Hall.
    destruct (gather _) in Hall; discriminate.
Qed.

Lemma collect_tiles_batching_witness :
  exists st,
    collect_tiles 4 "t" (fun _ _ _ _ => HttpResponse 200 "ZERO_RESULTS" [])
      [(config.BBOX_SOUTH, config.BBOX_WEST)]
      = Completed (size (all_pois st)) st /\
    all_pois st = ∅.
Proof.
  destruct (collect_tiles_batching 4 "t"
              (fun _ _ _ _ => HttpResponse 200 "ZERO_RESULTS" [])
              [(config.BBOX_SOUTH, config.BBOX_WEST)] (repeat [] 19))
    as (st & Hrun & Hm & _).
  - unfold config.COLLECTOR_RETRY_MAX. lia.
  - reflexivity.
  - exists st. split; [exact Hrun|]. rewrite Hm. reflexivity.
Defined.

(** A run in which some unit raises: [collect_pois] raises in the first
    batch that holds a raising unit; the batches before it, and only
    they, have been merged and counted, and what they collected has been
    saved. *)
Theorem collect_tiles_failure
    (fuel : nat) (now : string) (w : world) (tile_centers : list (R * R)) :
  S config.COLLECTOR_RETRY_MAX <= fuel ->
  gather (runs fuel now w tile_centers) = Exception ->
  exists k rs st,
    collect_tiles fuel now w tile_centers = Failed st /\
    k * BATCH_SIZE < length tile_centers /\
    gather (runs fuel now w (firstn (k * BATCH_SIZE) tile_centers)) = Results rs /\
    gather (runs fuel now w
              (firstn BATCH_SIZE (skipn (k * BATCH_SIZE) tile_centers)))
      = Exception /\
    all_pois st = merge_results ∅ rs /\
    calls_done st = 19 * (k * BATCH_SIZE) /\
    (size (all_pois st) <> 0 -> last (upserts st) = Some (all_pois st)) /\
    (compute_tile_centers fuel = Some tile_centers ->
     collect_pois fuel now w = Failed st).
Proof.
  intros Hfuel Hall.
  pose proof (batches_cover_all tile_centers) as Hcover.
  destruct (collect_loop_spec fuel now w tile_centers Hfuel
              (py_range_step (length tile_centers) BATCH_SIZE)
              initial_collect_state size_empty_saved)
    as [(rs' & st & Hg & _)
       |(done & failing & later & rs & st & Hsplit & Hg & Hbad & Hrun & Hm & Hc & Hs)].
  - rewrite Hcover in Hg. congruence.
  - unfold py_range_step in Hsplit.
    apply map_seq_split in Hsplit as (Hdone & Hfailing & Hk).
    set (k := length done) in *.
    rewrite Hdone, concat_chunks in Hg, Hc.
    rewrite Hfailing, py_slice_chunk in Hbad.
    assert (Hin : k * BATCH_SIZE < length tile_centers).
    { destruct (Nat.lt_ge_cases (k * BATCH_SIZE) (length tile_centers)) as [H|H];
        [exact H|].
      rewrite skipn_all2 in Hbad by exact H. discriminate. }
    exists k, rs, st. split; [exact Hrun|]. split; [exact Hin|].
    split; [exact Hg|]. split; [exact Hbad|]. split; [exact Hm|]. split.
    { rewrite Hc. cbn [initial_collect_state calls_done].
      rewrite firstn_length_le by lia. lia. }
    split; [exact Hs|].
    intros Htc. unfold collect_pois. rewrite Htc. exact Hrun.
Qed.

Lemma collect_tiles_failure_witness :
  exists st,
    collect_tiles 4 "t" (fun _ _ _ _ => OtherException)
      [(config.BBOX_SOUTH, config.BBOX_WEST)] = Failed st /\
    calls_done st = 0.
Proof.
  destruct (collect_tiles_failure 4 "t" (fun _ _ _ _ => OtherException)
              [(config.BBOX_SOUTH, config.BBOX_WEST)])
    as (k & rs & st & Hrun & Hk & _ & _ & _ & Hc & _).
  - unfold config.COLLECTOR_RETRY_MAX. lia.
  - reflexivity.
  - exists st. split; [exact Hrun|].
    cbn [length] in Hk. unfold BATCH_SIZE in *. lia.
Defined.

End Collect.

(* ===================================================================== *)
(** ** The lattice of tile centers *)
(* ===================================================================== *)

Section TileLattice.
Import collector.
Local Open Scope R_scope.

Variables spacing x_min x_max y_max : R.
Hypothesis spacing_pos : 0 < spacing.

Local Abbreviation center x y :=
  (grid.offset_point config.BBOX_SOUTH config.BBOX_WEST x y).

(** The inner loop appends exactly the centers of the lattice abscissas
    [x, x + spacing, ...] that do not exceed [x_max]. *)
Lemma row_loop_exact (y : R) (n : nat) : forall fuel x centers,
  (n <= fuel)%nat ->
  x_max < x + INR n * spacing ->
  (forall k, (k < n)%nat -> x + INR k * spacing <= x_max) ->
  row_loop fuel spacing x_max y x centers
    = Some (centers ++ map (fun k => center (x + INR k * spacing) y) (seq 0 n)).
Proof.
  induction n as [|n IH]; intros fuel x centers Hfuel Hstop Hin.
  - cbn [INR] in Hstop. cbn [seq map]. rewrite app_nil_r.
    destruct fuel; cbn [row_loop]; destruct (Rle_dec x x_max); try lra; reflexivity.
  - assert (Hx : x <= x_max).
    { specialize (Hin 0%nat ltac:(lia)). cbn [INR] in Hin. lra. }
    destruct fuel as [|fuel]; [lia|]. cbn [row_loop].
    destruct (Rle_dec x x_max) as [_|H]; [|contradiction].
    rewrite S_INR in Hstop.
    rewrite (IH fuel (x + spacing)).
    + rewrite <- app_assoc. apply f_equal. apply f_equal. cbn [app seq map].
      rewrite <- seq_shift, List.map_map. apply f_equal2.
      * replace (x + INR 0 * spacing) with x by (cbn [INR]; lra). reflexivity.
      * apply map_ext. intros k. rewrite S_INR.
        replace (x + (INR k + 1) * spacing) with (x + spacing + INR k * spacing)
          by lra.
        reflexivity.
    + lia.
    + lra.
    + intros k Hk. specialize (Hin (S k) ltac:(lia)). rewrite S_INR in Hin. lra.
Qed.

Lemma flat_map_seq_shift {A} (f : nat -> list A) (n : nat) : forall a,
  flat_map f (seq (S a) n) = flat_map (fun j => f (S j)) (seq a n).
Proof.
  induction n as [|n IH]; intros a; cbn [seq flat_map]; [reflexivity|].
  rewrite IH. reflexivity.
Qed.

(** The outer loop appends the rows of the lattice, south to north. *)
Lemma col_loop_exact (m n : nat) : forall fuel y centers,
  (n + m <= fuel)%nat ->
  x_max < x_min + INR m * spacing ->
  (forall k, (k < m)%nat -> x_min + INR k * spacing <= x_max) ->
  y_max < y + INR n * spacing ->
  (forall j, (j < n)%nat -> y + INR j * spacing <= y_max) ->
  col_loop fuel spacing x_min x_max y_max y centers
    = Some (centers
            ++ flat_map
                 (fun j => map (fun k => center (x_min + INR k * spacing)
                                           (y + INR j * spacing)) (seq 0 m))
                 (seq 0 n)).
Proof.
  induction n as [|n IH]; intros fuel y centers Hfuel Hxstop Hxin Hstop Hin.
  - cbn [INR] in Hstop. cbn [seq flat_map]. rewrite app_nil_r.
    destruct fuel; cbn [col_loop]; destruct (Rle_dec y y_max); try lra; reflexivity.
  - assert (Hy : y <= y_max).
    { specialize (Hin 0%nat ltac:(lia)). cbn [INR] in Hin. lra. }
    destruct fuel as [|fuel]; [lia|]. cbn [col_loop].
    destruct (Rle_dec y y_max) as [_|H]; [|contradiction].
    rewrite (row_loop_exact y m (S fuel) x_min centers ltac:(lia) Hxstop Hxin).
    rewrite S_INR in Hstop.
    rewrite (IH fuel (y + spacing)).
    + rewrite <- app_assoc. apply f_equal. apply f_equal. cbn [seq flat_map].
      apply f_equal2.
      * apply map_ext. intros k.
        replace (y + INR 0 * spacing) with y by (cbn [INR]; lra). reflexivity.
      * rewrite flat_map_seq_shift.
        apply flat_map_ext. intros j. apply map_ext. intros k.
        rewrite S_INR.
        replace (y + (INR j + 1) * spacing) with (y + spacing + INR j * spacing)
          by lra.
        reflexivity.
    + lia.
    + exact Hxstop.
    + exact Hxin.
    + lra.
    + intros j Hj. specialize (Hin (S j) ltac:(lia)). rewrite S_INR in Hin. lra.
Qed.

(** The number of lattice steps that fit into a length. *)
Lemma step_count (L : R) :
  0 <= L ->
  exists n : nat,
    (0 < n)%nat /\ INR (n - 1) * spacing <= L < INR n * spacing.
Proof.
  intros HL.
  assert (Hq : 0 <= L / spacing).
  { apply Rmult_le_pos; [exact HL|]. left. apply Rinv_0_lt_compat, spacing_pos. }
  pose proof (Zfloor_bound (L / spacing)) as [Hlo Hhi].
  assert (Hz : (0 <= Zfloor (L / spacing))%Z) by (apply Zfloor_lub; simpl; lra).
  exists (S (Z.to_nat (Zfloor (L / spacing)))). split; [lia|].
  replace (S (Z.to_nat (Zfloor (L / spacing))) - 1)%nat
    with (Z.to_nat (Zfloor (L / spacing))) by lia.
  rewrite S_INR, INR_IZR_INZ, Z2Nat.id by exact Hz.
  assert (HLq : L = L / spacing * spacing) by (field; lra).
  split.
  - rewrite HLq at 2. apply Rmult_le_compat_r; lra.
  - rewrite HLq at 1. apply Rmult_lt_compat_r; lra.
Qed.

End TileLattice.

Section TileLatticeStructure.
Import collector.
Local Open Scope R_scope.

(** [compute_tile_centers] returns a full rectangular lattice in
    row-major order, rows south to north: [rows * cols] centers, the one
    at index [j * cols + k] shifted by [(-buffer + k * spacing,
    -buffer + j * spacing)] from the south-west corner, where [cols] and
    [rows] are the numbers of steps that fit into the width and the
    height of the box extended by the buffer on both sides. *)
Theorem tile_centers_lattice :
  let spacing := config.MAX_INFLUENCE_M * sqrt 2 * (9 / 10) in
  let buffer := config.MAX_INFLUENCE_M in
  let width_m := grid.haversine config.BBOX_SOUTH config.BBOX_WEST
                   config.BBOX_SOUTH config.BBOX_EAST in
  let height_m := grid.haversine config.BBOX_SOUTH config.BBOX_WEST
                    config.BBOX_NORTH config.BBOX_WEST in
  exists rows cols : nat,
    (0 < rows)%nat /\ (0 < cols)%nat /\
    INR (cols - 1) * spacing <= width_m + 2 * buffer < INR cols * spacing /\
    INR (rows - 1) * spacing <= height_m + 2 * buffer < INR rows * spacing /\
    forall fuel, (rows + cols <= fuel)%nat ->
      exists centers,
        compute_tile_centers fuel = Some centers /\
        length centers = (rows * cols)%nat /\
        forall j k, (j < rows)%nat -> (k < cols)%nat ->
          nth_error centers (j * cols + k)
            = Some (grid.offset_point config.BBOX_SOUTH config.BBOX_WEST
                      (- buffer + INR k * spacing) (- buffer + INR j * spacing)).
Proof.
  intros spacing buffer width_m height_m.
  pose proof spacing_bounds as Hsb. fold spacing in Hsb.
  assert (Hpos : 0 < spacing) by lra.
  assert (Hbuf : buffer = 1000) by reflexivity.
  pose proof (haversine_nonneg config.BBOX_SOUTH config.BBOX_WEST
                config.BBOX_SOUTH config.BBOX_EAST) as Hw. fold width_m in Hw.
  pose proof (haversine_nonneg config.BBOX_SOUTH config.BBOX_WEST
                config.BBOX_NORTH config.BBOX_WEST) as Hh. fold height_m in Hh.
  destruct (step_count spacing Hpos (width_m + 2 * buffer) ltac:(lra))
    as (cols & Hcols & Hclo & Hchi).
  destruct (step_count spacing Hpos (height_m + 2 * buffer) ltac:(lra))
    as (rows & Hrows & Hrlo & Hrhi).
  exists rows, cols. split; [exact Hrows|]. split; [exact Hcols|].
  split; [split; assumption|]. split; [split; assumption|].
  intros fuel Hfuel.
  assert (Hmono : forall n k : nat, (k < n)%nat ->
                    INR k * spacing <= INR (n - 1) * spacing).
  { intros n k Hk. apply Rmult_le_compat_r; [lra|]. apply le_INR. lia. }
  change (compute_tile_centers fuel)
    with (col_loop fuel spacing (- buffer) (width_m + buffer) (height_m + buffer)
            (- buffer) []).
  rewrite (col_loop_exact spacing (- buffer) (width_m + buffer) (height_m + buffer)
             cols rows fuel (- buffer) []).
  - eexists. split; [reflexivity|]. cbn [app]. split.
    + apply (length_rows
               (fun k j => grid.offset_point config.BBOX_SOUTH config.BBOX_WEST
                             (- buffer + INR k * spacing)
                             (- buffer + INR j * spacing)) cols rows 0).
    + intros j k Hj Hk.
      apply (nth_error_rows
               (fun k j => grid.offset_point config.BBOX_SOUTH config.BBOX_WEST
                             (- buffer + INR k * spacing)
                             (- buffer + INR j * spacing)) cols rows 0 j k Hk Hj).
  - exact Hfuel.
  - lra.
  - intros k Hk. specialize (Hmono cols k Hk). lra.
  - lra.
  - intros j Hj. specialize (Hmono rows j Hj). lra.
Qed.

End TileLatticeStructure.

(* ===================================================================== *)
(** ** The nearest-profile lookup *)
(* ===================================================================== *)

Section NearestProfile.
Import main.
Local Open Scope R_scope.

(** [min] with a key returns the first element with the least key. *)
Lemma py_min_by_first_least {A} (key : A -> R) (first : A) (rest : list A) :
  let best := py_min_by key first rest in
  exists before after,
    first :: rest = before ++ best :: after /\
    (forall q, In q (first :: rest) -> key best <= key q) /\
    (forall q, In q before -> key best < key q).
Proof.
  unfold py_min_by. induction rest as [|y rest IH] using rev_ind.
  - exists [], []. cbn [fold_left app]. split; [reflexivity|]. split.
    + intros q [<-|[]]. lra.
    + intros q [].
  - rewrite fold_left_app. cbn [fold_left].
    destruct IH as (before & after & Hsplit & Hmin & Hstrict).
    set (best := fold_left (min_step key) rest first) in *.
    unfold min_step. destruct (Rlt_dec (key y) (key best)) as [Hlt|Hge].
    + exists (first :: rest), []. split; [reflexivity|]. split.
      * intros q Hq. change (first :: rest ++ [y]) with ((first :: rest) ++ [y]) in Hq.
        apply in_app_iff in Hq as [Hq|[<-|[]]]; [|lra].
        specialize (Hmin q Hq). lra.
      * intros q Hq. specialize (Hmin q Hq). lra.
    + exists before, (after ++ [y]). split.
      * change (first :: rest ++ [y]) with ((first :: rest) ++ [y]).
        rewrite Hsplit, <- app_assoc. reflexivity.
      * split; [|exact Hstrict].
        intros q Hq. change (first :: rest ++ [y]) with ((first :: rest) ++ [y]) in Hq.
        apply in_app_iff in Hq as [Hq|[<-|[]]]; [apply Hmin, Hq|lra].
Qed.

(** [get_nearest_profile]: the answer is a 400 error exactly when no
    grid point is stored; otherwise the grid point looked up is the first
    stored point at the least haversine distance from the query, the
    answer is a 404 error when that point has no stored profile, and a
    successful answer carries that point's id and coordinates with the
    stored profile's summary, attributes and audience.  A query at the
    coordinates of a stored grid point is answered with a point at
    distance zero. *)
Theorem nearest_profile_minimal
    (grid_points : list grid.GridPoint)
    (get_profile : string -> option profiler.profile_row) (lat lon : R) :
  let answer := get_nearest_profile grid_points get_profile lat lon in
  let dist := fun gp => grid.haversine lat lon (grid.lat gp) (grid.lon gp) in
  (answer = HTTPException 400 <-> grid_points = []) /\
  (grid_points <> [] ->
   exists before nearest after,
     grid_points = before ++ nearest :: after /\
     (forall q, In q grid_points -> dist nearest <= dist q) /\
     (forall q, In q before -> dist nearest < dist q) /\
     (forall q, In q grid_points -> grid.lat q = lat -> grid.lon q = lon ->
        dist nearest = 0) /\
     match get_profile (grid.id nearest) with
     | None => answer = HTTPException 404
     | Some profile =>
         exists body,
           answer = Ok body /\
           r_grid_point_id body = grid.id nearest /\
           r_lat body = grid.lat nearest /\
           r_lon body = grid.lon nearest /\
           r_poi_summary body = profiler.row_poi_summary profile /\
           r_geographic_attributes body = profiler.row_geo_attrs profile /\
           r_audience body = profiler.row_audience profile
     end).
Proof.
  intros answer dist. unfold answer, get_nearest_profile.
  destruct grid_points as [|first rest].
  - split; [tauto|]. congruence.
  - destruct (py_min_by_first_least dist first rest)
      as (before & after & Hsplit & Hmin & Hstrict).
    fold dist. set (nearest := py_min_by dist first rest) in *.
    split.
    + split; [|discriminate].
      destruct (get_profile (grid.id nearest)); discriminate.
    + intros _. exists before, nearest, after.
      split; [exact Hsplit|]. split; [exact Hmin|]. split; [exact Hstrict|]. split.
      * intros q Hq Hlat Hlon. specialize (Hmin q Hq).
        pose proof (haversine_nonneg lat lon (grid.lat nearest) (grid.lon nearest))
          as H0.
        assert (Hq0 : dist q = 0).
        { unfold dist. rewrite Hlat, Hlon, haversine_unfold. unfold geo_spec.hav.
          replace (lat - lat) with 0 by lra. replace (lon - lon) with 0 by lra.
          rewrite radians_0. replace (0 / 2) with 0 by lra. rewrite sin_0.
          replace (0 ^ 2 + _ * 0 ^ 2) with 0 by ring.
          rewrite sqrt_0, asin_0. ring. }
        unfold dist in *. lra.
      * destruct (get_profile (grid.id nearest)) as [profile|]; [|reflexivity].
        eexists. split; [reflexivity|]. cbn. repeat split.
Qed.

End NearestProfile.

(* ===================================================================== *)
(** ** Monotonicity of the scalar scores *)
(* ===================================================================== *)

Section ScoreMonotone.
Import profiler score_spec.
Local Open Scope R_scope.

Lemma score_step_footfall s x :
  footfall_total (score_step s x) = footfall_total s + footfall_weight_of x.
Proof.
  unfold score_step, footfall_weight_of. rewrite weighting_type_primary.
  destruct (_primary_type (POI.types (fst x))); simpl; lra.
Qed.

Lemma score_loop_sums l : forall s,
  total_influence (fold_left score_step l s)
    = total_influence s + sum_of base_weight_of l /\
  footfall_total (fold_left score_step l s)
    = footfall_total s + sum_of footfall_weight_of l.
Proof.
  unfold sum_of. induction l as [|x l IH]; intros s; cbn [fold_left fold_right].
  - split; lra.
  - destruct (IH (score_step s x)) as [-> ->].
    rewrite score_step_total, score_step_footfall. split; lra.
Qed.

Lemma sum_of_perm f l l' : l ≡ₚ l' -> sum_of f l = sum_of f l'.
Proof.
  unfold sum_of.
  induction 1 as [|x l1 l2 Hp IH|x y l|l1 l2 l3 Hp1 IH1 Hp2 IH2];
    cbn [fold_right] in *.
  - reflexivity.
  - rewrite IH. reflexivity.
  - lra.
  - congruence.
Qed.

Lemma sum_of_app f l l' : sum_of f (l ++ l') = sum_of f l + sum_of f l'.
Proof.
  unfold sum_of. induction l as [|x l IH]; cbn [app fold_right] in *; [lra|].
  rewrite IH. lra.
Qed.

Lemma sum_of_nonneg f l : (forall x, 0 <= f x) -> 0 <= sum_of f l.
Proof.
  intros Hf. unfold sum_of.
  induction l as [|x l IH]; cbn [fold_right] in *; [lra|].
  specialize (Hf x). lra.
Qed.

Lemma base_weight_of_nonneg x : 0 <= base_weight_of x.
Proof.
  destruct (_primary_type (POI.types (fst x))) as [t|] eqn:E.
  - left. apply base_weight_of_pos. unfold weighted. rewrite E. discriminate.
  - rewrite base_weight_of_unweighted; [lra|]. unfold weighted. rewrite E. tauto.
Qed.

Lemma footfall_weight_of_nonneg x : 0 <= footfall_weight_of x.
Proof.
  unfold footfall_weight_of.
  destruct (_primary_type (POI.types (fst x))); [|lra].
  pose proof (_popularity_factor_ge_1 (POI.user_ratings_total (fst x))).
  pose proof (exp_pos (- (snd x * snd x) / (2 * config.SIGMA_M * config.SIGMA_M))).
  unfold _gaussian_decay. apply Rmult_le_pos; lra.
Qed.

Lemma capped_score_mono (t t' k : R) :
  0 < k -> t <= t' ->
  (if Rlt_dec 0 t then py_round (Rmin 1 (t / k)) 2 else 0)
  <= (if Rlt_dec 0 t' then py_round (Rmin 1 (t' / k)) 2 else 0).
Proof.
  intros Hk Hle.
  destruct (Rlt_dec 0 t) as [Ht|Ht]; destruct (Rlt_dec 0 t') as [Ht'|Ht']; try lra.
  - apply py_round_mono. apply Rle_min_compat_l.
    apply Rmult_le_compat_r; [left; apply Rinv_0_lt_compat; exact Hk|exact Hle].
  - rewrite <- (py_round_IZR 0 2). apply py_round_mono.
    apply Rmin_glb; [lra|]. left. apply Rdiv_lt_0_compat; lra.
Qed.

(** More POIs never lower the scalar scores: the footfall proxy and the
    confidence of a grid point computed from a POI list with further
    POIs added are at least those computed from the list itself; the sums
    behind them are the sums of the POIs' weights, in any order. *)
Theorem scores_monotone (gp : grid.GridPoint) (pois extra : list (POI.t * R)) :
  let a := audience (compute_profile gp pois) in
  let a' := audience (compute_profile gp (extra ++ pois)) in
  footfall_proxy a <= footfall_proxy a' /\ confidence a <= confidence a'.
Proof.
  unfold compute_profile. cbn [audience footfall_proxy confidence].
  destruct (score_loop_sums (sort_by_distance pois) empty_scores) as [Ht Hf].
  destruct (score_loop_sums (sort_by_distance (extra ++ pois)) empty_scores)
    as [Ht' Hf'].
  rewrite (sum_of_perm base_weight_of _ _ (sort_by_distance_perm pois)) in Ht.
  rewrite (sum_of_perm footfall_weight_of _ _ (sort_by_distance_perm pois)) in Hf.
  rewrite (sum_of_perm base_weight_of _ _ (sort_by_distance_perm (extra ++ pois)))
    in Ht'.
  rewrite (sum_of_perm footfall_weight_of _ _
             (sort_by_distance_perm (extra ++ pois))) in Hf'.
  rewrite sum_of_app in Ht', Hf'. cbn [empty_scores total_influence footfall_total]
    in Ht, Hf, Ht', Hf'.
  pose proof (sum_of_nonneg base_weight_of extra base_weight_of_nonneg).
  pose proof (sum_of_nonneg footfall_weight_of extra footfall_weight_of_nonneg).
  split; apply capped_score_mono; lra.
Qed.

End ScoreMonotone.

(* ===================================================================== *)
(** ** The distributions as weighted averages *)
(* ===================================================================== *)

Section WeightedAverage.
Import profiler score_spec distribution_spec.
Local Open Scope R_scope.
















End WeightedAverage.

(* ===================================================================== *)
(** ** The coarse test away from the configured latitude *)
(* ===================================================================== *)

Section CoarseLatitude.
Import profiler geo_spec.
Local Open Scope R_scope.

Lemma cos_quadratic_lower (x : R) : 1 - x ^ 2 / 2 <= cos x.
Proof.
  replace x with (2 * (x / 2)) at 2 by lra. rewrite cos_2a_sin.
  pose proof (sin_sqr_le (x / 2)) as H. nra.
Qed.

Lemma lon_margin_bounds : 0 < _LON_MARGIN <= 1236 / 100000.
Proof.
  pose proof PI_bounds as HPI.
  set (c0 := cos (grid.radians (2844 / 100))).
  assert (Hc0 : 8 / 10 <= c0 <= 1).
  { split; [|apply COS_bound].
    pose proof (cos_quadratic_lower (grid.radians (2844 / 100))) as Hq. fold c0 in Hq.
    assert (Hx : 0 <= grid.radians (2844 / 100) <= 632 / 1000)
      by (unfold grid.radians; lra).
    nra. }
  unfold _LON_MARGIN, _DEG_PER_M_LON, config.MAX_INFLUENCE_M. fold c0.
  assert (Hinv : 0 < 1 / (111320 * c0) <= 1 / (111320 * (8 / 10))).
  { split.
    - apply Rdiv_lt_0_compat; lra.
    - unfold Rdiv. rewrite !Rmult_1_l. apply Rinv_le_contravar; lra. }
  lra.
Qed.

(** The longitude margin of the coarse test is computed for latitude
    28.44: for a grid point at latitude 60 or beyond, a POI on the same
    parallel just outside the margin is within the influence radius and
    yet fails the coarse test, so the candidate loop never selects it. *)
Theorem coarse_filter_latitude_bound
    (gp : grid.GridPoint) (p : POI.t) (all_pois : list POI.t) :
  60 <= grid.lat gp <= 90 ->
  POI.lat p = grid.lat gp ->
  POI.lon p = grid.lon gp + 1001 / 1000 * _LON_MARGIN ->
  grid.haversine (grid.lat gp) (grid.lon gp) (POI.lat p) (POI.lon p)
    <= config.MAX_INFLUENCE_M /\
  ~ coarse_pass (grid.lat gp) (grid.lon gp) p /\
  forall d, ~ In (p, d) (candidates_for gp all_pois).
Proof.
  intros Hlat Hplat Hplon.
  pose proof PI_bounds as HPI. pose proof R_earth_pos as HR.
  pose proof lon_margin_bounds as Hm.
  assert (Hcoarse : ~ coarse_pass (grid.lat gp) (grid.lon gp) p).
  { unfold coarse_pass. rewrite Hplon. intros [_ H].
    replace (grid.lon gp + 1001 / 1000 * _LON_MARGIN - grid.lon gp)
      with (1001 / 1000 * _LON_MARGIN) in H by lra.
    rewrite Rabs_pos_eq in H by lra. lra. }
  split; [|split; [exact Hcoarse|]].
  - rewrite Hplat, Hplon.
    eapply Rle_trans; [apply haversine_parallel_le; lra|].
    replace (grid.lon gp + 1001 / 1000 * _LON_MARGIN - grid.lon gp)
      with (1001 / 1000 * _LON_MARGIN) by lra.
    set (c := cos (grid.radians (grid.lat gp))).
    assert (Hc : 0 <= c <= 1 / 2).
    { split; [apply cos_latitude_nonneg; lra|].
      unfold c. rewrite <- cos_PI3. unfold grid.radians. apply cos_decr_1; nra. }
    assert (Hrad : 0 <= grid.radians (1001 / 1000 * _LON_MARGIN) <= 3 / 10000).
    { unfold grid.radians. split; nra. }
    assert (Hrc : 0 <= grid.R_earth * c <= 3189069).
    { unfold grid.R_earth. split; nra. }
    unfold config.MAX_INFLUENCE_M. nra.
  - intros d Hin. apply candidates_spec in Hin as (_ & _ & _ & Hpass).
    exact (Hcoarse Hpass).
Qed.

Lemma coarse_filter_latitude_bound_witness :
  let gp := grid.mk_GridPoint "g_0_0" 0 0 60 10 in
  let p := POI.mk "p1" "Harbour" 60 (10 + 1001 / 1000 * _LON_MARGIN)
             ["school"%string] None None ""%string ""%string in
  grid.haversine (grid.lat gp) (grid.lon gp) (POI.lat p) (POI.lon p)
    <= config.MAX_INFLUENCE_M /\
  forall d, ~ In (p, d) (candidates_for gp [p]).
Proof.
  intros gp p.
  destruct (coarse_filter_latitude_bound gp p [p]) as (Hd & _ & Hnot).
  - cbn [gp grid.lat]. lra.
  - reflexivity.
  - reflexivity.
  - split; [exact Hd|exact Hnot].
Defined.

End CoarseLatitude.

(* ===================================================================== *)
(** ** The total of the counts *)
(* ===================================================================== *)

Section CountsTotal.
Import profiler summary_spec.

Lemma sum_counts_setitem (d : pydict.dict nat) k v :
  fold_right Nat.add 0 (pydict.values (pydict.setitem d k v))
  + match pydict.get d k with Some c => c | None => 0 end
  = fold_right Nat.add 0 (pydict.values d) + v.
Proof.
  unfold pydict.values.
  induction d as [|[k' v'] d IH]; cbn [pydict.setitem pydict.get].
  - cbn. lia.
  - destruct (String.eqb k' k); cbn [map snd fold_right] in *; lia.
Qed.

Lemma values_setitem_pos (d : pydict.dict nat) k v :
  1 <= v ->
  Forall (fun c => 1 <= c) (pydict.values d) ->
  Forall (fun c => 1 <= c) (pydict.values (pydict.setitem d k v)).
Proof.
  intros Hv. induction d as [|[k' v'] d IH]; cbn [pydict.setitem]; intros Hd.
  - repeat constructor. exact Hv.
  - cbn [pydict.values map snd] in Hd. apply Forall_cons in Hd as [Hv' Hd].
    destruct (String.eqb k' k); cbn [pydict.values map snd]; constructor; auto.
Qed.

Lemma count_step_total counts x :
  NoDup (pydict.keys counts) ->
  Forall (fun c => 1 <= c) (pydict.values counts) ->
  fold_right Nat.add 0 (pydict.values (count_step counts x))
    = fold_right Nat.add 0 (pydict.values counts)
      + (if decide (is_Some (_primary_type (POI.types (fst x)))) then 1 else 0) /\
  NoDup (pydict.keys (count_step counts x)) /\
  Forall (fun c => 1 <= c) (pydict.values (count_step counts x)).
Proof.
  intros Hnd Hpos. unfold count_step. rewrite weighting_type_primary.
  destruct (_primary_type (POI.types (fst x))) as [t|].
  - destruct (decide (is_Some (Some t))) as [_|Hn]; [|exfalso; apply Hn; eauto].
    unfold pydict.add_to. split; [|split].
    + pose proof (sum_counts_setitem counts t
                    (match pydict.get counts t with Some v => v | None => 0 end + 1))
        as H.
      destruct (pydict.get counts t) as [v|]; lia.
    + apply keys_setitem_NoDup, Hnd.
    + apply values_setitem_pos; [lia|exact Hpos].
  - destruct (decide (is_Some (@None string))) as [[v Hv]|_]; [discriminate|].
    split; [lia|]. split; assumption.
Qed.

Lemma count_loop_total l : forall counts,
  NoDup (pydict.keys counts) ->
  Forall (fun c => 1 <= c) (pydict.values counts) ->
  fold_right Nat.add 0 (pydict.values (fold_left count_step l counts))
    = fold_right Nat.add 0 (pydict.values counts)
      + length (filter (fun x => is_Some (_primary_type (POI.types (fst x)))) l) /\
  NoDup (pydict.keys (fold_left count_step l counts)) /\
  Forall (fun c => 1 <= c) (pydict.values (fold_left count_step l counts)).
Proof.
  induction l as [|x l IH]; intros counts Hnd Hpos; cbn [fold_left].
  - split; [cbn; lia|]. split; assumption.
  - destruct (count_step_total counts x Hnd Hpos) as (Hsum & Hnd1 & Hpos1).
    destruct (IH _ Hnd1 Hpos1) as (Hsum' & Hnd' & Hpos').
    split; [|split; assumption].
    rewrite Hsum', Hsum, filter_cons.
    destruct (decide (is_Some (_primary_type (POI.types (fst x))))); cbn [length]; lia.
Qed.

(** The counts of the POI summary add up to the number of POIs of the
    list that have a primary type, so to no more than the number of POIs;
    no category is listed twice and every listed category counts at least
    one POI. *)
Theorem counts_total (gp : grid.GridPoint) (pois : list (POI.t * R)) :
  let c := counts (poi_summary (compute_profile gp pois)) in
  fold_right Nat.add 0 (pydict.values c)
    = length (filter (fun x => is_Some (_primary_type (POI.types (fst x)))) pois) /\
  fold_right Nat.add 0 (pydict.values c) <= length pois /\
  NoDup (pydict.keys c) /\
  Forall (fun n => 1 <= n) (pydict.values c).
Proof.
  unfold compute_profile. cbn [poi_summary counts].
  destruct (count_loop_total (sort_by_distance pois) [] NoDup_nil_2
              (List.Forall_nil _)) as (Hsum & Hnd & Hpos).
  assert (Hlen : length (filter (fun x => is_Some (_primary_type (POI.types (fst x))))
                          (sort_by_distance pois))
                 = length (filter (fun x => is_Some (_primary_type (POI.types (fst x))))
                            pois)).
  { rewrite (sort_by_distance_perm pois). reflexivity. }
  rewrite Hlen in Hsum. cbn [pydict.values map fold_right] in Hsum.
  split; [exact Hsum|]. split; [|split; assumption].
  rewrite Hsum. apply length_filter.
Qed.

End CountsTotal.
